(** * TUIO broadcaster for the patient medication system: model and properties

    A shallow embedding of [main.py]: the ingestion callback [_handle_obj],
    the selection logic [process_logic_and_broadcast], the fan-out
    [broadcast] and the registration of client sockets, with the Python
    values, exceptions and IEEE-754 doubles the code computes with. *)

From Stdlib Require Import ZArith Lia Bool String.
From Stdlib Require Import Floats.SpecFloat.
From stdpp Require Import base option list gmap.

Local Open Scope Z_scope.

(** ** Python exceptions

    The classes the operations of the program raise; all of them derive from
    [Exception] and have a text.  [UserError tag] stands for the exception
    of a class of its own, numbered [tag], that a property of an external
    object raises when it is read: a class that derives from [Exception] and
    has a text, except under [AnyException] below, where the class of each
    tag is given. *)
Inductive exn :=
| TypeError | ValueError | OverflowError | ZeroDivisionError
| IndexError | KeyError | OSError | AttributeError | UserError (tag : nat).

(** Result of an operation that has no effect on the program state. *)
Definition res (A : Type) : Type := exn + A.

Definition res_bind {A B} (r : res A) (k : A -> res B) : res B :=
  match r with inl e => inl e | inr a => k a end.

(** ** Binary64 floating point (Python's [float]) *)
Module Float64.

Definition prec : Z := 53.
Definition emax : Z := 1024.

Definition float := spec_float.

Definition valid (f : float) : bool := valid_binary prec emax f.

Definition is_finite (f : float) : bool :=
  match f with
  | S754_zero _ | S754_finite _ _ _ => true
  | _ => false
  end.

Definition zero : float := S754_zero false.
Definition one : float := S754_finite false 4503599627370496 (-52).

Definition add : float -> float -> float := SFadd prec emax.
Definition sub : float -> float -> float := SFsub prec emax.
Definition mul : float -> float -> float := SFmul prec emax.
Definition div : float -> float -> float := SFdiv prec emax.
Definition eqb : float -> float -> bool := SFeqb.
Definition ltb : float -> float -> bool := SFltb.

(** Nearest double of an integer, ties to even; an infinity past the
    largest double. *)
Definition of_Z (z : Z) : float := binary_normalize prec emax z 0 false.

(** Nearest double of the quotient of two integers, for decimal literals:
    [0.08] is [decimal 8 100]. *)
Definition decimal (num den : Z) : float := div (of_Z num) (of_Z den).

(** [math.pi] is 0x400921FB54442D18; doubling it changes the exponent only. *)
Definition pi : float := S754_finite false 7074237752028440 (-51).
Definition two_pi : float := mul (of_Z 2) pi.

(** C's [fmod]: the exact remainder of the truncated division, with the
    sign of the dividend.  The remainder of two doubles is a double, so the
    normalisation rounds nothing off. *)
Definition fmod (x y : float) : float :=
  match x, y with
  | S754_nan, _ | _, S754_nan => S754_nan
  | S754_infinity _, _ => S754_nan
  | _, S754_zero _ => S754_nan
  | _, S754_infinity _ => x
  | S754_zero _, _ => x
  | S754_finite sx mx ex, S754_finite _ my ey =>
      let e := Z.min ex ey in
      let X := Zpos mx * 2 ^ (ex - e) in
      let Y := Zpos my * 2 ^ (ey - e) in
      binary_normalize prec emax (cond_Zopp sx (X mod Y)) e sx
  end.

Definition copysign_zero (w : float) : float :=
  match w with
  | S754_zero s | S754_infinity s | S754_finite s _ _ => S754_zero s
  | S754_nan => S754_zero false
  end.

(** [float.__mod__] (CPython's [float_rem]): the remainder takes the sign of
    the divisor; a NaN remainder is "non-zero" for C and passes through. *)
Definition float_rem (vx wx : float) : res float :=
  if eqb wx zero then inl ZeroDivisionError
  else
    let md := fmod vx wx in
    if negb (eqb md zero) then
      if xorb (ltb wx zero) (ltb md zero) then inr (add md wx) else inr md
    else inr (copysign_zero wx).

(** [int(f)]: truncation towards zero; [ValueError] on a NaN and
    [OverflowError] on an infinity. *)
Definition trunc (f : float) : res Z :=
  match f with
  | S754_nan => inl ValueError
  | S754_infinity _ => inl OverflowError
  | S754_zero _ => inr 0
  | S754_finite s m e => inr (cond_Zopp s (Z.shiftl (Zpos m) e))
  end.

(** Conversion of a Python int ([PyLong_AsDouble]): [OverflowError] when
    the int is beyond the doubles. *)
Definition of_int (z : Z) : res float :=
  match of_Z z with
  | S754_infinity _ | S754_nan => inl OverflowError
  | f => inr f
  end.

End Float64.


(** ** Python values and the objects of the decoder *)

(** A coordinate or an angle of a decoded object: an int, a float or
    [None]. *)
Inductive pyval := PNone | PInt (z : Z) | PFloat (f : Float64.float).

(** Outcome of reading one attribute of an external object: the object has
    no such attribute ([AttributeError], which [hasattr] and the
    three-argument [getattr] absorb), it has one, or reading it raises. *)
Inductive attr (A : Type) := Missing | Has (a : A) | Raises (e : exn).
Arguments Missing {A}.
Arguments Has {A} a.
Arguments Raises {A} e.

(** The attributes [_handle_obj] probes.  Identifiers hold an int or [None];
    coordinates and the angle hold a [pyval]. *)
Module TuioObject.
Record t := mk {
  fiducial_id : attr (option Z);
  symbol_id : attr (option Z);
  class_id : attr (option Z);
  pattern_id : attr (option Z);
  session_id : attr (option Z);
  x : attr pyval;
  xpos : attr pyval;
  x_pos : attr pyval;
  y : attr pyval;
  ypos : attr pyval;
  y_pos : attr pyval;
  angle : attr pyval
}.
End TuioObject.

(** [hasattr(obj, name)]: only [AttributeError] is absorbed. *)
Definition hasattr {A} (a : attr A) : res bool :=
  match a with
  | Missing => inr false
  | Has _ => inr true
  | Raises e => inl e
  end.

(** [getattr(obj, name, default)]. *)
Definition getattr_default {A} (a : attr A) (default : A) : res A :=
  match a with
  | Missing => inr default
  | Has v => inr v
  | Raises e => inl e
  end.

(** [getattr(obj, name)] after a successful [hasattr]. *)
Definition getattr {A} (a : attr A) : res A :=
  match a with
  | Missing => inl AttributeError
  | Has v => inr v
  | Raises e => inl e
  end.

(** [SimulatedTuioObject(symbol_id, session_id, x, y, angle)]. *)
Definition SimulatedTuioObject (symbol_id session_id : Z) (x y angle : pyval)
  : TuioObject.t :=
  {| TuioObject.fiducial_id := Has (Some symbol_id);
     TuioObject.symbol_id := Has (Some symbol_id);
     TuioObject.class_id := Has (Some symbol_id);
     TuioObject.pattern_id := Has (Some symbol_id);
     TuioObject.session_id := Has (Some session_id);
     TuioObject.x := Has x;
     TuioObject.xpos := Missing;
     TuioObject.x_pos := Has x;
     TuioObject.y := Has y;
     TuioObject.ypos := Missing;
     TuioObject.y_pos := Has y;
     TuioObject.angle := Has angle |}.

(** ** Arithmetic on Python numbers *)

Definition to_float (v : pyval) : res Float64.float :=
  match v with
  | PNone => inl TypeError
  | PInt z => Float64.of_int z
  | PFloat f => inr f
  end.

(** [v % w] for a float [w]. *)
Definition py_mod_float (v : pyval) (w : Float64.float) : res Float64.float :=
  res_bind (to_float v) (fun vx => Float64.float_rem vx w).

(** [a - b]: exact on two ints, in doubles otherwise. *)
Definition py_sub (a b : pyval) : res pyval :=
  match a, b with
  | PNone, _ | _, PNone => inl TypeError
  | PInt za, PInt zb => inr (PInt (za - zb))
  | _, _ =>
      res_bind (to_float a) (fun fa =>
      res_bind (to_float b) (fun fb => inr (PFloat (Float64.sub fa fb))))
  end.

(** The format specification [:.3f]: the value is converted to a double. *)
Definition format_3f (v : pyval) : res Float64.float := to_float v.

(** [l[i]] on a list, with Python's negative indices. *)
Definition py_index {A} (l : list A) (i : Z) : res A :=
  let n := Z.of_nat (length l) in
  let j := if i <? 0 then i + n else i in
  if (0 <=? j) && (j <? n) then
    match l !! Z.to_nat j with Some a => inr a | None => inl IndexError end
  else inl IndexError.

(** ** Configuration *)

Definition ROTATE_SYMBOL : Z := 0.
Definition SELECT_SYMBOL : Z := 1.
Definition BACK_SYMBOL : Z := 12.

Definition MEDICATION_SYMBOLS : list (Z * string) :=
  [ (2, "Paracetamol"); (3, "Amoxicillin"); (4, "Aspirin"); (5, "Metformin");
    (6, "Lisinopril"); (7, "Atorvastatin"); (8, "Omeprazole");
    (9, "Salbutamol"); (10, "Ibuprofen"); (11, "Vitamin D") ]%string.

Definition NUM_WHEEL_SECTORS : Z := Z.of_nat (length MEDICATION_SYMBOLS).
Definition PROXIMITY_THRESHOLD : Float64.float := Float64.decimal 8 100.

(** [MEDICATION_SYMBOLS[sid]], and [sid in MEDICATION_SYMBOLS] when it is
    [Some]. *)
Fixpoint dict_lookup {K V} `{EqDecision K} (k : K) (d : list (K * V)) : option V :=
  match d with
  | [] => None
  | (k', v) :: d' => if decide (k = k') then Some v else dict_lookup k d'
  end.

(** [list(d.values())]. *)
Definition dict_values {K V} (d : list (K * V)) : list V := map snd d.

(** [d[k] = v]: an existing key keeps its place, a new one goes last. *)
Fixpoint dict_set {K V} `{EqDecision K} (k : K) (v : V) (d : list (K * V))
  : list (K * V) :=
  match d with
  | [] => [(k, v)]
  | (k', v') :: d' =>
      if decide (k = k') then (k, v) :: d' else (k', v') :: dict_set k v d'
  end.

(** [d.pop(k, None)]: afterwards [k] is not a key of [d]. *)
Fixpoint dict_pop {K V} `{EqDecision K} (k : K) (d : list (K * V))
  : list (K * V) :=
  match d with
  | [] => []
  | (k', v') :: d' =>
      if decide (k = k') then dict_pop k d' else (k', v') :: dict_pop k d'
  end.

(** ** Wheel sector (lines 180-182 of [process_logic_and_broadcast])

    [theta = angle % (2 * math.pi)], [frac = theta / (2 * math.pi)],
    [sector = int(frac * n) % n], for a wheel of [n] sectors.  The result is
    the pair of [theta] and [sector]. *)
Definition wheel_sector (n : Z) (angle : pyval) : res (Float64.float * Z) :=
  res_bind (py_mod_float angle Float64.two_pi) (fun theta =>
  let frac := Float64.div theta Float64.two_pi in
  res_bind (Float64.of_int n) (fun nf =>
  res_bind (Float64.trunc (Float64.mul frac nf)) (fun k =>
  if n =? 0 then inl ZeroDivisionError else inr (theta, k mod n)))).

(** ** Records, messages and the program state *)

Inductive event_type := Add | Update | Remove.

Definition event_name (evt : event_type) : string :=
  match evt with
  | Add => "add" | Update => "update" | Remove => "remove"
  end%string.

(** The dict [record] built by [_handle_obj]. *)
Record record := mkRecord {
  r_event : event_type;
  r_symbol_id : Z;
  r_session_id : option Z;
  r_x : pyval;
  r_y : pyval;
  r_angle : pyval
}.

(** A JSON value, as [json.dumps] receives it. *)
#[warnings="-register-all"]
Inductive json :=
| JNull
| JInt (z : Z)
| JFloat (f : Float64.float)
| JStr (s : string)
| JObj (fields : list (string * json)).

Definition json_of_pyval (v : pyval) : json :=
  match v with
  | PNone => JNull
  | PInt z => JInt z
  | PFloat f => JFloat f
  end.

Definition json_of_id (i : option Z) : json :=
  match i with None => JNull | Some z => JInt z end.

Definition json_of_record (r : record) : json :=
  JObj [ ("event", JStr (event_name (r_event r)));
         ("symbol_id", JInt (r_symbol_id r));
         ("session_id", json_of_id (r_session_id r));
         ("x", json_of_pyval (r_x r));
         ("y", json_of_pyval (r_y r));
         ("angle", json_of_pyval (r_angle r)) ]%string.

(** The value under ["type"] of a broadcast message. *)
Definition msg_type (m : json) : option string :=
  match m with
  | JObj fields =>
      match dict_lookup "type"%string fields with
      | Some (JStr s) => Some s
      | _ => None
      end
  | _ => None
  end.

(** A client socket: whether [sendall] goes through, whether [close] was
    called on it, and the lines the peer was sent, oldest first.  One line is
    the JSON text of one message and a newline; it is kept as the message. *)
Record socket := mkSocket {
  sock_healthy : bool;
  sock_closed : bool;
  sock_sent : list json
}.

(** Socket objects are told apart by identity. *)
Definition conn := nat.

(** What the logger is handed, by call site. *)
Inductive log_msg :=
| Warn_no_marker_id
| Info_tuio (evt : event_type) (symbol_id : Z) (session_id : option Z)
            (x y angle : Float64.float)
| Info_direct (name : string) (sid : Z)
| Info_wheel_open
| Info_rotate (theta : Float64.float) (sector : Z) (name : string)
| Info_confirm (name : string) (sector : Z)
| Info_back
| Info_client_disconnected (c : conn)
| Error_handling (e : exn).

(** The globals [clients] and [latest_objects], the sockets the program
    holds, and the log. *)
Record world := mkWorld {
  clients : list conn;
  sockets : gmap conn socket;
  latest_objects : list (option Z * record);
  log : list log_msg
}.

Definition set_clients (cs : list conn) (w : world) : world :=
  mkWorld cs (sockets w) (latest_objects w) (log w).
Definition set_sockets (ss : gmap conn socket) (w : world) : world :=
  mkWorld (clients w) ss (latest_objects w) (log w).
Definition set_latest_objects (d : list (option Z * record)) (w : world) : world :=
  mkWorld (clients w) (sockets w) d (log w).
Definition add_log (m : log_msg) (w : world) : world :=
  mkWorld (clients w) (sockets w) (latest_objects w) (log w ++ [m]).

(** ** Statements: state and exceptions *)

Inductive outcome (A : Type) :=
| Ok (a : A) (w : world)
| Raise (e : exn) (w : world).
Arguments Ok {A} a w.
Arguments Raise {A} e w.

Definition M (A : Type) : Type := world -> outcome A.

Definition ret {A} (a : A) : M A := fun w => Ok a w.
Definition raise {A} (e : exn) : M A := fun w => Raise e w.
Definition bind {A B} (c : M A) (k : A -> M B) : M B :=
  fun w => match c w with
           | Ok a w' => k a w'
           | Raise e w' => Raise e w'
           end.
Definition lift {A} (r : res A) : M A :=
  match r with inl e => raise e | inr a => ret a end.
Definition get_world : M world := fun w => Ok w w.
Definition modify (f : world -> world) : M unit := fun w => Ok tt (f w).

(** [try: c  except Exception as e: h e]. *)
Definition try_except {A} (c : M A) (h : exn -> M A) : M A :=
  fun w => match c w with
           | Ok a w' => Ok a w'
           | Raise e w' => h e w'
           end.

Notation "x <- c ;; k" := (bind c (fun x => k))
  (at level 100, c at next level, right associativity).
Notation "c ;;; k" := (bind c (fun _ => k))
  (at level 100, right associativity).

Definition when (b : bool) (c : M unit) : M unit := if b then c else ret tt.

(** The state a statement ends in, however it ends. *)
Definition final {A} (o : outcome A) : world :=
  match o with Ok _ w => w | Raise _ w => w end.

Definition logger (m : log_msg) : M unit := modify (add_log m).

(** ** The Broadcast Hub *)

(** [client_socket.sendall(data)]. *)
Definition sendall (c : conn) (data : json) : M unit :=
  fun w =>
    match sockets w !! c with
    | Some s =>
        if sock_healthy s && negb (sock_closed s) then
          Ok tt (set_sockets
                   (<[c := mkSocket (sock_healthy s) (sock_closed s)
                                    (sock_sent s ++ [data])]> (sockets w)) w)
        else Raise OSError w
    | None => Raise OSError w
    end.

(** [conn.close()] inside [try: ... except: pass]. *)
Definition close (c : conn) : M unit :=
  fun w =>
    match sockets w !! c with
    | Some s =>
        Ok tt (set_sockets
                 (<[c := mkSocket (sock_healthy s) true (sock_sent s)]> (sockets w)) w)
    | None => Ok tt w
    end.

(** [l.remove(x)]: the first occurrence goes; [ValueError] without one. *)
Fixpoint list_remove (x : conn) (l : list conn) : option (list conn) :=
  match l with
  | [] => None
  | y :: l' =>
      if decide (x = y) then Some l'
      else match list_remove x l' with
           | Some r => Some (y :: r)
           | None => None
           end
  end.

Definition clients_remove (c : conn) : M unit :=
  fun w =>
    match list_remove c (clients w) with
    | Some cs => Ok tt (set_clients cs w)
    | None => Raise ValueError w
    end.

(** First loop of [broadcast]: every client is tried, the ones whose
    [sendall] raises are collected. *)
Fixpoint send_all (data : json) (cs : list conn) (dead : list conn)
  : M (list conn) :=
  match cs with
  | [] => ret dead
  | client_socket :: cs' =>
      dead' <- try_except (sendall client_socket data ;;; ret dead)
                          (fun _ => ret (dead ++ [client_socket])) ;;
      send_all data cs' dead'
  end.

(** Second loop of [broadcast]. *)
Fixpoint remove_dead (dead : list conn) : M unit :=
  match dead with
  | [] => ret tt
  | dead_client :: dead' => clients_remove dead_client ;;; remove_dead dead'
  end.

Definition broadcast (obj : json) : M unit :=
  let data := obj in
  w <- get_world ;;
  dead <- send_all data (clients w) [] ;;
  remove_dead dead.

(** [tcp_acceptor], lines 337-338: the accepted connection joins [clients]. *)
Definition tcp_acceptor_register (c : conn) : M unit :=
  modify (fun w => set_clients (clients w ++ [c]) w).

(** [client_reader_thread], the [finally] block. *)
Definition client_reader_thread_finally (c : conn) : M unit :=
  w <- get_world ;;
  when (bool_decide (c ∈ clients w)) (clients_remove c) ;;;
  close c ;;;
  logger (Info_client_disconnected c).

(** ** The Selection Engine and the Ingestion Adapter *)

Definition is_add (evt : event_type) : bool :=
  match evt with Add => true | _ => false end.

Definition is_add_or_update (evt : event_type) : bool :=
  match evt with Add | Update => true | Remove => false end.

Definition msg_tuio_obj (r : record) : json :=
  JObj [("type", JStr "tuio_obj"); ("payload", json_of_record r)]%string.

Definition msg_medication_selected (med_name : string) (sid : Z) : json :=
  JObj [("type", JStr "medication_selected"); ("medication", JStr med_name);
        ("symbol_id", JInt sid)]%string.

Definition msg_wheel_open (r : record) : json :=
  JObj [("type", JStr "wheel_open"); ("x", json_of_pyval (r_x r));
        ("y", json_of_pyval (r_y r))]%string.

Definition msg_wheel_hover (sector : Z) (theta : Float64.float) (r : record)
    (medication_name : string) : json :=
  JObj [("type", JStr "wheel_hover"); ("sector", JInt sector);
        ("angle", JFloat theta); ("x", json_of_pyval (r_x r));
        ("y", json_of_pyval (r_y r)); ("medication", JStr medication_name)]%string.

Definition msg_wheel_select_confirm (sector : Z) (selected_med : string) : json :=
  JObj [("type", JStr "wheel_select_confirm"); ("sector", JInt sector);
        ("medication", JStr selected_med)]%string.

Definition msg_back_pressed : json := JObj [("type", JStr "back_pressed")]%string.

(** The default of a missing coordinate, [0.5]. *)
Definition half : pyval := PFloat (Float64.decimal 5 10).

Section Logic.

(** [math.hypot] on two doubles: a function of the C library, taken as it
    comes. *)
Variable hypot : Float64.float -> Float64.float -> res Float64.float.

(** [math.hypot(dx, dy)] on Python numbers. *)
Definition math_hypot (dx dy : pyval) : res Float64.float :=
  res_bind (to_float dx) (fun fx =>
  res_bind (to_float dy) (fun fy => hypot fx fy)).

(** The loop over [list(latest_objects.items())], lines 200-212. *)
Fixpoint proximity_scan (items : list (option Z * record)) (rec : record)
    (sector : Z) : M unit :=
  match items with
  | [] => ret tt
  | (session_id, srec) :: items' =>
      when (r_symbol_id srec =? SELECT_SYMBOL)
        (dx <- lift (py_sub (r_x srec) (r_x rec)) ;;
         dy <- lift (py_sub (r_y srec) (r_y rec)) ;;
         dist <- lift (math_hypot dx dy) ;;
         when (Float64.ltb dist PROXIMITY_THRESHOLD)
           (selected_med <- lift (py_index (dict_values MEDICATION_SYMBOLS) sector) ;;
            logger (Info_confirm selected_med sector) ;;;
            broadcast (msg_wheel_select_confirm sector selected_med))) ;;;
      proximity_scan items' rec sector
  end.

Definition process_logic_and_broadcast (rec : record) : M unit :=
  let sid := r_symbol_id rec in
  let evt := r_event rec in
  broadcast (msg_tuio_obj rec) ;;;
  when (bool_decide (is_Some (dict_lookup sid MEDICATION_SYMBOLS)) && is_add evt)
    (med_name <- lift (match dict_lookup sid MEDICATION_SYMBOLS with
                       | Some name => inr name
                       | None => inl KeyError
                       end) ;;
     logger (Info_direct med_name sid) ;;;
     broadcast (msg_medication_selected med_name sid)) ;;;
  when ((sid =? ROTATE_SYMBOL) && is_add evt)
    (logger Info_wheel_open ;;;
     broadcast (msg_wheel_open rec)) ;;;
  when ((sid =? ROTATE_SYMBOL) && is_add_or_update evt)
    (ts <- lift (wheel_sector NUM_WHEEL_SECTORS (r_angle rec)) ;;
     let theta := fst ts in
     let sector := snd ts in
     medication_name <- lift (py_index (dict_values MEDICATION_SYMBOLS) sector) ;;
     logger (Info_rotate theta sector medication_name) ;;;
     broadcast (msg_wheel_hover sector theta rec medication_name) ;;;
     w <- get_world ;;
     proximity_scan (latest_objects w) rec sector) ;;;
  when ((sid =? BACK_SYMBOL) && is_add evt)
    (logger Info_back ;;;
     broadcast msg_back_pressed).

Definition possible_id_attrs (obj : TuioObject.t) : list (attr (option Z)) :=
  [ TuioObject.fiducial_id obj; TuioObject.symbol_id obj;
    TuioObject.class_id obj; TuioObject.pattern_id obj ].

(** The [for attr in possible_id_attrs] loop: the first attribute the
    object has gives the id, whatever its value. *)
Fixpoint probe_ids (attrs : list (attr (option Z))) : res (option Z) :=
  match attrs with
  | [] => inr None
  | a :: attrs' =>
      res_bind (hasattr a) (fun found =>
      if found then getattr a else probe_ids attrs')
  end.

(** The nested [getattr(obj, a, getattr(obj, b, getattr(obj, c, d)))]:
    Python evaluates the innermost call first. *)
Definition getattr3 (a b c : attr pyval) (d : pyval) : res pyval :=
  res_bind (getattr_default c d) (fun dc =>
  res_bind (getattr_default b dc) (fun db =>
  getattr_default a db)).

(** Lines 108-136 of [_handle_obj]: the record of an object, [None] when no
    marker id is found and the callback returns early. *)
Definition build_record (event_type : event_type) (obj : TuioObject.t)
  : res (option record) :=
  res_bind (probe_ids (possible_id_attrs obj)) (fun symbol_id =>
  match symbol_id with
  | None => inr None
  | Some symbol_id =>
      res_bind (getattr_default (TuioObject.session_id obj) None) (fun session_id =>
      res_bind (getattr3 (TuioObject.x obj) (TuioObject.xpos obj)
                         (TuioObject.x_pos obj) half) (fun x =>
      res_bind (getattr3 (TuioObject.y obj) (TuioObject.ypos obj)
                         (TuioObject.y_pos obj) half) (fun y =>
      res_bind (getattr_default (TuioObject.angle obj) (PInt 0)) (fun angle =>
      inr (Some (mkRecord event_type symbol_id session_id x y angle))))))
  end).

(** The cache update, lines 142-146. *)
Definition update_cache (rec : record) (w : world) : world :=
  if is_add_or_update (r_event rec)
  then set_latest_objects (dict_set (r_session_id rec) rec (latest_objects w)) w
  else set_latest_objects (dict_pop (r_session_id rec) (latest_objects w)) w.

(** The body of the [try] of [_handle_obj]. *)
Definition _handle_obj_body (event_type : event_type) (obj : TuioObject.t)
  : M unit :=
  built <- lift (build_record event_type obj) ;;
  match built with
  | None => logger Warn_no_marker_id
  | Some rec =>
      fx <- lift (format_3f (r_x rec)) ;;
      fy <- lift (format_3f (r_y rec)) ;;
      fangle <- lift (format_3f (r_angle rec)) ;;
      logger (Info_tuio (r_event rec) (r_symbol_id rec) (r_session_id rec)
                        fx fy fangle) ;;;
      modify (update_cache rec) ;;;
      process_logic_and_broadcast rec
  end.

(** [_handle_obj] for exceptions that derive from [Exception] and have a
    text, which the handler catches and logs; [AnyException._handle_obj]
    below is the callback for exceptions of any class. *)
Definition _handle_obj (event_type : event_type) (obj : TuioObject.t) : M unit :=
  try_except (_handle_obj_body event_type obj)
             (fun e => logger (Error_handling e)).

Definition add_tuio_object (obj : TuioObject.t) : M unit := _handle_obj Add obj.
Definition update_tuio_object (obj : TuioObject.t) : M unit := _handle_obj Update obj.
Definition remove_tuio_object (obj : TuioObject.t) : M unit := _handle_obj Remove obj.

End Logic.

(** ** Exceptions of any class

    The operations of the program raise exceptions that derive from
    [Exception] and have a text.  A property of an external object can
    raise an exception of any class when it is read: [UserError tag] is an
    exception of the class numbered [tag], and the class tells what
    [except Exception] and [f"{e}"] do with it.  [_handle_obj] above is the
    callback for classes that are all [Printable]. *)
Inductive exn_class :=
| Printable
| StrRaises (inner : exn)
| NotException.

Module AnyException.

Section Classes.

(** The class of each [UserError]: [Printable] derives from [Exception] and
    [str] of its instances returns; [StrRaises inner] derives from
    [Exception] and [str] of its instances raises [inner]; [NotException]
    derives from [BaseException] only, as [KeyboardInterrupt], [SystemExit]
    and [GeneratorExit] do. *)
Variable class_of_tag : nat -> exn_class.

Variable hypot : Float64.float -> Float64.float -> res Float64.float.

Definition class_of (e : exn) : exn_class :=
  match e with
  | UserError tag => class_of_tag tag
  | _ => Printable
  end.

(** [isinstance(e, Exception)]. *)
Definition is_Exception (e : exn) : bool :=
  match class_of e with
  | NotException => false
  | _ => true
  end.

(** [str(e)], as [f"{e}"] calls it; the text is not kept. *)
Definition str (e : exn) : res unit :=
  match class_of e with
  | StrRaises inner => inl inner
  | _ => inr tt
  end.

(** [try: c  except Exception as e: h e]: an exception that is not an
    [Exception] passes through. *)
Definition try_except_Exception {A} (c : M A) (h : exn -> M A) : M A :=
  fun w => match c w with
           | Ok a w' => Ok a w'
           | Raise e w' => if is_Exception e then h e w' else Raise e w'
           end.

(** [_handle_obj]: the handler formats the exception before it logs it, and
    what the formatting raises leaves the callback. *)
Definition _handle_obj (event_type : event_type) (obj : TuioObject.t) : M unit :=
  try_except_Exception (_handle_obj_body hypot event_type obj)
    (fun e => lift (str e) ;;; logger (Error_handling e)).

Definition add_tuio_object (obj : TuioObject.t) : M unit := _handle_obj Add obj.
Definition update_tuio_object (obj : TuioObject.t) : M unit := _handle_obj Update obj.
Definition remove_tuio_object (obj : TuioObject.t) : M unit := _handle_obj Remove obj.

End Classes.

End AnyException.

(** ** What [broadcast] does to the sockets, as a function *)

(** [sendall] goes through on [c]. *)
Definition can_send (ss : gmap conn socket) (c : conn) : bool :=
  match ss !! c with
  | Some s => sock_healthy s && negb (sock_closed s)
  | None => false
  end.

(** The socket after one more line. *)
Definition pushed (data : json) (s : socket) : socket :=
  mkSocket (sock_healthy s) (sock_closed s) (sock_sent s ++ [data]).

Definition deliver1 (data : json) (ss : gmap conn socket) (c : conn)
  : gmap conn socket :=
  match ss !! c with
  | Some s => if can_send ss c then <[c := pushed data s]> ss else ss
  | None => ss
  end.

Fixpoint deliver (data : json) (cs : list conn) (ss : gmap conn socket)
  : gmap conn socket :=
  match cs with
  | [] => ss
  | c :: cs' => deliver data cs' (deliver1 data ss c)
  end.

(** ** States and objects of the examples *)

(** A reading of [math.hypot] for the examples: the rounded square root of
    the rounded sum of the rounded squares. *)
Definition sqrt_sum_squares (dx dy : Float64.float) : res Float64.float :=
  inr (SFsqrt Float64.prec Float64.emax
         (Float64.add (Float64.mul dx dx) (Float64.mul dy dy))).

Definition fresh_socket : socket := mkSocket true false [].
Definition broken_socket : socket := mkSocket false false [].

(** Three clients, the second of which cannot be sent to. *)
Definition hub3 : world :=
  mkWorld [0%nat; 1%nat; 2%nat]
          (<[0%nat := fresh_socket]> (<[1%nat := broken_socket]>
             (<[2%nat := fresh_socket]> ∅)))
          [] [].

(** One client and an empty registry. *)
Definition world1 : world :=
  mkWorld [0%nat] (<[0%nat := fresh_socket]> ∅) [] [].

(** The objects of [SimulationManager._run_simulation]. *)
Definition sim_rotate (angle : pyval) : TuioObject.t :=
  SimulatedTuioObject ROTATE_SYMBOL 1000 half half angle.
Definition sim_select : TuioObject.t :=
  SimulatedTuioObject SELECT_SYMBOL 1001
    (PFloat (Float64.decimal 52 100)) (PFloat (Float64.decimal 52 100)) (PInt 0).

Definition rec_rotate (evt : event_type) (angle : pyval) : record :=
  mkRecord evt ROTATE_SYMBOL (Some 1000) half half angle.
Definition rec_select (evt : event_type) : record :=
  mkRecord evt SELECT_SYMBOL (Some 1001)
    (PFloat (Float64.decimal 52 100)) (PFloat (Float64.decimal 52 100)) (PInt 0).

(** One client, and the rotate token of the simulation in the registry, at
    angle 3.14. *)
Definition world_rotating : world :=
  mkWorld [0%nat] (<[0%nat := fresh_socket]> ∅)
          [(Some 1000, rec_rotate Update (PFloat (Float64.decimal 314 100)))] [].

(** An object without any of the identifier attributes. *)
Definition anonymous_object : TuioObject.t :=
  TuioObject.mk Missing Missing Missing Missing (Has (Some 7))
                (Has half) Missing Missing (Has half) Missing Missing (Has (PInt 0)).

(** An object with a marker id and nothing else. *)
Definition bare_object (symbol_id : Z) : TuioObject.t :=
  TuioObject.mk Missing (Has (Some symbol_id)) Missing Missing Missing
                Missing Missing Missing Missing Missing Missing Missing.

(** [x], [y] and [angle] of a record pass the format [:.3f]. *)
Definition loggable (rec : record) : bool :=
  match format_3f (r_x rec), format_3f (r_y rec), format_3f (r_angle rec) with
  | inr _, inr _, inr _ => true
  | _, _, _ => false
  end.

(** A statement that leaves [latest_objects] as it finds it, whether it
    returns or raises. *)
Definition keeps_registry {A} (c : M A) : Prop :=
  forall w, latest_objects (final (c w)) = latest_objects w.

(** [f] is a zero, or finite and below [2 ^ k] in magnitude. *)
Definition mag_le (k : Z) (f : Float64.float) : Prop :=
  match f with
  | S754_zero _ => True
  | S754_finite _ m e => Zpos (digits2_pos m) + e <= k
  | _ => False
  end.

(** ** Vocabulary of the further properties *)

(** The messages of a list published one after the other. *)
Fixpoint broadcast_all (objs : list json) : M unit :=
  match objs with
  | [] => ret tt
  | obj :: objs' => broadcast obj ;;; broadcast_all objs'
  end.

(** A statement run [n] times. *)
Fixpoint repeatM (n : nat) (c : M unit) : M unit :=
  match n with
  | O => ret tt
  | S n' => c ;;; repeatM n' c
  end.

(** The proximity test of lines 202-205 on one entry of the registry:
    [math.hypot(srec.x - rec.x, srec.y - rec.y) < PROXIMITY_THRESHOLD]. *)
Definition near (hypot : Float64.float -> Float64.float -> res Float64.float)
    (rec srec : record) : res bool :=
  res_bind (py_sub (r_x srec) (r_x rec)) (fun dx =>
  res_bind (py_sub (r_y srec) (r_y rec)) (fun dy =>
  res_bind (math_hypot hypot dx dy) (fun dist =>
  inr (Float64.ltb dist PROXIMITY_THRESHOLD)))).

(** An entry of the registry is a select token within the threshold of
    [rec]. *)
Definition is_near_select
    (hypot : Float64.float -> Float64.float -> res Float64.float)
    (rec : record) (e : option Z * record) : bool :=
  (r_symbol_id e.2 =? SELECT_SYMBOL) &&
  match near hypot rec e.2 with inr true => true | _ => false end.

(** The select tokens of the registry within the threshold of [rec]. *)
Definition near_selects
    (hypot : Float64.float -> Float64.float -> res Float64.float)
    (rec : record) (items : list (option Z * record)) : list (option Z * record) :=
  filter (fun e => is_near_select hypot rec e = true) items.

(** Lines 207-212: the log line and the message of one confirmation. *)
Definition confirm (sector : Z) (selected_med : string) : M unit :=
  logger (Info_confirm selected_med sector) ;;;
  broadcast (msg_wheel_select_confirm sector selected_med).

(** The registry as [_handle_obj] keeps it: one entry per session id, filed
    under the session id of its record, which comes from an [add] or an
    [update] and holds numbers. *)
Definition registry_wf (d : list (option Z * record)) : Prop :=
  NoDup (map fst d) /\
  Forall (fun e => r_session_id e.2 = e.1 /\
                   is_add_or_update (r_event e.2) = true /\
                   loggable e.2 = true) d.

(** A socket that was only sent more lines. *)
Definition socket_grows (s s' : socket) : Prop :=
  sock_healthy s' = sock_healthy s /\
  sock_closed s' = sock_closed s /\
  sock_sent s `prefix_of` sock_sent s'.

(** From [w] to [w'] no client joined, no socket appeared, vanished, was
    closed or had a line taken back. *)
Definition hub_grows (w w' : world) : Prop :=
  clients w' `sublist_of` clients w /\
  forall c,
    match sockets w !! c with
    | Some s => exists s', sockets w' !! c = Some s' /\ socket_grows s s'
    | None => sockets w' !! c = None
    end.

(** A statement under which the hub only grows, whether it returns or
    raises. *)
Definition only_grows {A} (c : M A) : Prop :=
  forall w, hub_grows w (final (c w)).

(** ** The threads: readers, acceptor, shutdown and simulation

    The functions below run in threads of their own.  Each is modelled as the
    sequence of its own steps; what it waits for from outside ([recv],
    [accept], the flag [running] that [shutdown] clears) is given as a list
    of outcomes, and [time.sleep] is a step without effect.  Their log lines
    are kept apart from those of the ingestion path. *)

Inductive thread_msg :=
| Info_client_connected (c : conn)
| Error_client_thread (e : exn)
| Info_tcp_starting
| Info_shutting_down
| Info_sim_starting
| Info_sim_rotate_appears
| Info_sim_rotate_at (angle : pyval) (i : nat)
| Info_sim_select_appears
| Info_sim_markers_disappear
| Info_sim_direct
| Info_sim_complete.

(** The program state with the flag [running], the listening socket of
    [tcp_acceptor] and the log lines of the threads. *)
Record process := mkProcess {
  p_world : world;
  running : bool;
  p_listening : bool;
  p_lines : list thread_msg
}.

Definition set_world (w : world) (p : process) : process :=
  mkProcess w (running p) (p_listening p) (p_lines p).
Definition set_running (b : bool) (p : process) : process :=
  mkProcess (p_world p) b (p_listening p) (p_lines p).
Definition set_listening (b : bool) (p : process) : process :=
  mkProcess (p_world p) (running p) b (p_lines p).
Definition add_line (m : thread_msg) (p : process) : process :=
  mkProcess (p_world p) (running p) (p_listening p) (p_lines p ++ [m]).

Inductive result (A : Type) :=
| Done (a : A) (p : process)
| Failed (e : exn) (p : process).
Arguments Done {A} a p.
Arguments Failed {A} e p.

Definition T (A : Type) : Type := process -> result A.

Definition tret {A} (a : A) : T A := fun p => Done a p.
Definition tbind {A B} (c : T A) (k : A -> T B) : T B :=
  fun p => match c p with
           | Done a p' => k a p'
           | Failed e p' => Failed e p'
           end.

(** A statement on the globals of the ingestion path, run inside a thread. *)
Definition in_world {A} (c : M A) : T A :=
  fun p => match c (p_world p) with
           | Ok a w => Done a (set_world w p)
           | Raise e w => Failed e (set_world w p)
           end.

Definition say (m : thread_msg) : T unit := fun p => Done tt (add_line m p).

Notation "c >>> k" := (tbind c (fun _ => k))
  (at level 100, right associativity).

(** The state a thread ends in, however it ends. *)
Definition tfinal {A} (r : result A) : process :=
  match r with Done _ p => p | Failed _ p => p end.

(** [conn.settimeout(0.5)]: a closed socket raises. *)
Definition settimeout (c : conn) : M unit :=
  fun w =>
    match sockets w !! c with
    | Some s => if sock_closed s then Raise OSError w else Ok tt w
    | None => Raise OSError w
    end.

(** What one [conn.recv(1024)] gives: bytes, the empty bytes of a closed
    peer, a timeout, or another exception. *)
Inductive recv_outcome := Recv_data | Recv_eof | Recv_timeout | Recv_error.

(** The [while running] loop of [client_reader_thread], lines 296-304, over
    the outcomes of its [recv] calls.  The list ends where another thread
    has cleared [running] in between.  The bytes received are dropped. *)
Fixpoint reader_loop (c : conn) (recvs : list recv_outcome) : T unit :=
  fun p =>
    if running p then
      match recvs with
      | [] => Done tt p
      | Recv_data :: recvs' => reader_loop c recvs' p
      | Recv_eof :: _ => Done tt p
      | Recv_timeout :: recvs' => reader_loop c recvs' p
      | Recv_error :: _ => Done tt p
      end
    else Done tt p.

(** [try: c  except Exception as e: h e] in a thread. *)
Definition ttry_except {A} (c : T A) (h : exn -> T A) : T A :=
  fun p => match c p with
           | Done a p' => Done a p'
           | Failed e p' => h e p'
           end.

(** [try: c  finally: f]. *)
Definition try_finally {A} (c : T A) (f : T unit) : T A :=
  fun p => match c p with
           | Done a p' => tbind f (fun _ => tret a) p'
           | Failed e p' => tbind f (fun _ p'' => Failed e p'') p'
           end.

(** [client_reader_thread(conn, addr)]. *)
Definition client_reader_thread (c : conn) (recvs : list recv_outcome) : T unit :=
  say (Info_client_connected c) >>>
  try_finally
    (ttry_except (in_world (settimeout c) >>> reader_loop c recvs)
                 (fun e => say (Error_client_thread e)))
    (in_world (client_reader_thread_finally c)).

(** What one [server_sock.accept()] gives: a timeout, an [OSError], or a
    connection with the socket object made for it. *)
Inductive accept_outcome :=
| Accept_timeout
| Accept_error
| Accepted (c : conn) (s : socket).

(** The [while running] loop of [tcp_acceptor], lines 329-341, over the
    outcomes of its [accept] calls.  The list ends where another thread has
    cleared [running] in between.  The reader thread started for a
    connection runs on its own. *)
Fixpoint acceptor_loop (accepts : list accept_outcome) : T unit :=
  fun p =>
    if running p then
      match accepts with
      | [] => Done tt p
      | Accept_timeout :: accepts' => acceptor_loop accepts' p
      | Accept_error :: _ => Done tt p
      | Accepted c s :: accepts' =>
          (in_world (modify (fun w => set_sockets (<[c := s]> (sockets w)) w)) >>>
           in_world (tcp_acceptor_register c) >>>
           acceptor_loop accepts') p
      end
    else Done tt p.

(** [tcp_acceptor(host, port)]; [bind_ok] tells whether [bind] and [listen]
    go through (they raise [OSError] on a port in use, outside the [try]). *)
Definition tcp_acceptor (bind_ok : bool) (accepts : list accept_outcome) : T unit :=
  say Info_tcp_starting >>>
  (if bind_ok then fun p => Done tt (set_listening true p)
   else fun p => Failed OSError p) >>>
  try_finally (acceptor_loop accepts)
              (fun p => Done tt (set_listening false p)).

(** The loop of [shutdown], lines 382-386: [close] on every client, any
    exception passed over. *)
Fixpoint close_all (cs : list conn) : M unit :=
  match cs with
  | [] => ret tt
  | client_socket :: cs' => close client_socket ;;; close_all cs'
  end.

(** How a call that ends in [sys.exit] ends: [SystemExit], which no
    [except Exception] catches, or an exception of its body. *)
Inductive ended :=
| SystemExit (code : Z) (p : process)
| Propagated (e : exn) (p : process).

(** [shutdown(signum, frame)]. *)
Definition shutdown (p : process) : ended :=
  match (say Info_shutting_down >>>
         (fun p => Done tt (set_running false p)) >>>
         in_world (w <- get_world ;;
                   close_all (clients w) ;;;
                   modify (set_clients []))) p with
  | Done _ p' => SystemExit 0 p'
  | Failed e p' => Propagated e p'
  end.

Section Simulation.

Variable hypot : Float64.float -> Float64.float -> res Float64.float.

(** The [for i, angle in enumerate(angles)] loop of [_run_simulation]. *)
Fixpoint simulate_angles (i : nat) (angles : list pyval) : T unit :=
  match angles with
  | [] => tret tt
  | angle :: angles' =>
      say (Info_sim_rotate_at angle i) >>>
      in_world (update_tuio_object hypot
                  (SimulatedTuioObject ROTATE_SYMBOL 1000 half half angle)) >>>
      simulate_angles (S i) angles'
  end.

Definition sim_angles : list pyval :=
  [ PInt 0; PFloat (Float64.decimal 78 100); PFloat (Float64.decimal 157 100);
    PFloat (Float64.decimal 235 100); PFloat (Float64.decimal 314 100);
    PFloat (Float64.decimal 392 100); PFloat (Float64.decimal 471 100);
    PFloat (Float64.decimal 549 100) ].

(** [SimulationManager._run_simulation]. *)
Definition _run_simulation : T unit :=
  let session_counter := 1000 in
  say Info_sim_starting >>>
  say Info_sim_rotate_appears >>>
  in_world (add_tuio_object hypot
              (SimulatedTuioObject ROTATE_SYMBOL session_counter half half (PInt 0))) >>>
  simulate_angles 0 sim_angles >>>
  say Info_sim_select_appears >>>
  let obj2 := SimulatedTuioObject SELECT_SYMBOL (session_counter + 1)
                (PFloat (Float64.decimal 52 100)) (PFloat (Float64.decimal 52 100))
                (PInt 0) in
  in_world (add_tuio_object hypot obj2) >>>
  say Info_sim_markers_disappear >>>
  in_world (remove_tuio_object hypot
              (SimulatedTuioObject ROTATE_SYMBOL session_counter half half
                 (PFloat (Float64.decimal 549 100)))) >>>
  in_world (remove_tuio_object hypot obj2) >>>
  say Info_sim_direct >>>
  let obj3 := SimulatedTuioObject 4 (session_counter + 2)
                (PFloat (Float64.decimal 3 10)) (PFloat (Float64.decimal 3 10))
                (PInt 0) in
  in_world (add_tuio_object hypot obj3) >>>
  in_world (remove_tuio_object hypot obj3) >>>
  say Info_sim_complete.

End Simulation.

(** ** Vocabulary of the exception properties *)

(** A statement that raises only exceptions with the property [P]. *)
Definition raises_only {A} (P : exn -> Prop) (c : M A) : Prop :=
  forall w e w', c w = Raise e w' -> P e.

(** An exception of the interpreter's own classes, as the operations of the
    program raise them. *)
Definition builtin (e : exn) : bool :=
  match e with
  | UserError _ => false
  | _ => true
  end.

(** Reading the attribute raises nothing, or an exception with the property
    [P]. *)
Definition attr_raises {A} (P : exn -> Prop) (a : attr A) : Prop :=
  match a with
  | Raises e => P e
  | _ => True
  end.

(** Every attribute of the object that [_handle_obj] reads raises nothing,
    or an exception with the property [P]. *)
Definition object_raises (P : exn -> Prop) (obj : TuioObject.t) : Prop :=
  attr_raises P (TuioObject.fiducial_id obj) /\
  attr_raises P (TuioObject.symbol_id obj) /\
  attr_raises P (TuioObject.class_id obj) /\
  attr_raises P (TuioObject.pattern_id obj) /\
  attr_raises P (TuioObject.session_id obj) /\
  attr_raises P (TuioObject.x obj) /\
  attr_raises P (TuioObject.xpos obj) /\
  attr_raises P (TuioObject.x_pos obj) /\
  attr_raises P (TuioObject.y obj) /\
  attr_raises P (TuioObject.ypos obj) /\
  attr_raises P (TuioObject.y_pos obj) /\
  attr_raises P (TuioObject.angle obj).

(** The exception derives from [Exception] and has a text. *)
Definition printable (class_of_tag : nat -> exn_class) (e : exn) : Prop :=
  AnyException.class_of class_of_tag e = Printable.

(** Classes for the examples: class 0 is [KeyboardInterrupt], class 1 an
    [Exception] whose [__str__] raises [TypeError], the others are
    printable. *)
Definition example_classes (tag : nat) : exn_class :=
  match tag with
  | 0%nat => NotException
  | 1%nat => StrRaises TypeError
  | _ => Printable
  end.

(** An object whose [fiducial_id] property raises [e]. *)
Definition raising_object (e : exn) : TuioObject.t :=
  TuioObject.mk (Raises e) Missing Missing Missing (Has (Some 7))
                (Has half) Missing Missing (Has half) Missing Missing (Has (PInt 0)).

(** ** Vocabulary of the thread properties *)

(** A socket after [close]. *)
Definition closed (s : socket) : socket :=
  mkSocket (sock_healthy s) true (sock_sent s).

(** The connections an acceptor takes from the outcomes of its [accept]
    calls: those before the first [OSError]. *)
Fixpoint accepted (accepts : list accept_outcome) : list (conn * socket) :=
  match accepts with
  | [] => []
  | Accept_timeout :: accepts' => accepted accepts'
  | Accept_error :: _ => []
  | Accepted c s :: accepts' => (c, s) :: accepted accepts'
  end.

(** The socket objects of a list of connections put into the heap. *)
Definition with_sockets (ss : gmap conn socket) (l : list (conn * socket))
  : gmap conn socket :=
  foldl (fun ss cs => <[cs.1 := cs.2]> ss) ss l.

(** A thread statement that returns, leaves [running] as it is, takes the
    registry from [d] to [R d], and under which the hub only grows. *)
Definition runs_with (R : list (option Z * record) -> list (option Z * record))
    (c : T unit) : Prop :=
  forall p, exists p',
    c p = Done tt p' /\
    running p' = running p /\
    latest_objects (p_world p') = R (latest_objects (p_world p)) /\
    hub_grows (p_world p) (p_world p').

(** * Properties *)

(** ** Dictionaries *)

Section Dict.
Context {K V : Type} `{EqDecision K}.
Implicit Types (k : K) (v : V) (d : list (K * V)).

Lemma dict_lookup_set_eq k v d : dict_lookup k (dict_set k v d) = Some v.
Proof.
  induction d as [|[k' v'] d IH]; simpl.
  - by rewrite decide_True.
  - destruct (decide (k = k')) as [->|Hne]; simpl.
    + by rewrite decide_True.
    + by rewrite decide_False.
Qed.

Lemma dict_lookup_set_ne k k' v d :
  k <> k' -> dict_lookup k' (dict_set k v d) = dict_lookup k' d.
Proof.
  intros Hne. induction d as [|[k0 v0] d IH]; simpl.
  - rewrite decide_False; [done | congruence].
  - destruct (decide (k = k0)) as [->|Hk]; simpl.
    + rewrite !decide_False; [done | congruence | congruence].
    + destruct (decide (k' = k0)); done.
Qed.

Lemma dict_lookup_pop_eq k d : dict_lookup k (dict_pop k d) = None.
Proof.
  induction d as [|[k' v'] d IH]; simpl; [done|].
  destruct (decide (k = k')) as [->|Hne]; simpl; [done|].
  by rewrite decide_False.
Qed.

Lemma dict_pop_absent k d : dict_lookup k d = None -> dict_pop k d = d.
Proof.
  induction d as [|[k' v'] d IH]; simpl; [done|].
  destruct (decide (k = k')); [done|]. intros Hd. by rewrite IH.
Qed.

Lemma dict_set_length_present k v d :
  is_Some (dict_lookup k d) -> length (dict_set k v d) = length d.
Proof.
  induction d as [|[k' v'] d IH]; simpl.
  - by intros [? ?].
  - destruct (decide (k = k')); simpl; [done|]. intros Hd. by rewrite IH.
Qed.

Lemma dict_set_set k v v' d : dict_set k v' (dict_set k v d) = dict_set k v' d.
Proof.
  induction d as [|[k0 v0] d IH]; simpl.
  - by rewrite decide_True.
  - destruct (decide (k = k0)) as [->|Hne]; simpl.
    + by rewrite decide_True.
    + rewrite decide_False; [by rewrite IH | done].
Qed.
End Dict.

(** ** The Broadcast Hub *)

Module Hub.

Lemma sendall_spec c data w :
  sendall c data w =
    if can_send (sockets w) c
    then Ok tt (set_sockets (deliver1 data (sockets w) c) w)
    else Raise OSError w.
Proof.
  unfold sendall, deliver1, can_send.
  destruct (sockets w !! c) as [s|]; [|done].
  by destruct (sock_healthy s && negb (sock_closed s)).
Qed.

Lemma can_send_deliver1 data ss c c' :
  can_send (deliver1 data ss c) c' = can_send ss c'.
Proof.
  unfold deliver1. destruct (ss !! c) as [s|] eqn:Hs; [|done].
  destruct (can_send ss c) eqn:Hc; [|done].
  unfold can_send in *. rewrite Hs in Hc.
  destruct (decide (c = c')) as [<-|Hne].
  - by rewrite lookup_insert_eq, Hs.
  - by rewrite lookup_insert_ne.
Qed.

Lemma can_send_deliver data cs ss c :
  can_send (deliver data cs ss) c = can_send ss c.
Proof.
  revert ss. induction cs as [|c0 cs IH]; intros ss; simpl; [done|].
  by rewrite IH, can_send_deliver1.
Qed.

Lemma send_all_spec data cs : forall dead w,
  send_all data cs dead w =
    Ok (dead ++ filter (fun c => can_send (sockets w) c = false) cs)
       (set_sockets (deliver data cs (sockets w)) w).
Proof.
  induction cs as [|c cs IH]; intros dead w; simpl.
  - unfold ret. rewrite app_nil_r. by destruct w.
  - unfold bind at 1. unfold try_except, bind at 1. rewrite sendall_spec.
    rewrite filter_cons.
    destruct (can_send (sockets w) c) eqn:Hc; simpl.
    + rewrite IH. simpl. do 2 f_equal.
      apply list_filter_iff. intros c'. by rewrite can_send_deliver1.
    + unfold ret. rewrite IH. rewrite <- app_assoc. simpl. do 2 f_equal.
      unfold deliver1. destruct (sockets w !! c); [|done]. by rewrite Hc.
Qed.

Lemma list_remove_middle (pre l : list conn) (a : conn) :
  a ∉ pre -> list_remove a (pre ++ a :: l) = Some (pre ++ l).
Proof.
  induction pre as [|b pre IH]; intros Hnot; simpl.
  - by rewrite decide_True.
  - rewrite decide_False by (intros ->; apply Hnot; left).
    rewrite IH; [done|]. intros Hin. apply Hnot. by right.
Qed.

Lemma remove_dead_spec (P : conn -> bool) (l : list conn) : forall pre w,
  (forall c, c ∈ pre -> P c = true) ->
  clients w = pre ++ l ->
  remove_dead (filter (fun c => P c = false) l) w =
    Ok tt (set_clients (pre ++ filter (fun c => P c = true) l) w).
Proof.
  induction l as [|a l IH]; intros pre w Hpre Hcl; simpl.
  - unfold ret. rewrite filter_nil, <- Hcl. by destruct w.
  - rewrite !filter_cons. destruct (P a) eqn:Ha.
    + rewrite decide_False by done. rewrite decide_True by done.
      rewrite (IH (pre ++ [a]) w).
      * by rewrite <- app_assoc.
      * intros c [Hc|Hc%list_elem_of_singleton]%elem_of_app; [by apply Hpre | by subst].
      * by rewrite <- app_assoc.
    + rewrite decide_True by done. rewrite decide_False by done. simpl.
      unfold bind, clients_remove. rewrite Hcl.
      rewrite list_remove_middle.
      * rewrite (IH pre); [by destruct w | done | done].
      * intros Hin. apply Hpre in Hin. congruence.
Qed.

(** [broadcast] never raises: the clients whose [sendall] raised leave
    [clients], the others have the line appended. *)
Lemma broadcast_spec (obj : json) (w : world) :
  broadcast obj w =
    Ok tt (set_clients (filter (fun c => can_send (sockets w) c = true) (clients w))
             (set_sockets (deliver obj (clients w) (sockets w)) w)).
Proof.
  unfold broadcast, bind at 1, get_world. unfold bind. rewrite send_all_spec. simpl.
  rewrite (remove_dead_spec (can_send (sockets w)) (clients w) []); [done| |done].
  intros c Hc. by apply elem_of_nil in Hc.
Qed.

Lemma deliver_not_in data cs : forall ss c,
  c ∉ cs -> deliver data cs ss !! c = ss !! c.
Proof.
  induction cs as [|c0 cs IH]; intros ss c Hnot; simpl; [done|].
  rewrite IH by (intros Hin; apply Hnot; by right).
  unfold deliver1. destruct (ss !! c0); [|done].
  destruct (can_send ss c0); [|done].
  rewrite lookup_insert_ne; [done|]. intros ->. apply Hnot. left.
Qed.

Lemma deliver_cannot data cs : forall ss c,
  can_send ss c = false -> deliver data cs ss !! c = ss !! c.
Proof.
  induction cs as [|c0 cs IH]; intros ss c Hc; simpl; [done|].
  rewrite IH by (by rewrite can_send_deliver1).
  unfold deliver1. destruct (ss !! c0) eqn:H0; [|done].
  destruct (can_send ss c0) eqn:Hc0; [|done].
  rewrite lookup_insert_ne; [done|]. intros ->. congruence.
Qed.

Lemma deliver_once data cs : forall ss c s,
  NoDup cs -> c ∈ cs -> ss !! c = Some s -> can_send ss c = true ->
  deliver data cs ss !! c = Some (pushed data s).
Proof.
  induction cs as [|c0 cs IH]; intros ss c s Hnd Hin Hs Hc; simpl.
  - by apply elem_of_nil in Hin.
  - apply NoDup_cons in Hnd as [Hc0 Hnd].
    apply elem_of_cons in Hin as [->|Hin].
    + rewrite deliver_not_in by done.
      unfold deliver1. rewrite Hs, Hc. by rewrite lookup_insert_eq.
    + assert (c <> c0) by (intros ->; done).
      apply IH; [done|done| |by rewrite can_send_deliver1].
      unfold deliver1. destruct (ss !! c0); [|done].
      destruct (can_send ss c0); [|done]. by rewrite lookup_insert_ne.
Qed.

Lemma filter_all_but (bad : conn) (P : conn -> bool) (l : list conn) :
  P bad = false -> (forall c, c ∈ l -> c <> bad -> P c = true) ->
  filter (fun c => P c = true) l = filter (fun c => c <> bad) l.
Proof.
  intros Hbad Hothers. induction l as [|a l IH]; [done|].
  rewrite !filter_cons. rewrite IH by (intros c Hc; apply Hothers; by right).
  destruct (decide (a = bad)) as [->|Hne].
  - rewrite decide_False by congruence. by rewrite decide_False by tauto.
  - rewrite decide_True by (apply Hothers; [left|done]).
    by rewrite decide_True by done.
Qed.

Lemma list_remove_app_self (l : list conn) (c : conn) :
  exists r, list_remove c (l ++ [c]) = Some r /\ length r = length l.
Proof.
  induction l as [|a l [r [Hr Hlen]]]; simpl.
  - exists []. by rewrite decide_True.
  - destruct (decide (c = a)) as [->|Hne].
    + exists (l ++ [a]). split; [done|]. rewrite length_app. simpl. lia.
    + rewrite Hr. exists (a :: r). split; [done|]. simpl. by rewrite Hlen.
Qed.


(** C3, as the code has it: with exactly one registered channel that
    cannot be sent to, [broadcast] returns normally, every other channel
    has the message appended to what it was sent, exactly the failing
    channel leaves [clients], and the failing channel's socket is left as
    it was ([broadcast] does not close it). *)
Theorem broadcast_one_broken (obj : json) (w : world) (bad : conn) :
  NoDup (clients w) ->
  bad ∈ clients w ->
  can_send (sockets w) bad = false ->
  (forall c, c ∈ clients w -> c <> bad -> can_send (sockets w) c = true) ->
  exists w',
    broadcast obj w = Ok tt w' /\
    (forall c, c ∈ clients w -> c <> bad ->
       exists s, sockets w !! c = Some s /\
                 sockets w' !! c = Some (pushed obj s)) /\
    clients w' = filter (fun c => c <> bad) (clients w) /\
    S (length (clients w')) = length (clients w) /\
    sockets w' !! bad = sockets w !! bad /\
    latest_objects w' = latest_objects w.
Proof.
  intros Hnd Hbad Hfail Hothers. eexists. split; [apply broadcast_spec|].
  simpl. repeat split.
  - intros c Hc Hne. specialize (Hothers c Hc Hne).
    assert (exists s, sockets w !! c = Some s) as [s Hs].
    { unfold can_send in Hothers. destruct (sockets w !! c); [eauto|done]. }
    exists s. split; [done|]. by apply deliver_once.
  - by apply filter_all_but.
  - rewrite (filter_all_but bad) by done.
    clear Hfail Hothers. induction (clients w) as [|a l IH]; [by apply elem_of_nil in Hbad|].
    apply NoDup_cons in Hnd as [Ha Hnd]. rewrite filter_cons.
    apply elem_of_cons in Hbad as [->|Hin].
    + rewrite decide_False by tauto. simpl. f_equal.
      clear IH. induction l as [|b l IH]; [done|].
      rewrite filter_cons. rewrite decide_True.
      * simpl. f_equal. apply IH.
        -- intros Hin. apply Ha. by right.
        -- by apply NoDup_cons in Hnd as [_ ?].
      * intros ->. apply Ha. left.
    + rewrite decide_True by (intros ->; done). simpl. f_equal. by apply IH.
  - by apply deliver_cannot.
Qed.

Lemma broadcast_one_broken_witness :
  exists w',
    broadcast msg_back_pressed hub3 = Ok tt w' /\
    (forall c, c ∈ clients hub3 -> c <> 1%nat ->
       exists s, sockets hub3 !! c = Some s /\
                 sockets w' !! c = Some (pushed msg_back_pressed s)) /\
    clients w' = filter (fun c => c <> 1%nat) (clients hub3) /\
    S (length (clients w')) = length (clients hub3) /\
    sockets w' !! 1%nat = sockets hub3 !! 1%nat /\
    latest_objects w' = latest_objects hub3.
Proof.
  apply (broadcast_one_broken msg_back_pressed hub3 1%nat).
  - by apply (bool_decide_unpack _).
  - by apply (bool_decide_unpack _).
  - reflexivity.
  - intros c Hc Hne. simpl in Hc.
    repeat (apply elem_of_cons in Hc as [->|Hc]); try done.
    by apply elem_of_nil in Hc.
Defined.

(** C3 as stated fails on the closing: three registered channels of which
    exactly the second fails on send; after [broadcast] that channel has
    left [clients], and [close] was never called on its socket. *)
Lemma broadcast_leaves_broken_open :
  NoDup (clients hub3) /\
  1%nat ∈ clients hub3 /\
  can_send (sockets hub3) 1%nat = false /\
  can_send (sockets hub3) 0%nat = true /\
  can_send (sockets hub3) 2%nat = true /\
  exists w',
    broadcast msg_back_pressed hub3 = Ok tt w' /\
    clients w' = [0%nat; 2%nat] /\
    sock_closed <$> (sockets w' !! 1%nat) = Some false.
Proof.
  repeat split.
  - by apply (bool_decide_unpack _).
  - by apply (bool_decide_unpack _).
  - eexists. split; [apply broadcast_spec|]. split; reflexivity.
Qed.

(** C8: appending a connection to [clients] as [tcp_acceptor] does and then
    running the [finally] block of its reader leaves [clients] as long as
    it was, whatever the state and the connection. *)
Theorem register_unregister_size (c : conn) (w : world) :
  exists w',
    (tcp_acceptor_register c ;;; client_reader_thread_finally c) w = Ok tt w' /\
    length (clients w') = length (clients w).
Proof.
  destruct (list_remove_app_self (clients w) c) as [r [Hr Hlen]].
  unfold bind, tcp_acceptor_register, client_reader_thread_finally, modify,
    get_world, bind, when. simpl.
  rewrite bool_decide_eq_true_2 by (apply elem_of_app; right; left).
  unfold clients_remove. simpl. rewrite Hr. simpl.
  unfold close. simpl.
  destruct (sockets w !! c); simpl; eexists; (split; [reflexivity|done]).
Qed.

End Hub.

(** ** The Selection Engine *)

Section LogicFacts.

Variable hypot : Float64.float -> Float64.float -> res Float64.float.

Lemma keeps_ret {A} (a : A) : keeps_registry (ret a).
Proof. by intros w. Qed.

Lemma keeps_lift {A} (r : res A) : keeps_registry (lift r).
Proof. by destruct r; intros w. Qed.

Lemma keeps_bind {A B} (c : M A) (k : A -> M B) :
  keeps_registry c -> (forall a, keeps_registry (k a)) -> keeps_registry (bind c k).
Proof.
  intros Hc Hk w. unfold bind. specialize (Hc w).
  destruct (c w) as [a w'|e w']; simpl in *; [|done].
  by rewrite Hk.
Qed.

Lemma keeps_when (b : bool) (c : M unit) :
  keeps_registry c -> keeps_registry (when b c).
Proof. destruct b; [done|]. intros _. apply keeps_ret. Qed.

Lemma keeps_logger (m : log_msg) : keeps_registry (logger m).
Proof. by intros w. Qed.

Lemma keeps_broadcast (obj : json) : keeps_registry (broadcast obj).
Proof. intros w. by rewrite Hub.broadcast_spec. Qed.

Lemma keeps_get_world : keeps_registry get_world.
Proof. by intros w. Qed.

Lemma keeps_proximity_scan items rec sector :
  keeps_registry (proximity_scan hypot items rec sector).
Proof.
  induction items as [|[session_id srec] items IH]; simpl; [apply keeps_ret|].
  apply keeps_bind; [|done].
  apply keeps_when.
  repeat (apply keeps_bind; [first [apply keeps_lift | apply keeps_logger]|intros ?]).
  apply keeps_when.
  apply keeps_bind; [apply keeps_lift|intros ?].
  apply keeps_bind; [apply keeps_logger|intros ?].
  apply keeps_broadcast.
Qed.

(** The Selection Engine only reads the registry. *)
Lemma keeps_process_logic rec :
  keeps_registry (process_logic_and_broadcast hypot rec).
Proof.
  unfold process_logic_and_broadcast.
  apply keeps_bind; [apply keeps_broadcast|intros _].
  apply keeps_bind; [|intros _].
  { apply keeps_when.
    apply keeps_bind; [apply keeps_lift|intros ?].
    apply keeps_bind; [apply keeps_logger|intros _]. apply keeps_broadcast. }
  apply keeps_bind; [|intros _].
  { apply keeps_when. apply keeps_bind; [apply keeps_logger|intros _].
    apply keeps_broadcast. }
  apply keeps_bind; [|intros _].
  { apply keeps_when.
    apply keeps_bind; [apply keeps_lift|intros ?].
    apply keeps_bind; [apply keeps_lift|intros ?].
    apply keeps_bind; [apply keeps_logger|intros _].
    apply keeps_bind; [apply keeps_broadcast|intros _].
    apply keeps_bind; [apply keeps_get_world|intros ?].
    apply keeps_proximity_scan. }
  apply keeps_when. apply keeps_bind; [apply keeps_logger|intros _].
  apply keeps_broadcast.
Qed.

(** The only rule a [remove] event matches is the unconditional one. *)
Lemma process_logic_remove rec w :
  r_event rec = Remove ->
  process_logic_and_broadcast hypot rec w = broadcast (msg_tuio_obj rec) w.
Proof.
  intros Hevt. unfold process_logic_and_broadcast. rewrite Hevt. simpl.
  rewrite !andb_false_r. unfold bind, when, ret.
  rewrite Hub.broadcast_spec. reflexivity.
Qed.

(** Neither does any rule but the unconditional one match the select
    symbol. *)
Lemma process_logic_select rec w :
  r_symbol_id rec = SELECT_SYMBOL ->
  process_logic_and_broadcast hypot rec w = broadcast (msg_tuio_obj rec) w.
Proof.
  intros Hsid. unfold process_logic_and_broadcast. rewrite Hsid. simpl.
  unfold bind, when, ret. rewrite Hub.broadcast_spec. reflexivity.
Qed.

(** [_handle_obj_body] once the record is built and its numbers pass the
    format: the log line, the cache update, then the Selection Engine. *)
Lemma handle_obj_body_built evt obj rec w :
  build_record evt obj = inr (Some rec) ->
  loggable rec = true ->
  exists fx fy fangle,
    format_3f (r_x rec) = inr fx /\
    format_3f (r_y rec) = inr fy /\
    format_3f (r_angle rec) = inr fangle /\
    _handle_obj_body hypot evt obj w =
      process_logic_and_broadcast hypot rec
        (update_cache rec
           (add_log (Info_tuio (r_event rec) (r_symbol_id rec)
                               (r_session_id rec) fx fy fangle) w)).
Proof.
  intros Hb Hl. unfold loggable in Hl.
  destruct (format_3f (r_x rec)) as [|fx] eqn:Hx; [done|].
  destruct (format_3f (r_y rec)) as [|fy] eqn:Hy; [done|].
  destruct (format_3f (r_angle rec)) as [|fa] eqn:Ha; [done|].
  exists fx, fy, fa. repeat split.
  unfold _handle_obj_body. rewrite Hb. unfold bind at 1. simpl.
  rewrite Hx, Hy, Ha. reflexivity.
Qed.

(** [_handle_obj_body] when a number of the record does not pass the
    format: the exception leaves the state untouched. *)
Lemma handle_obj_body_unloggable evt obj rec w :
  build_record evt obj = inr (Some rec) ->
  loggable rec = false ->
  exists e, _handle_obj_body hypot evt obj w = Raise e w.
Proof.
  intros Hb Hl. unfold loggable in Hl.
  unfold _handle_obj_body. rewrite Hb. unfold bind at 1. simpl.
  destruct (format_3f (r_x rec)) as [e|fx] eqn:Hx; [by exists e|].
  destruct (format_3f (r_y rec)) as [e|fy] eqn:Hy; [by exists e|].
  destruct (format_3f (r_angle rec)) as [e|fa] eqn:Ha; [by exists e|done].
Qed.

Lemma build_record_event evt obj rec :
  build_record evt obj = inr (Some rec) -> r_event rec = evt.
Proof.
  unfold build_record, res_bind.
  destruct (probe_ids _) as [|[sid|]]; try done.
  destruct (getattr_default (TuioObject.session_id obj) None); try done.
  destruct (getattr3 _ _ _ _); try done.
  destruct (getattr3 _ _ _ _); try done.
  destruct (getattr_default (TuioObject.angle obj) _); try done.
  by intros [= <-].
Qed.

End LogicFacts.

(** ** The Ingestion Adapter *)

Section Ingestion.

Variable hypot : Float64.float -> Float64.float -> res Float64.float.

(** [_handle_obj] returns normally, in the state the body ended in, with
    the error logged when the body raised. *)
Lemma handle_obj_outcome evt obj w :
  exists w',
    _handle_obj hypot evt obj w = Ok tt w' /\
    match _handle_obj_body hypot evt obj w with
    | Ok _ w1 => w' = w1
    | Raise e w1 => w' = add_log (Error_handling e) w1
    end.
Proof.
  unfold _handle_obj, try_except.
  destruct (_handle_obj_body hypot evt obj w) as [[] w1|e w1]; eauto.
Qed.

Lemma handle_obj_final evt obj w w' :
  _handle_obj hypot evt obj w = Ok tt w' ->
  latest_objects w' = latest_objects (final (_handle_obj_body hypot evt obj w)) /\
  clients w' = clients (final (_handle_obj_body hypot evt obj w)) /\
  sockets w' = sockets (final (_handle_obj_body hypot evt obj w)).
Proof.
  unfold _handle_obj, try_except.
  destruct (_handle_obj_body hypot evt obj w) as [[] w1|e w1]; simpl.
  - by intros [= <-].
  - unfold logger, modify. by intros [= <-].
Qed.

(** The registry after [_handle_obj] on an object whose record is built and
    logged: the cache update, whatever the Selection Engine does next. *)
Lemma handle_obj_registry evt obj rec w w' :
  build_record evt obj = inr (Some rec) ->
  loggable rec = true ->
  _handle_obj hypot evt obj w = Ok tt w' ->
  latest_objects w' = latest_objects (update_cache rec w).
Proof.
  intros Hb Hl Hw'. apply handle_obj_final in Hw' as [-> _].
  destruct (handle_obj_body_built hypot evt obj rec w Hb Hl)
    as (fx & fy & fa & _ & _ & _ & ->).
  rewrite keeps_process_logic. unfold update_cache.
  by destruct (is_add_or_update (r_event rec)).
Qed.

Lemma bind_ret_tt (c : M unit) w : bind c (fun _ => ret tt) w = c w.
Proof. unfold bind, ret. by destruct (c w) as [[] ?|? ?]. Qed.

(** C4: a [remove] event makes [process_logic_and_broadcast] do what the one
    [broadcast] of the raw [tuio_obj] message does and nothing else; and
    [_handle_obj] on a [remove] event either stops before the cache (no
    marker id, a raising attribute, a number that cannot be formatted) with
    clients, sockets and registry untouched, or pops the session from the
    registry and leaves clients and sockets as that one [broadcast] does. *)
Theorem remove_event_raw_only (obj : TuioObject.t) (w : world) :
  (forall rec w0, r_event rec = Remove ->
     process_logic_and_broadcast hypot rec w0 = broadcast (msg_tuio_obj rec) w0) /\
  exists w',
    _handle_obj hypot Remove obj w = Ok tt w' /\
    match build_record Remove obj with
    | inr (Some rec) =>
        if loggable rec then
          (exists wb, broadcast (msg_tuio_obj rec) w = Ok tt wb /\
                      clients w' = clients wb /\ sockets w' = sockets wb) /\
          latest_objects w' = dict_pop (r_session_id rec) (latest_objects w) /\
          dict_lookup (r_session_id rec) (latest_objects w') = None
        else clients w' = clients w /\ sockets w' = sockets w /\
             latest_objects w' = latest_objects w
    | _ => clients w' = clients w /\ sockets w' = sockets w /\
           latest_objects w' = latest_objects w
    end.
Proof.
  split; [intros rec w0; apply process_logic_remove|].
  destruct (handle_obj_outcome Remove obj w) as [w' [Hw' Hbody]].
  exists w'. split; [done|].
  apply handle_obj_final in Hw' as (Hreg & Hcl & Hso).
  destruct (build_record Remove obj) as [e|[rec|]] eqn:Hb.
  - unfold _handle_obj_body in *. rewrite Hb in *. simpl in *. by subst.
  - destruct (loggable rec) eqn:Hl.
    + destruct (handle_obj_body_built hypot Remove obj rec w Hb Hl)
        as (fx & fy & fa & _ & _ & _ & Hrun).
      pose proof (build_record_event _ _ _ Hb) as Hevt.
      rewrite Hrun, process_logic_remove in * by done.
      rewrite Hub.broadcast_spec in *. simpl in *.
      unfold update_cache in *. rewrite Hevt in *. simpl in *.
      repeat split.
      * eexists. split; [reflexivity|]. by rewrite Hcl, Hso.
      * done.
      * rewrite Hreg. apply dict_lookup_pop_eq.
    + destruct (handle_obj_body_unloggable hypot Remove obj rec w Hb Hl) as [e He].
      rewrite He in *. simpl in *. done.
  - unfold _handle_obj_body in *. rewrite Hb in *. simpl in *. by subst.
Qed.

(** C6: an object with none of [fiducial_id], [symbol_id], [class_id] and
    [pattern_id] is dropped after the warning: the registry, the clients
    and what every socket was sent stay as they were. *)
Theorem no_marker_id_discarded (evt : event_type) (obj : TuioObject.t) (w : world) :
  TuioObject.fiducial_id obj = Missing ->
  TuioObject.symbol_id obj = Missing ->
  TuioObject.class_id obj = Missing ->
  TuioObject.pattern_id obj = Missing ->
  exists w',
    _handle_obj hypot evt obj w = Ok tt w' /\
    latest_objects w' = latest_objects w /\
    clients w' = clients w /\
    sockets w' = sockets w /\
    log w' = log w ++ [Warn_no_marker_id].
Proof.
  intros H1 H2 H3 H4. exists (add_log Warn_no_marker_id w).
  split; [|done].
  unfold _handle_obj, try_except, _handle_obj_body, build_record,
    possible_id_attrs.
  by rewrite H1, H2, H3, H4.
Qed.

(** C7: a [remove] event whose session id is not a key of the registry
    leaves the registry as it was, and nothing is raised: [_handle_obj]
    returns, and so does its body when the numbers of the record can be
    formatted. *)
Theorem remove_absent_session (obj : TuioObject.t) (rec : record) (w : world) :
  build_record Remove obj = inr (Some rec) ->
  dict_lookup (r_session_id rec) (latest_objects w) = None ->
  exists w',
    _handle_obj hypot Remove obj w = Ok tt w' /\
    latest_objects w' = latest_objects w /\
    (loggable rec = true -> _handle_obj_body hypot Remove obj w = Ok tt w').
Proof.
  intros Hb Habs.
  destruct (handle_obj_outcome Remove obj w) as [w' [Hw' Hbody]].
  exists w'. split; [done|].
  pose proof (build_record_event _ _ _ Hb) as Hevt.
  destruct (loggable rec) eqn:Hl.
  - split.
    + rewrite (handle_obj_registry Remove obj rec w w') by done.
      unfold update_cache. rewrite Hevt. simpl. by rewrite dict_pop_absent.
    + intros _.
      destruct (handle_obj_body_built hypot Remove obj rec w Hb Hl)
        as (fx & fy & fa & _ & _ & _ & Hrun).
      rewrite Hrun in *. rewrite process_logic_remove in * by done.
      rewrite Hub.broadcast_spec in *. by subst.
  - split; [|done].
    apply handle_obj_final in Hw' as [-> _].
    destruct (handle_obj_body_unloggable hypot Remove obj rec w Hb Hl) as [e ->].
    done.
Qed.

Lemma getattr3_missing (d : pyval) : getattr3 Missing Missing Missing d = inr d.
Proof. reflexivity. Qed.

(** A rotate token that is added or updated reaches the proximity scan
    with the registry as [latest_objects] holds it on entry. *)
Lemma process_logic_rotate rec w theta sector name :
  r_symbol_id rec = ROTATE_SYMBOL ->
  is_add_or_update (r_event rec) = true ->
  wheel_sector NUM_WHEEL_SECTORS (r_angle rec) = inr (theta, sector) ->
  py_index (dict_values MEDICATION_SYMBOLS) sector = inr name ->
  exists w2,
    latest_objects w2 = latest_objects w /\
    process_logic_and_broadcast hypot rec w =
      proximity_scan hypot (latest_objects w) rec sector w2.
Proof.
  intros Hsid Hevt Hsec Hname.
  unfold process_logic_and_broadcast. rewrite Hsid, Hsec.
  change (bool_decide (is_Some (dict_lookup ROTATE_SYMBOL MEDICATION_SYMBOLS)))
    with false.
  change (ROTATE_SYMBOL =? ROTATE_SYMBOL) with true.
  change (ROTATE_SYMBOL =? BACK_SYMBOL) with false.
  rewrite Hevt. cbn [andb when lift].
  destruct (is_add (r_event rec)); cbn [when];
    unfold bind, ret, logger, modify, get_world, lift;
    repeat (rewrite ?Hub.broadcast_spec; cbv beta iota; cbn [fst snd];
            rewrite ?Hname; unfold ret);
    match goal with
    | |- context [proximity_scan _ _ _ _ ?W] => exists W
    end;
    (split; [reflexivity|]);
    cbn [latest_objects set_clients set_sockets add_log];
    match goal with
    | |- context [proximity_scan ?h ?l ?r ?s ?W] =>
        by destruct (proximity_scan h l r s W) as [[] ?|? ?]
    end.
Qed.

Lemma half_bits : half = PFloat (S754_finite false 4503599627370496 (-53)).
Proof. reflexivity. Qed.

(** The fields of the record [build_record] returns. *)
Lemma build_record_fields evt obj rec :
  build_record evt obj = inr (Some rec) ->
  getattr_default (TuioObject.session_id obj) None = inr (r_session_id rec) /\
  getattr3 (TuioObject.x obj) (TuioObject.xpos obj) (TuioObject.x_pos obj) half
    = inr (r_x rec) /\
  getattr3 (TuioObject.y obj) (TuioObject.ypos obj) (TuioObject.y_pos obj) half
    = inr (r_y rec) /\
  getattr_default (TuioObject.angle obj) (PInt 0) = inr (r_angle rec).
Proof.
  unfold build_record, res_bind.
  destruct (probe_ids _) as [|[sid|]]; try done.
  destruct (getattr_default (TuioObject.session_id obj) None); try done.
  destruct (getattr3 _ _ _ _); try done.
  destruct (getattr3 _ _ _ _); try done.
  destruct (getattr_default (TuioObject.angle obj) _); try done.
  by intros [= <-].
Qed.

(** C5: a missing position is (0.5, 0.5) and a missing angle is 0 in the
    record; and on [add] and [update] the record is in the registry, under
    its session id, when the Selection Engine starts: the body of
    [_handle_obj] is [process_logic_and_broadcast] run on a state whose
    registry holds the record, and for a rotate token the proximity scan
    runs over that very registry. *)
Theorem record_cached_before_logic
    (evt : event_type) (obj : TuioObject.t) (rec : record) (w : world) :
  build_record evt obj = inr (Some rec) ->
  (TuioObject.x obj = Missing -> TuioObject.xpos obj = Missing ->
   TuioObject.x_pos obj = Missing ->
   r_x rec = PFloat (S754_finite false 4503599627370496 (-53))) /\
  (TuioObject.y obj = Missing -> TuioObject.ypos obj = Missing ->
   TuioObject.y_pos obj = Missing ->
   r_y rec = PFloat (S754_finite false 4503599627370496 (-53))) /\
  (TuioObject.angle obj = Missing -> r_angle rec = PInt 0) /\
  (is_add_or_update evt = true -> loggable rec = true ->
   let cached := dict_set (r_session_id rec) rec (latest_objects w) in
   dict_lookup (r_session_id rec) cached = Some rec /\
   (exists w1,
      latest_objects w1 = cached /\ clients w1 = clients w /\
      sockets w1 = sockets w /\
      _handle_obj_body hypot evt obj w = process_logic_and_broadcast hypot rec w1) /\
   (forall theta sector name,
      r_symbol_id rec = ROTATE_SYMBOL ->
      wheel_sector NUM_WHEEL_SECTORS (r_angle rec) = inr (theta, sector) ->
      py_index (dict_values MEDICATION_SYMBOLS) sector = inr name ->
      exists w2,
        latest_objects w2 = cached /\
        _handle_obj_body hypot evt obj w =
          proximity_scan hypot cached rec sector w2)).
Proof.
  intros Hb.
  destruct (build_record_fields evt obj rec Hb) as (_ & Hx & Hy & Ha).
  pose proof (build_record_event evt obj rec Hb) as Hevt.
  repeat split.
  - intros H1 H2 H3. rewrite H1, H2, H3, getattr3_missing in Hx.
    injection Hx as <-. apply half_bits.
  - intros H1 H2 H3. rewrite H1, H2, H3, getattr3_missing in Hy.
    injection Hy as <-. apply half_bits.
  - intros H1. rewrite H1 in Ha. by injection Ha as <-.
  - apply dict_lookup_set_eq.
  - destruct (handle_obj_body_built hypot evt obj rec w Hb H0)
      as (fx & fy & fa & _ & _ & _ & ->).
    eexists. split; [|split; [|split; [|reflexivity]]];
      unfold update_cache; rewrite Hevt, H; reflexivity.
  - intros theta sector name Hsid Hsec Hname.
    destruct (handle_obj_body_built hypot evt obj rec w Hb H0)
      as (fx & fy & fa & _ & _ & _ & ->).
    edestruct process_logic_rotate as (w2 & Hreg & ->);
      [done | by rewrite Hevt | done | done |].
    exists w2. unfold update_cache in *. rewrite Hevt, H in *.
    split; [done|reflexivity].
Qed.

(** C10: an object with a marker id and no [session_id] attribute is
    processed under the session id [None]: its record carries [None], the
    callback returns, the registry has the record set (on [add] and
    [update]) or popped (on [remove]) under the key [None], and the
    Selection Engine runs on the record.  A second such object that is
    added or updated overwrites the entry of the first: the registry keeps
    its length and holds the second record under [None]. *)
Theorem missing_session_id_keyed_None
    (evt : event_type) (obj : TuioObject.t) (rec : record) (w : world) :
  build_record evt obj = inr (Some rec) ->
  TuioObject.session_id obj = Missing ->
  loggable rec = true ->
  r_session_id rec = None /\
  exists w',
    _handle_obj hypot evt obj w = Ok tt w' /\
    latest_objects w' =
      (if is_add_or_update evt then dict_set None rec (latest_objects w)
       else dict_pop None (latest_objects w)) /\
    (exists w1, latest_objects w1 = latest_objects w' /\
       _handle_obj_body hypot evt obj w = process_logic_and_broadcast hypot rec w1) /\
    (is_add_or_update evt = true ->
     forall evt2 obj2 rec2,
       is_add_or_update evt2 = true ->
       build_record evt2 obj2 = inr (Some rec2) ->
       TuioObject.session_id obj2 = Missing ->
       loggable rec2 = true ->
       exists w'',
         _handle_obj hypot evt2 obj2 w' = Ok tt w'' /\
         dict_lookup None (latest_objects w'') = Some rec2 /\
         length (latest_objects w'') = length (latest_objects w')).
Proof.
  intros Hb Hmiss Hl.
  assert (Hnone : forall e o r, build_record e o = inr (Some r) ->
                                TuioObject.session_id o = Missing ->
                                r_session_id r = None).
  { intros e o r Hr Hm. destruct (build_record_fields e o r Hr) as (Hs & _).
    rewrite Hm in Hs. by injection Hs as <-. }
  pose proof (Hnone _ _ _ Hb Hmiss) as Hsess.
  pose proof (build_record_event evt obj rec Hb) as Hevt.
  split; [done|].
  destruct (handle_obj_outcome evt obj w) as [w' [Hw' _]].
  pose proof (handle_obj_registry evt obj rec w w' Hb Hl Hw') as Hreg.
  unfold update_cache in Hreg. rewrite Hevt, Hsess in Hreg.
  exists w'. split; [done|]. split.
  { rewrite Hreg. by destruct (is_add_or_update evt). }
  split.
  { destruct (handle_obj_body_built hypot evt obj rec w Hb Hl)
      as (fx & fy & fa & _ & _ & _ & ->).
    eexists. split; [|reflexivity].
    rewrite Hreg. unfold update_cache. rewrite Hevt, Hsess.
    by destruct (is_add_or_update evt). }
  intros Hau evt2 obj2 rec2 Hau2 Hb2 Hmiss2 Hl2.
  pose proof (Hnone _ _ _ Hb2 Hmiss2) as Hsess2.
  pose proof (build_record_event evt2 obj2 rec2 Hb2) as Hevt2.
  destruct (handle_obj_outcome evt2 obj2 w') as [w'' [Hw'' _]].
  pose proof (handle_obj_registry evt2 obj2 rec2 w' w'' Hb2 Hl2 Hw'') as Hreg2.
  unfold update_cache in Hreg2. rewrite Hevt2, Hsess2, Hau2 in Hreg2.
  simpl in Hreg2.
  exists w''. split; [done|]. rewrite Hreg2. split.
  - apply dict_lookup_set_eq.
  - apply dict_set_length_present. rewrite Hreg, Hau. simpl.
    rewrite dict_lookup_set_eq. eauto.
Qed.

(** C1, on the code: the select token of the simulation is added at
    (0.52, 0.52) while the rotate token is in the registry at (0.5, 0.5),
    a distance under 0.08 away; the callback returns, the connected client
    is sent the raw [tuio_obj] message and nothing else, no
    [wheel_select_confirm] among it. *)
Theorem select_add_emits_raw_only :
  dict_lookup (Some 1000) (latest_objects world_rotating)
    = Some (rec_rotate Update (PFloat (Float64.decimal 314 100))) /\
  (exists dx dy dist,
     py_sub (r_x (rec_select Add)) half = inr dx /\
     py_sub (r_y (rec_select Add)) half = inr dy /\
     math_hypot sqrt_sum_squares dx dy = inr dist /\
     Float64.ltb dist PROXIMITY_THRESHOLD = true) /\
  exists w',
    _handle_obj hypot Add sim_select world_rotating = Ok tt w' /\
    clients w' = [0%nat] /\
    sock_sent <$> (sockets w' !! 0%nat) = Some [msg_tuio_obj (rec_select Add)] /\
    map fst (latest_objects w') = [Some 1000; Some 1001].
Proof.
  split; [reflexivity|]. split.
  - do 3 eexists. repeat split; vm_compute; reflexivity.
  - eexists. split; [vm_compute; reflexivity|]. repeat split.
Qed.

End Ingestion.

(** ** The theorems of the Ingestion Adapter at the objects of the examples *)

Lemma remove_event_raw_only_witness :
  r_event (rec_select Remove) = Remove /\
  process_logic_and_broadcast sqrt_sum_squares (rec_select Remove) world_rotating
    = broadcast (msg_tuio_obj (rec_select Remove)) world_rotating.
Proof.
  split; [reflexivity|].
  apply (remove_event_raw_only sqrt_sum_squares sim_select world_rotating).
  reflexivity.
Defined.

Lemma no_marker_id_discarded_witness :
  TuioObject.fiducial_id anonymous_object = Missing /\
  exists w',
    _handle_obj sqrt_sum_squares Add anonymous_object world1 = Ok tt w' /\
    latest_objects w' = latest_objects world1 /\
    clients w' = clients world1 /\
    sockets w' = sockets world1 /\
    log w' = log world1 ++ [Warn_no_marker_id].
Proof.
  split; [reflexivity|].
  apply (no_marker_id_discarded sqrt_sum_squares Add anonymous_object world1);
    reflexivity.
Defined.

Lemma remove_absent_session_witness :
  dict_lookup (Some 1001) (latest_objects world_rotating) = None /\
  exists w',
    _handle_obj sqrt_sum_squares Remove sim_select world_rotating = Ok tt w' /\
    latest_objects w' = latest_objects world_rotating /\
    (loggable (rec_select Remove) = true ->
     _handle_obj_body sqrt_sum_squares Remove sim_select world_rotating = Ok tt w').
Proof.
  split; [reflexivity|].
  apply (remove_absent_session sqrt_sum_squares sim_select (rec_select Remove)
           world_rotating); reflexivity.
Defined.

Lemma record_cached_before_logic_witness :
  build_record Add (bare_object ROTATE_SYMBOL)
    = inr (Some (mkRecord Add ROTATE_SYMBOL None half half (PInt 0))) /\
  r_x (mkRecord Add ROTATE_SYMBOL None half half (PInt 0))
    = PFloat (S754_finite false 4503599627370496 (-53)) /\
  r_angle (mkRecord Add ROTATE_SYMBOL None half half (PInt 0)) = PInt 0 /\
  exists w1,
    latest_objects w1
      = [(None, mkRecord Add ROTATE_SYMBOL None half half (PInt 0))] /\
    _handle_obj_body sqrt_sum_squares Add (bare_object ROTATE_SYMBOL) world1
      = process_logic_and_broadcast sqrt_sum_squares
          (mkRecord Add ROTATE_SYMBOL None half half (PInt 0)) w1.
Proof.
  pose proof (record_cached_before_logic sqrt_sum_squares Add
                (bare_object ROTATE_SYMBOL)
                (mkRecord Add ROTATE_SYMBOL None half half (PInt 0))
                world1 eq_refl) as (Hx & _ & Ha & Hrun).
  split; [reflexivity|].
  split; [apply Hx; reflexivity|].
  split; [apply Ha; reflexivity|].
  destruct (Hrun eq_refl eq_refl) as (_ & (w1 & Hreg & _ & _ & Hbody) & _).
  exists w1. split; [exact Hreg | exact Hbody].
Defined.

Lemma missing_session_id_keyed_None_witness :
  build_record Add (bare_object 4)
    = inr (Some (mkRecord Add 4 None half half (PInt 0))) /\
  TuioObject.session_id (bare_object 4) = Missing /\
  r_session_id (mkRecord Add 4 None half half (PInt 0)) = None /\
  exists w',
    _handle_obj sqrt_sum_squares Add (bare_object 4) world_rotating = Ok tt w' /\
    latest_objects w'
      = dict_set None (mkRecord Add 4 None half half (PInt 0))
          (latest_objects world_rotating).
Proof.
  split; [reflexivity|]. split; [reflexivity|].
  destruct (missing_session_id_keyed_None sqrt_sum_squares Add (bare_object 4)
              (mkRecord Add 4 None half half (PInt 0)) world_rotating
              eq_refl eq_refl eq_refl) as (Hnone & w' & Hrun & Hreg & _).
  split; [exact Hnone|]. exists w'. split; [exact Hrun | exact Hreg].
Defined.

(** ** Exceptions the callback absorbs, and the sibling path of the confirm *)

(** Reading an attribute raises: nothing is touched before the exception. *)
Example body_raises_on_attribute :
  _handle_obj_body sqrt_sum_squares Update
    (TuioObject.mk (Has (Some 0)) Missing Missing Missing (Has (Some 1000))
       (Has half) Missing Missing (Has half) Missing Missing (Raises (UserError 1)))
    world1
  = Raise (UserError 1) world1.
Proof. reflexivity. Qed.

(** A coordinate that is [None] fails the format [:.3f], before the cache
    is written. *)
Example body_raises_on_format :
  _handle_obj_body sqrt_sum_squares Add
    (SimulatedTuioObject ROTATE_SYMBOL 1000 PNone half (PInt 0)) world1
  = Raise TypeError world1.
Proof. reflexivity. Qed.

(** An infinite angle passes the format and fails in [int()], after the
    cache is written and [tuio_obj] and [wheel_open] are sent. *)
Example body_raises_in_logic :
  exists w1,
    _handle_obj_body sqrt_sum_squares Add
      (sim_rotate (PFloat (S754_infinity false))) world1
    = Raise ValueError w1 /\
    map fst (latest_objects w1) = [Some 1000] /\
    map msg_type <$> (sock_sent <$> (sockets w1 !! 0%nat))
      = Some [Some "tuio_obj"; Some "wheel_open"]%string.
Proof. eexists. split; [vm_compute; reflexivity|]. split; reflexivity. Qed.

(** The confirm is sent on the rotate token's events only: after the select
    token of the simulation is added, the next update of the rotate token
    sends [wheel_select_confirm]. *)
Example rotate_update_near_select_confirms :
  exists w1 w2,
    _handle_obj sqrt_sum_squares Add sim_select world_rotating = Ok tt w1 /\
    _handle_obj sqrt_sum_squares Update
      (sim_rotate (PFloat (Float64.decimal 314 100))) w1 = Ok tt w2 /\
    map msg_type <$> (sock_sent <$> (sockets w2 !! 0%nat))
      = Some [Some "tuio_obj"; Some "tuio_obj"; Some "wheel_hover";
              Some "wheel_select_confirm"]%string.
Proof.
  do 2 eexists. split; [vm_compute; reflexivity|].
  split; [vm_compute; reflexivity|]. reflexivity.
Qed.

(** ** Doubles *)

Module FloatFacts.

Import Float64.

Lemma digits2_pos_size p : digits2_pos p = Pos.size p.
Proof. induction p; simpl; congruence. Qed.

Lemma digits2_pos_bounds p :
  2 ^ (Zpos (digits2_pos p) - 1) <= Zpos p < 2 ^ Zpos (digits2_pos p).
Proof.
  rewrite digits2_pos_size. split.
  - pose proof (Pos.size_le p) as H.
    apply Pos2Z.pos_le_pos in H. rewrite Pos2Z.inj_pow in H.
    replace (Zpos (Pos.size p)) with (Z.succ (Zpos (Pos.size p) - 1)) in H by lia.
    rewrite Z.pow_succ_r in H by lia.
    change (Zpos p~0) with (2 * Zpos p) in H. lia.
  - pose proof (Pos.size_gt p) as H.
    apply Pos2Z.pos_lt_pos in H. by rewrite Pos2Z.inj_pow in H.
Qed.

Lemma Zdigits2_nonneg m : 0 <= Zdigits2 m.
Proof. destruct m; simpl; lia. Qed.

Lemma Zdigits2_lt_pow m : 0 <= m -> m < 2 ^ Zdigits2 m.
Proof.
  destruct m as [|p|p]; simpl; [lia| |lia]. intros _. apply digits2_pos_bounds.
Qed.

(** A non-negative integer below [2 ^ k] has at most [k] binary digits. *)
Lemma Zdigits2_le m k : 0 <= m -> 0 <= k -> m < 2 ^ k -> Zdigits2 m <= k.
Proof.
  destruct m as [|p|p]; simpl; [lia| |lia]. intros _ Hk Hlt.
  pose proof (digits2_pos_bounds p) as [Hlo _].
  assert (2 ^ (Zpos (digits2_pos p) - 1) < 2 ^ k) as Hpow by lia.
  apply Z.pow_lt_mono_r_iff in Hpow; lia.
Qed.

Lemma Zdigits2_div_pow2 m n :
  0 <= m -> 0 <= n -> Zdigits2 (m / 2 ^ n) <= Z.max 0 (Zdigits2 m - n).
Proof.
  intros Hm Hn.
  assert (0 <= m / 2 ^ n) by (apply Z.div_pos; lia).
  pose proof (Zdigits2_lt_pow m Hm) as Hlt.
  pose proof (Zdigits2_nonneg m) as Hd.
  destruct (Z_le_gt_dec n (Zdigits2 m)) as [Hle|Hgt].
  - apply Zdigits2_le; [done|lia|].
    apply Z.div_lt_upper_bound; [lia|].
    rewrite Z.max_r by lia. rewrite <- Z.pow_add_r by lia.
    by replace (n + (Zdigits2 m - n)) with (Zdigits2 m) by lia.
  - assert (m / 2 ^ n = 0) as ->.
    { apply Z.div_small. split; [done|].
      eapply Z.lt_le_trans; [exact Hlt|]. apply Z.pow_le_mono_r; lia. }
    simpl. lia.
Qed.

Lemma Zdigits2_mul_pow2 m n :
  0 <= m -> 0 <= n -> Zdigits2 (m * 2 ^ n) <= Zdigits2 m + n.
Proof.
  intros Hm Hn. pose proof (Zdigits2_nonneg m).
  apply Zdigits2_le; [lia|lia|].
  rewrite Z.pow_add_r by lia.
  apply Z.mul_lt_mono_pos_r; [lia|]. by apply Zdigits2_lt_pow.
Qed.

Lemma Zdigits2_mono a b : 0 <= a <= b -> Zdigits2 a <= Zdigits2 b.
Proof.
  intros [Ha Hab]. apply Zdigits2_le; [done|apply Zdigits2_nonneg|].
  eapply Z.le_lt_trans; [exact Hab|]. apply Zdigits2_lt_pow. lia.
Qed.

Lemma Zdigits2_mul a b :
  0 <= a -> 0 <= b -> Zdigits2 (a * b) <= Zdigits2 a + Zdigits2 b.
Proof.
  intros Ha Hb.
  pose proof (Zdigits2_nonneg a). pose proof (Zdigits2_nonneg b).
  apply Zdigits2_le; [lia|lia|].
  rewrite Z.pow_add_r by lia.
  pose proof (Zdigits2_lt_pow a Ha). pose proof (Zdigits2_lt_pow b Hb).
  nia.
Qed.

Lemma Zdigits2_add a b k :
  0 <= a -> 0 <= b -> 0 <= k -> Zdigits2 a <= k -> Zdigits2 b <= k ->
  Zdigits2 (a + b) <= k + 1.
Proof.
  intros Ha Hb Hk Hda Hdb. apply Zdigits2_le; [lia|lia|].
  rewrite Z.pow_add_r by lia.
  pose proof (Zdigits2_lt_pow a Ha). pose proof (Zdigits2_lt_pow b Hb).
  assert (2 ^ Zdigits2 a <= 2 ^ k) by (apply Z.pow_le_mono_r; lia).
  assert (2 ^ Zdigits2 b <= 2 ^ k) by (apply Z.pow_le_mono_r; lia).
  lia.
Qed.

(** ** Shifts to the right *)

Lemma shr_1_m mrs : 0 <= shr_m mrs -> shr_m (shr_1 mrs) = shr_m mrs / 2.
Proof.
  destruct mrs as [m r s]. cbn [shr_m]. intros Hm.
  destruct m as [|[p|p|]|p]; try lia; cbn [shr_1 shr_m].
  - reflexivity.
  - apply Z.div_unique with 1; lia.
  - apply Z.div_unique with 0; lia.
  - reflexivity.
Qed.

Lemma shr_1_nonneg mrs : 0 <= shr_m mrs -> 0 <= shr_m (shr_1 mrs).
Proof. intros Hm. rewrite shr_1_m by done. apply Z.div_pos; lia. Qed.

Lemma iter_shr_1_nonneg p : forall mrs,
  0 <= shr_m mrs -> 0 <= shr_m (SpecFloat.iter_pos shr_1 p mrs).
Proof.
  induction p as [p IH|p IH|]; intros mrs Hm; simpl.
  - by apply IH, IH, shr_1_nonneg.
  - by apply IH, IH.
  - by apply shr_1_nonneg.
Qed.

Lemma iter_shr_1_m p : forall mrs,
  0 <= shr_m mrs ->
  shr_m (SpecFloat.iter_pos shr_1 p mrs) = shr_m mrs / 2 ^ Zpos p.
Proof.
  induction p as [p IH|p IH|]; intros mrs Hm; simpl.
  - rewrite IH by (by apply iter_shr_1_nonneg, shr_1_nonneg).
    rewrite IH by (by apply shr_1_nonneg).
    rewrite shr_1_m by done.
    rewrite !Z.div_div by lia. f_equal.
    rewrite Pos2Z.inj_xI.
    replace (2 * Zpos p + 1) with (1 + Zpos p + Zpos p) by lia.
    rewrite !Z.pow_add_r by lia. lia.
  - rewrite IH by (by apply iter_shr_1_nonneg).
    rewrite IH by done.
    rewrite !Z.div_div by lia. f_equal.
    rewrite Pos2Z.inj_xO, <- Z.pow_add_r by lia. f_equal. lia.
  - by rewrite shr_1_m.
Qed.

(** ** Rounding never reaches an infinity on small magnitudes *)

Lemma fexp_eq k : fexp prec emax k = Z.max (k - 53) (-1074).
Proof. reflexivity. Qed.

Lemma shr_record_of_loc_m m l : shr_m (shr_record_of_loc m l) = m.
Proof. by destruct l as [|[]]. Qed.

Lemma shr_fexp_spec m e l :
  0 <= m ->
  exists mrs e',
    shr_fexp prec emax m e l = (mrs, e') /\
    0 <= shr_m mrs /\
    e' = Z.max e (fexp prec emax (Zdigits2 m + e)) /\
    Zdigits2 (shr_m mrs) + e' <= Z.max (Zdigits2 m + e) e'.
Proof.
  intros Hm. unfold shr_fexp, shr.
  destruct (fexp prec emax (Zdigits2 m + e) - e) as [|p|p] eqn:Hn.
  - do 2 eexists. split; [reflexivity|].
    rewrite shr_record_of_loc_m. repeat split; lia.
  - do 2 eexists. split; [reflexivity|].
    rewrite iter_shr_1_m by (by rewrite shr_record_of_loc_m).
    rewrite shr_record_of_loc_m.
    pose proof (Zdigits2_div_pow2 m (Zpos p) Hm ltac:(lia)).
    repeat split; [apply Z.div_pos; lia|lia|lia].
  - do 2 eexists. split; [reflexivity|].
    rewrite shr_record_of_loc_m. repeat split; lia.
Qed.

Lemma round_nearest_even_bounds m l :
  m <= round_nearest_even m l <= m + 1.
Proof.
  unfold round_nearest_even. destruct l as [|[]]; try lia.
  destruct (Z.even m); lia.
Qed.

Lemma Zdigits2_round m l :
  0 <= m -> Zdigits2 (round_nearest_even m l) <= Zdigits2 m + 1.
Proof.
  intros Hm. pose proof (round_nearest_even_bounds m l).
  pose proof (Zdigits2_nonneg m). pose proof (Zdigits2_lt_pow m Hm).
  apply Zdigits2_le; [lia|lia|].
  rewrite Z.pow_add_r by lia. lia.
Qed.

Lemma mag_le_mono k k' f : mag_le k f -> k <= k' -> mag_le k' f.
Proof. destruct f; simpl; try done. lia. Qed.

Lemma mag_le_finite k f : mag_le k f -> is_finite f = true.
Proof. by destruct f. Qed.

Lemma binary_round_aux_mag sx m e l :
  0 <= m -> e <= 971 -> Zdigits2 m + e <= 1023 ->
  mag_le (Z.max (Zdigits2 m + e) (-1074) + 1) (binary_round_aux prec emax sx m e l).
Proof.
  intros Hm He Hmag. unfold binary_round_aux.
  destruct (shr_fexp_spec m e l Hm) as (mrs1 & e1 & -> & Hm1 & He1 & Hd1).
  set (m2 := round_nearest_even (shr_m mrs1) (loc_of_shr_record mrs1)).
  assert (0 <= m2) as Hm2.
  { pose proof (round_nearest_even_bounds (shr_m mrs1) (loc_of_shr_record mrs1)).
    unfold m2. lia. }
  pose proof (Zdigits2_round (shr_m mrs1) (loc_of_shr_record mrs1) Hm1) as Hd2.
  fold m2 in Hd2.
  destruct (shr_fexp_spec m2 e1 loc_Exact Hm2) as (mrs3 & e3 & -> & Hm3 & He3 & Hd3).
  rewrite fexp_eq in He1, He3.
  pose proof (Zdigits2_nonneg m). pose proof (Zdigits2_nonneg (shr_m mrs1)).
  destruct (shr_m mrs3) as [|p|p] eqn:Hp; simpl; [done| |lia].
  assert (e3 <= 971) as He3' by lia.
  change (emax - prec) with 971.
  destruct (Z.leb_spec e3 971); [|lia]. simpl in *. lia.
Qed.

Lemma pos_iter_xO p d : Zpos (Pos.iter xO p d) = Zpos p * 2 ^ Zpos d.
Proof.
  induction d as [|d IH] using Pos.peano_ind.
  - simpl. lia.
  - rewrite Pos.iter_succ, Pos2Z.inj_xO, IH, Pos2Z.inj_succ, Z.pow_succ_r by lia.
    lia.
Qed.

Lemma shl_align_spec p e e' :
  exists mz ez,
    shl_align p e e' = (mz, ez) /\
    ez = Z.min e e' /\
    Zpos mz = Zpos p * 2 ^ (e - ez).
Proof.
  unfold shl_align. destruct (e' - e) as [|d|d] eqn:Hd.
  - exists p, e. repeat split; [lia|]. rewrite Z.sub_diag. simpl. lia.
  - exists p, e. repeat split; [lia|]. rewrite Z.sub_diag. simpl. lia.
  - exists (Pos.iter xO p d), e'. repeat split; [lia|].
    rewrite pos_iter_xO. f_equal. f_equal. lia.
Qed.

Lemma Zdigits2_abs m : Zdigits2 (Z.abs m) = Zdigits2 m.
Proof. by destruct m. Qed.

Lemma binary_round_mag sx p e :
  Zpos (digits2_pos p) + e <= 1023 ->
  mag_le (Z.max (Zpos (digits2_pos p) + e) (-1074) + 1)
         (binary_round prec emax sx p e).
Proof.
  intros Hmag. unfold binary_round.
  destruct (shl_align_spec p e (fexp prec emax (Zpos (digits2_pos p) + e)))
    as (mz & ez & -> & Hez & Hmz).
  rewrite fexp_eq in Hez.
  assert (Zdigits2 (Zpos mz) + ez <= Zpos (digits2_pos p) + e) as Hd.
  { rewrite Hmz.
    pose proof (Zdigits2_mul_pow2 (Zpos p) (e - ez) ltac:(lia) ltac:(lia)).
    simpl in *. lia. }
  eapply mag_le_mono.
  - apply binary_round_aux_mag; lia.
  - lia.
Qed.

Lemma binary_normalize_mag m e sz :
  Zdigits2 m + e <= 1023 ->
  mag_le (Z.max (Zdigits2 m + e) (-1074) + 1) (binary_normalize prec emax m e sz).
Proof.
  intros Hmag. destruct m as [|p|p]; simpl; [done| |]; by apply binary_round_mag.
Qed.

Lemma of_Z_mag z k :
  0 <= k <= 1023 -> Z.abs z < 2 ^ k -> mag_le (k + 1) (of_Z z).
Proof.
  intros Hk Hz. unfold of_Z.
  assert (Zdigits2 z <= k).
  { rewrite <- Zdigits2_abs. apply Zdigits2_le; lia. }
  eapply mag_le_mono; [apply binary_normalize_mag; lia|lia].
Qed.

Lemma mul_mag x y kx ky :
  mag_le kx x -> mag_le ky y -> kx + ky <= 973 ->
  mag_le (Z.max (kx + ky) (-1074) + 1) (mul x y).
Proof.
  destruct x as [sx| | |sx mx ex], y as [sy| | |sy my ey]; simpl; try done.
  intros Hx Hy Hk. unfold mul, SFmul.
  pose proof (Zdigits2_mul (Zpos mx) (Zpos my) ltac:(lia) ltac:(lia)) as Hd.
  rewrite <- Pos2Z.inj_mul in Hd. simpl in Hd.
  eapply mag_le_mono.
  - apply binary_round_aux_mag; simpl; lia.
  - simpl. lia.
Qed.

Lemma SFdiv_core_binary_spec m1 e1 m2 e2 :
  0 < m1 -> 0 < m2 ->
  exists q e' l,
    SFdiv_core_binary prec emax m1 e1 m2 e2 = (q, e', l) /\
    0 <= q /\ e' <= e1 - e2 /\
    Zdigits2 q + e' <= Zdigits2 m1 + e1 - e2.
Proof.
  intros Hm1 Hm2. unfold SFdiv_core_binary.
  set (e' := Z.min (fexp prec emax (Zdigits2 m1 + e1 - (Zdigits2 m2 + e2))) (e1 - e2)).
  set (s := e1 - e2 - e').
  set (m' := match s with Z.pos _ => Z.shiftl m1 s | 0 => m1 | Z.neg _ => 0 end).
  assert (0 <= s) as Hs by (unfold s, e'; lia).
  assert (m' = m1 * 2 ^ s) as Hm'.
  { unfold m'. destruct s as [|p|p]; [simpl; lia| |lia].
    by rewrite Z.shiftl_mul_pow2. }
  destruct (Z.div_eucl m' m2) as [q r] eqn:Hqr.
  assert (q = m' / m2) as Hq by (unfold Z.div; by rewrite Hqr).
  assert (0 <= m') by (rewrite Hm'; apply Z.mul_nonneg_nonneg; lia).
  assert (0 <= q) by (rewrite Hq; apply Z.div_pos; lia).
  assert (q <= m') by (rewrite Hq; apply Z.div_le_upper_bound; nia).
  exists q, e', (new_location m2 r). repeat split; [done|unfold e'; lia|].
  pose proof (Zdigits2_mono q m' ltac:(lia)).
  pose proof (Zdigits2_mul_pow2 m1 s ltac:(lia) Hs).
  rewrite <- Hm' in *. unfold s in *. lia.
Qed.

Lemma div_mag x sy my ey kx :
  mag_le kx x -> kx - ey <= 972 ->
  mag_le (Z.max (kx - ey) (-1074) + 1) (div x (S754_finite sy my ey)).
Proof.
  destruct x as [sx| | |sx mx ex]; simpl; try done.
  intros Hx Hk. unfold div, SFdiv.
  destruct (SFdiv_core_binary_spec (Zpos mx) ex (Zpos my) ey)
    as (q & e' & l & -> & Hq & He' & Hd); [lia|lia|].
  simpl in Hd.
  eapply mag_le_mono.
  - apply binary_round_aux_mag; lia.
  - lia.
Qed.

Lemma Zdigits2_cond_Zopp b m : Zdigits2 (cond_Zopp b m) = Zdigits2 m.
Proof. destruct b, m; reflexivity. Qed.

Lemma add_mag x y k :
  mag_le k x -> mag_le k y -> k <= 1021 ->
  mag_le (Z.max (k + 1) (-1074) + 1) (add x y).
Proof.
  destruct x as [sx| | |sx mx ex], y as [sy| | |sy my ey]; simpl; try done.
  - intros _ _ _. by destruct sx, sy.
  - intros _ Hy _. lia.
  - intros Hx _ _. lia.
  - intros Hx Hy Hk. unfold add, SFadd.
    set (ez := Z.min ex ey).
    destruct (shl_align_spec mx ex ez) as (ax & ezx & -> & Hezx & Hax).
    destruct (shl_align_spec my ey ez) as (ay & ezy & -> & Hezy & Hay).
    cbn [fst].
    set (sum := cond_Zopp sx (Zpos ax) + cond_Zopp sy (Zpos ay)).
    assert (Zdigits2 sum <= k - ez + 1) as Hsum.
    { rewrite <- Zdigits2_abs.
      assert (Z.abs sum <= Zpos ax + Zpos ay) as Habs
        by (unfold sum; destruct sx, sy; simpl; lia).
      etransitivity; [apply (Zdigits2_mono _ (Zpos ax + Zpos ay)); lia|].
      pose proof (Zdigits2_mul_pow2 (Zpos mx) (ex - ezx) ltac:(lia) ltac:(lia)).
      pose proof (Zdigits2_mul_pow2 (Zpos my) (ey - ezy) ltac:(lia) ltac:(lia)).
      rewrite <- Hax in H. rewrite <- Hay in H0. simpl in H, H0.
      apply Zdigits2_add; simpl; lia. }
    eapply mag_le_mono; [apply binary_normalize_mag; lia|lia].
Qed.

Lemma fmod_mag x sy my ey :
  is_finite x = true ->
  Zpos (digits2_pos my) + ey <= 1023 ->
  mag_le (Z.max (Zpos (digits2_pos my) + ey) (-1074) + 1)
         (fmod x (S754_finite sy my ey)).
Proof.
  destruct x as [sx| | |sx mx ex]; simpl; try done.
  intros _ Hy.
  set (e := Z.min ex ey).
  set (X := Zpos mx * 2 ^ (ex - e)).
  set (Y := Zpos my * 2 ^ (ey - e)).
  assert (0 < Y) as HY by (unfold Y; apply Z.mul_pos_pos; [lia|apply Z.pow_pos_nonneg; lia]).
  pose proof (Z.mod_pos_bound X Y HY) as HR.
  assert (Zdigits2 (cond_Zopp sx (X mod Y)) + e <= Zpos (digits2_pos my) + ey).
  { rewrite Zdigits2_cond_Zopp.
    pose proof (Zdigits2_mono (X mod Y) Y ltac:(lia)).
    pose proof (Zdigits2_mul_pow2 (Zpos my) (ey - e) ltac:(lia) ltac:(lia)).
    fold Y in H0. simpl in *. lia. }
  eapply mag_le_mono; [apply binary_normalize_mag; lia|lia].
Qed.

Lemma two_pi_bits : two_pi = S754_finite false 7074237752028440 (-50).
Proof. reflexivity. Qed.

(** The remainder by [2 * math.pi] of a finite double is a double below 64. *)
Lemma float_rem_two_pi_mag f :
  is_finite f = true ->
  exists theta, float_rem f two_pi = inr theta /\ mag_le 6 theta.
Proof.
  intros Hf. unfold float_rem. rewrite two_pi_bits.
  change (eqb (S754_finite false 7074237752028440 (-50)) zero) with false.
  cbv iota.
  pose proof (fmod_mag f false 7074237752028440 (-50) Hf ltac:(simpl; lia)) as Hmd.
  change (Z.max (Zpos (digits2_pos 7074237752028440) + -50) (-1074) + 1) with 4 in Hmd.
  set (md := fmod f (S754_finite false 7074237752028440 (-50))) in *.
  destruct (negb (eqb md zero)).
  - destruct (xorb _ _).
    + eexists. split; [reflexivity|].
      apply (add_mag md (S754_finite false 7074237752028440 (-50)) 4);
        [done|simpl; lia|lia].
    + eexists. split; [reflexivity|]. eapply mag_le_mono; [exact Hmd|lia].
  - eexists. split; [reflexivity|]. done.
Qed.

Lemma trunc_mag k f : mag_le k f -> exists z, trunc f = inr z.
Proof. destruct f; simpl; try done; eauto. Qed.

Lemma of_int_mag z k :
  0 <= k <= 1023 -> Z.abs z < 2 ^ k ->
  exists f, of_int z = inr f /\ mag_le (k + 1) f.
Proof.
  intros Hk Hz. pose proof (of_Z_mag z k Hk Hz) as Hm. unfold of_int.
  destruct (of_Z z); simpl in Hm; try done; eauto.
Qed.

Lemma of_int_finite z f : of_int z = inr f -> is_finite f = true.
Proof. unfold of_int. destruct (of_Z z); by intros [= <-]. Qed.

(** ** Integers below [2 ^ 53] are doubles, and [1.0] is neutral on them *)

Lemma binary_round_aux_exact s m e :
  Zpos (digits2_pos m) = 53 -> -1074 <= e <= 971 ->
  binary_round_aux prec emax s (Zpos m) e loc_Exact = S754_finite s m e.
Proof.
  intros Hd He.
  assert (Hn : fexp prec emax (Zdigits2 (Zpos m) + e) - e = 0).
  { rewrite fexp_eq. simpl. lia. }
  unfold binary_round_aux, shr_fexp. rewrite Hn. cbn [shr shr_record_of_loc].
  cbn [shr_m loc_of_shr_record round_nearest_even]. rewrite Hn. cbn [shr shr_m].
  change (emax - prec) with 971.
  destruct (Z.leb_spec e 971); [done|lia].
Qed.

Lemma shr_52 m :
  SpecFloat.iter_pos shr_1 52
    {| shr_m := Zpos (4503599627370496 * m); shr_r := false; shr_s := false |}
  = {| shr_m := Zpos m; shr_r := false; shr_s := false |}.
Proof. reflexivity. Qed.

Lemma digits2_pos_iter_xO m d :
  digits2_pos (Pos.iter xO m d) = (digits2_pos m + d)%positive.
Proof.
  induction d as [|d IH] using Pos.peano_ind.
  - simpl. lia.
  - rewrite Pos.iter_succ. simpl. rewrite IH. lia.
Qed.

Lemma digits2_pos_shift52 m :
  Zpos (digits2_pos (4503599627370496 * m)) = Zpos (digits2_pos m) + 52.
Proof.
  change (4503599627370496 * m)%positive with (Pos.iter xO m 52).
  rewrite digits2_pos_iter_xO. lia.
Qed.

Lemma mul_one_exact s m e :
  Zpos (digits2_pos m) = 53 -> -1074 <= e <= 971 ->
  mul one (S754_finite s m e) = S754_finite s m e.
Proof.
  intros Hd He. unfold mul, one, SFmul. cbn [xorb].
  assert (Hn : fexp prec emax (Zdigits2 (Zpos (4503599627370496 * m)) + (-52 + e))
               - (-52 + e) = 52).
  { rewrite fexp_eq. cbn [Zdigits2]. rewrite digits2_pos_shift52. lia. }
  unfold binary_round_aux, shr_fexp at 1. rewrite Hn.
  cbn [shr shr_record_of_loc]. rewrite shr_52.
  cbn [shr_m loc_of_shr_record round_nearest_even].
  replace (-52 + e + 52) with e by lia.
  assert (Hn' : fexp prec emax (Zdigits2 (Zpos m) + e) - e = 0).
  { rewrite fexp_eq. simpl. lia. }
  unfold shr_fexp. rewrite Hn'. cbn [shr shr_record_of_loc shr_m].
  change (emax - prec) with 971.
  destruct (Z.leb_spec e 971); [done|lia].
Qed.

Lemma Zdigits2_mul_pow2_eq m n :
  0 < m -> 0 <= n -> Zdigits2 (m * 2 ^ n) = Zdigits2 m + n.
Proof.
  intros Hm Hn. apply Z.le_antisymm; [apply Zdigits2_mul_pow2; lia|].
  destruct m as [|p|p]; try lia.
  pose proof (digits2_pos_bounds p) as [Hlo _].
  assert (0 < 2 ^ n) by (apply Z.pow_pos_nonneg; lia).
  pose proof (Zdigits2_lt_pow (Zpos p * 2 ^ n) ltac:(lia)) as Hup.
  pose proof (Zdigits2_nonneg (Zpos p * 2 ^ n)).
  assert (2 ^ (Zpos (digits2_pos p) - 1 + n) < 2 ^ Zdigits2 (Zpos p * 2 ^ n)) as Hpow.
  { rewrite Z.pow_add_r by lia. nia. }
  apply Z.pow_lt_mono_r_iff in Hpow; [|lia|lia]. simpl. lia.
Qed.

Lemma of_Z_exact z :
  1 <= z < 2 ^ 53 ->
  exists m e,
    of_Z z = S754_finite false m e /\
    Zpos (digits2_pos m) = 53 /\ -52 <= e <= 0 /\
    Zpos m = z * 2 ^ (- e).
Proof.
  intros Hz. destruct z as [|p|p]; try lia.
  pose proof (Zdigits2_le (Zpos p) 53 ltac:(lia) ltac:(lia) ltac:(lia)) as Hd.
  simpl in Hd.
  unfold of_Z, binary_normalize, binary_round.
  destruct (shl_align_spec p 0 (fexp prec emax (Zpos (digits2_pos p) + 0)))
    as (m & e & -> & He & Hm).
  rewrite fexp_eq in He.
  assert (e = Zpos (digits2_pos p) - 53) as He' by lia.
  assert (Zpos (digits2_pos m) = 53) as Hdm.
  { pose proof (Zdigits2_mul_pow2_eq (Zpos p) (0 - e) ltac:(lia) ltac:(lia)) as Heq.
    rewrite <- Hm in Heq. simpl in Heq. lia. }
  exists m, e. split; [apply binary_round_aux_exact; lia|].
  repeat split; try lia. rewrite Hm. f_equal; try f_equal; lia.
Qed.

Lemma trunc_of_Z_exact m e z :
  -52 <= e <= 0 -> Zpos m = z * 2 ^ (- e) ->
  trunc (S754_finite false m e) = inr z.
Proof.
  intros He Hm. unfold trunc. cbn [cond_Zopp]. f_equal.
  rewrite Z.shiftl_div_pow2, Hm by lia.
  apply Z.div_mul. apply Z.pow_nonzero; lia.
Qed.

(** ** The wheel sector *)

Lemma wheel_sector_range n angle theta sector :
  1 <= n -> wheel_sector n angle = inr (theta, sector) -> 0 <= sector < n.
Proof.
  intros Hn. unfold wheel_sector, res_bind.
  destruct (py_mod_float angle two_pi) as [|th]; [done|].
  destruct (of_int n) as [|nf]; [done|].
  destruct (trunc _) as [|k]; [done|].
  destruct (n =? 0); [done|].
  intros [= _ <-]. apply Z.mod_pos_bound. lia.
Qed.

Lemma wheel_sector_total n angle f :
  1 <= n < 2 ^ 53 ->
  to_float angle = inr f -> is_finite f = true ->
  exists theta sector,
    wheel_sector n angle = inr (theta, sector) /\ 0 <= sector < n.
Proof.
  intros Hn Hto Hf. unfold wheel_sector, py_mod_float. rewrite Hto.
  cbn [res_bind].
  destruct (float_rem_two_pi_mag f Hf) as (theta & -> & Hth).
  destruct (of_int_mag n 53 ltac:(lia) ltac:(lia)) as (nf & -> & Hnf).
  cbn [res_bind].
  pose proof (div_mag theta false 7074237752028440 (-50) 6 Hth ltac:(lia)) as Hfrac.
  rewrite <- two_pi_bits in Hfrac.
  pose proof (mul_mag _ _ _ _ Hfrac Hnf ltac:(lia)) as Hprod.
  destruct (trunc_mag _ _ Hprod) as [k ->].
  cbn [res_bind].
  destruct (Z.eqb_spec n 0) as [|_]; [lia|].
  exists theta, (k mod n). split; [done|]. apply Z.mod_pos_bound. lia.
Qed.

Lemma wheel_sector_zero n angle :
  1 <= n < 2 ^ 53 ->
  py_mod_float angle two_pi = inr zero ->
  wheel_sector n angle = inr (zero, 0).
Proof.
  intros Hn Hmod. unfold wheel_sector. rewrite Hmod. cbn [res_bind].
  destruct (of_int_mag n 53 ltac:(lia) ltac:(lia)) as (nf & -> & Hnf).
  cbn [res_bind].
  change (div zero two_pi) with zero.
  destruct (Z.eqb_spec n 0) as [|_]; [lia|].
  destruct nf; simpl in Hnf; try done; simpl; by rewrite Z.mod_0_l by lia.
Qed.

(** At [theta = 2 * math.pi] the fraction is [1.0], [int(frac * n)] is [n],
    and the modulo makes it 0. *)
Lemma wheel_sector_full_turn n angle :
  1 <= n < 2 ^ 53 ->
  py_mod_float angle two_pi = inr two_pi ->
  (exists nf, of_int n = inr nf /\ trunc (mul (div two_pi two_pi) nf) = inr n) /\
  wheel_sector n angle = inr (two_pi, 0).
Proof.
  intros Hn Hmod.
  destruct (of_Z_exact n Hn) as (m & e & Hof & Hd & He & Hm).
  assert (of_int n = inr (S754_finite false m e)) as Hint
    by (unfold of_int; by rewrite Hof).
  assert (trunc (mul (div two_pi two_pi) (S754_finite false m e)) = inr n) as Htr.
  { change (div two_pi two_pi) with one.
    rewrite mul_one_exact by lia. by apply trunc_of_Z_exact. }
  split; [eauto|].
  unfold wheel_sector. rewrite Hmod. cbn [res_bind]. rewrite Hint.
  cbn [res_bind]. rewrite Htr. cbn [res_bind].
  destruct (Z.eqb_spec n 0) as [|_]; [lia|].
  by rewrite Z.mod_same by lia.
Qed.

End FloatFacts.

(** C2: on a wheel of [n >= 1] sectors, whatever [wheel_sector] returns is a
    sector in [0, n).  For [n < 2 ^ 53], the sizes a double holds exactly, it
    returns one for every angle that is a finite double or an int that
    converts to one, negative ones included; the angles [0], [0.0] and
    [-0.0] give sector 0; and the angle just below zero has
    [theta = 2 * math.pi], whose fraction is exactly [1.0], for which
    [int(frac * n)] is [n] and the modulo gives sector 0. *)
Theorem wheel_sector_in_range (n : Z) :
  1 <= n ->
  (forall angle theta sector,
     wheel_sector n angle = inr (theta, sector) -> 0 <= sector < n) /\
  (n < 2 ^ 53 ->
   (forall angle f,
      to_float angle = inr f -> Float64.is_finite f = true ->
      exists theta sector,
        wheel_sector n angle = inr (theta, sector) /\ 0 <= sector < n) /\
   wheel_sector n (PInt 0) = inr (Float64.zero, 0) /\
   wheel_sector n (PFloat (S754_zero false)) = inr (Float64.zero, 0) /\
   wheel_sector n (PFloat (S754_zero true)) = inr (Float64.zero, 0) /\
   py_mod_float (PFloat (S754_finite true 1 (-1074))) Float64.two_pi
     = inr Float64.two_pi /\
   Float64.div Float64.two_pi Float64.two_pi = Float64.one /\
   (exists nf,
      Float64.of_int n = inr nf /\
      Float64.trunc (Float64.mul (Float64.div Float64.two_pi Float64.two_pi) nf)
        = inr n) /\
   wheel_sector n (PFloat (S754_finite true 1 (-1074))) = inr (Float64.two_pi, 0)).
Proof.
  intros Hn.
  assert (Hfull : py_mod_float (PFloat (S754_finite true 1 (-1074))) Float64.two_pi
                  = inr Float64.two_pi) by (vm_compute; reflexivity).
  split; [intros angle theta sector; by apply FloatFacts.wheel_sector_range|].
  intros Hlt. assert (1 <= n < 2 ^ 53) as Hn' by lia.
  split; [intros angle f; by apply FloatFacts.wheel_sector_total|].
  split; [by apply FloatFacts.wheel_sector_zero|].
  split; [by apply FloatFacts.wheel_sector_zero|].
  split; [by apply FloatFacts.wheel_sector_zero|].
  split; [exact Hfull|].
  split; [reflexivity|].
  by apply FloatFacts.wheel_sector_full_turn.
Qed.

Lemma wheel_sector_in_range_witness :
  1 <= NUM_WHEEL_SECTORS < 2 ^ 53 /\
  (forall angle theta sector,
     wheel_sector NUM_WHEEL_SECTORS angle = inr (theta, sector) ->
     0 <= sector < NUM_WHEEL_SECTORS) /\
  wheel_sector NUM_WHEEL_SECTORS (PInt 0) = inr (Float64.zero, 0) /\
  wheel_sector NUM_WHEEL_SECTORS (PFloat (S754_finite true 1 (-1074)))
    = inr (Float64.two_pi, 0).
Proof.
  assert (H : 1 <= NUM_WHEEL_SECTORS < 2 ^ 53)
    by (unfold NUM_WHEEL_SECTORS; simpl; lia).
  split; [exact H|].
  destruct (wheel_sector_in_range NUM_WHEEL_SECTORS (proj1 H)) as (Hrange & Hrest).
  destruct (Hrest (proj2 H)) as (_ & Hzero & _ & _ & _ & _ & _ & Hfull).
  split; [exact Hrange|]. split; [exact Hzero | exact Hfull].
Defined.

(** The wheel of the program at some angles: the simulation's 3.14, its
    negative, and the largest double, as Python computes them. *)
Example wheel_sector_samples :
  res_bind (wheel_sector NUM_WHEEL_SECTORS (PFloat (Float64.decimal 314 100)))
           (fun ts => inr (snd ts)) = inr 4 /\
  res_bind (wheel_sector NUM_WHEEL_SECTORS (PFloat (Float64.decimal (-314) 100)))
           (fun ts => inr (snd ts)) = inr 5 /\
  res_bind (wheel_sector NUM_WHEEL_SECTORS
              (PFloat (S754_finite false 9007199254740991 971)))
           (fun ts => inr (snd ts)) = inr 0.
Proof. repeat split; vm_compute; reflexivity. Qed.

(** A NaN and the infinities are not angles: [int()] raises on them. *)
Example wheel_sector_not_a_number :
  wheel_sector NUM_WHEEL_SECTORS (PFloat S754_nan) = inl ValueError /\
  wheel_sector NUM_WHEEL_SECTORS (PFloat (S754_infinity false)) = inl ValueError /\
  wheel_sector NUM_WHEEL_SECTORS (PFloat (S754_infinity true)) = inl ValueError.
Proof. repeat split; vm_compute; reflexivity. Qed.

(** * Further properties *)

(** ** The Broadcast Hub, whatever the state of its clients *)

Module HubFacts.

Lemma can_send_after_broadcast obj w w' c :
  broadcast obj w = Ok tt w' -> can_send (sockets w') c = can_send (sockets w) c.
Proof.
  rewrite Hub.broadcast_spec. intros [= <-]. simpl. apply Hub.can_send_deliver.
Qed.

(** [broadcast] returns normally whatever the clients; the clients that can
    be sent to stay, in their order, and all the others leave, however many
    there are; the registry and the log are not touched, and no socket
    becomes sendable or stops being so.  Without clients the state is left
    as it is. *)
Theorem broadcast_keeps_sendable (obj : json) (w : world) :
  (exists w',
     broadcast obj w = Ok tt w' /\
     clients w' = filter (fun c => can_send (sockets w) c = true) (clients w) /\
     latest_objects w' = latest_objects w /\
     log w' = log w /\
     forall c, can_send (sockets w') c = can_send (sockets w) c) /\
  broadcast obj (set_clients [] w) = Ok tt (set_clients [] w).
Proof.
  split.
  - eexists. split; [apply Hub.broadcast_spec|]. simpl.
    repeat split. intros c. apply Hub.can_send_deliver.
  - rewrite Hub.broadcast_spec. by destruct w.
Qed.

(** After one [broadcast] every client left can be sent to, so the next
    [broadcast] removes nobody. *)
Theorem broadcast_then_stable (obj1 obj2 : json) (w : world) :
  exists w1 w2,
    broadcast obj1 w = Ok tt w1 /\
    broadcast obj2 w1 = Ok tt w2 /\
    Forall (fun c => can_send (sockets w1) c = true) (clients w1) /\
    clients w2 = clients w1.
Proof.
  do 2 eexists. split; [apply Hub.broadcast_spec|].
  split; [apply Hub.broadcast_spec|]. simpl.
  assert (Hall : Forall (fun c => can_send (deliver obj1 (clients w) (sockets w)) c = true)
                   (filter (fun c => can_send (sockets w) c = true) (clients w))).
  { apply Forall_forall. intros c [Hc _]%list_elem_of_filter.
    by rewrite Hub.can_send_deliver. }
  split; [done|].
  induction (filter _ (clients w)) as [|a l IH]; [done|].
  apply Forall_cons in Hall as [Ha Hl].
  rewrite filter_cons, decide_True by done. f_equal. by apply IH.
Qed.

Lemma deliver_flags data cs : forall ss c s,
  ss !! c = Some s ->
  exists s', deliver data cs ss !! c = Some s' /\ socket_grows s s'.
Proof.
  induction cs as [|c0 cs IH]; intros ss c s Hs; simpl.
  - exists s. split; [done|]. by repeat split.
  - assert (exists s1, deliver1 data ss c0 !! c = Some s1 /\ socket_grows s s1)
      as (s1 & Hs1 & Hg1).
    { unfold deliver1. destruct (ss !! c0) as [s0|] eqn:H0.
      - destruct (can_send ss c0).
        + destruct (decide (c0 = c)) as [->|Hne].
          * rewrite lookup_insert_eq. eexists. split; [done|].
            rewrite Hs in H0. injection H0 as <-.
            repeat split. by apply prefix_app_r.
          * rewrite lookup_insert_ne by done. exists s. by repeat split.
        + exists s. by repeat split.
      - exists s. by repeat split. }
    destruct (IH _ _ _ Hs1) as (s' & Hs' & Hg').
    exists s'. split; [done|].
    destruct Hg1 as (? & ? & ?), Hg' as (? & ? & ?).
    repeat split; [congruence|congruence|by etrans].
Qed.

Lemma deliver_none data cs : forall ss c,
  ss !! c = None -> deliver data cs ss !! c = None.
Proof.
  induction cs as [|c0 cs IH]; intros ss c Hs; simpl; [done|].
  apply IH. unfold deliver1. destruct (ss !! c0) eqn:H0; [|done].
  destruct (can_send ss c0); [|done].
  rewrite lookup_insert_ne; [done|]. intros ->. congruence.
Qed.


(** Messages reach a client in the order they were published: a client that
    can be sent to has the messages of any sequence of [broadcast]s
    appended, in order, to what it was sent before, and is still a client
    afterwards. *)
Theorem broadcast_all_in_order (objs : list json) : forall (w : world) (c : conn) (s : socket),
  NoDup (clients w) ->
  c ∈ clients w ->
  sockets w !! c = Some s ->
  can_send (sockets w) c = true ->
  exists w',
    broadcast_all objs w = Ok tt w' /\
    sockets w' !! c
      = Some (mkSocket (sock_healthy s) (sock_closed s) (sock_sent s ++ objs)) /\
    c ∈ clients w'.
Proof.
  induction objs as [|obj objs IH]; intros w c s Hnd Hin Hs Hc; simpl.
  - exists w. split; [done|]. rewrite app_nil_r. by destruct s.
  - unfold bind. rewrite Hub.broadcast_spec.
    set (w1 := set_clients _ _).
    destruct (IH w1 c (pushed obj s)) as (w' & Hrun & Hs' & Hin').
    + simpl. by apply NoDup_filter.
    + simpl. by apply list_elem_of_filter.
    + simpl. by apply Hub.deliver_once.
    + simpl. by rewrite Hub.can_send_deliver.
    + exists w'. split; [done|]. split; [|done].
      rewrite Hs'. simpl. by rewrite <- app_assoc.
Qed.

Lemma broadcast_all_in_order_witness :
  exists w',
    broadcast_all [msg_back_pressed; msg_tuio_obj (rec_select Add)] hub3 = Ok tt w' /\
    sockets w' !! 2%nat
      = Some (mkSocket true false [msg_back_pressed; msg_tuio_obj (rec_select Add)]) /\
    2%nat ∈ clients w'.
Proof.
  apply (broadcast_all_in_order
           [msg_back_pressed; msg_tuio_obj (rec_select Add)] hub3 2%nat fresh_socket).
  - by apply (bool_decide_unpack _).
  - by apply (bool_decide_unpack _).
  - reflexivity.
  - reflexivity.
Defined.

(** [broadcast] sends to the sockets of [clients] only: a socket that is not
    in the list is left as it is. *)
Theorem broadcast_skips_unregistered (obj : json) (w : world) (c : conn) :
  c ∉ clients w ->
  exists w', broadcast obj w = Ok tt w' /\ sockets w' !! c = sockets w !! c.
Proof.
  intros Hc. eexists. split; [apply Hub.broadcast_spec|]. simpl.
  by apply Hub.deliver_not_in.
Qed.

Lemma broadcast_skips_unregistered_witness :
  exists w',
    broadcast msg_back_pressed (set_clients [0%nat] hub3) = Ok tt w' /\
    sockets w' !! 2%nat = Some fresh_socket.
Proof.
  apply (broadcast_skips_unregistered msg_back_pressed (set_clients [0%nat] hub3) 2%nat).
  by apply (bool_decide_unpack _).
Defined.

(** ** What no statement of the ingestion path does to the hub *)

Lemma socket_grows_refl s : socket_grows s s.
Proof. by repeat split. Qed.

Lemma socket_grows_trans s1 s2 s3 :
  socket_grows s1 s2 -> socket_grows s2 s3 -> socket_grows s1 s3.
Proof.
  intros (? & ? & ?) (? & ? & ?). repeat split; [congruence|congruence|by etrans].
Qed.

Lemma hub_grows_refl w : hub_grows w w.
Proof.
  split; [done|]. intros c. destruct (sockets w !! c) as [s|]; [|done].
  exists s. split; [done|apply socket_grows_refl].
Qed.

Lemma hub_grows_trans w1 w2 w3 :
  hub_grows w1 w2 -> hub_grows w2 w3 -> hub_grows w1 w3.
Proof.
  intros [Hc12 Hs12] [Hc23 Hs23]. split; [by etrans|].
  intros c. specialize (Hs12 c). specialize (Hs23 c).
  destruct (sockets w1 !! c) as [s1|].
  - destruct Hs12 as (s2 & Hs2 & Hg12). rewrite Hs2 in Hs23.
    destruct Hs23 as (s3 & Hs3 & Hg23). exists s3. split; [done|].
    by eapply socket_grows_trans.
  - by rewrite Hs12 in Hs23.
Qed.

Lemma only_grows_ret {A} (a : A) : only_grows (ret a).
Proof. intros w. apply hub_grows_refl. Qed.

Lemma only_grows_lift {A} (r : res A) : only_grows (lift r).
Proof. destruct r; intros w; apply hub_grows_refl. Qed.

Lemma only_grows_bind {A B} (c : M A) (k : A -> M B) :
  only_grows c -> (forall a, only_grows (k a)) -> only_grows (bind c k).
Proof.
  intros Hc Hk w. unfold bind. specialize (Hc w).
  destruct (c w) as [a w'|e w']; simpl in *; [|done].
  eapply hub_grows_trans; [exact Hc|apply Hk].
Qed.

Lemma only_grows_when (b : bool) (c : M unit) : only_grows c -> only_grows (when b c).
Proof. destruct b; [done|]. intros _. apply only_grows_ret. Qed.

Lemma only_grows_modify_registry (f : world -> world) :
  (forall w, clients (f w) = clients w /\ sockets (f w) = sockets w) ->
  only_grows (modify f).
Proof.
  intros Hf w. simpl. destruct (Hf w) as [Hc Hs]. split.
  - by rewrite Hc.
  - intros c. rewrite Hs. destruct (sockets w !! c) as [s|]; [|done].
    exists s. split; [done|apply socket_grows_refl].
Qed.

Lemma only_grows_logger (m : log_msg) : only_grows (logger m).
Proof. by apply only_grows_modify_registry. Qed.

Lemma only_grows_get_world : only_grows get_world.
Proof. intros w. apply hub_grows_refl. Qed.

Lemma only_grows_broadcast (obj : json) : only_grows (broadcast obj).
Proof.
  intros w. rewrite Hub.broadcast_spec. simpl. split; simpl.
  - apply sublist_filter.
  - intros c. destruct (sockets w !! c) as [s|] eqn:Hs.
    + by apply deliver_flags.
    + by apply deliver_none.
Qed.


(** ** The end of a client's reader *)

Lemma list_remove_elem (c : conn) (l : list conn) :
  c ∈ l -> exists r, list_remove c l = Some r /\ r `sublist_of` l /\ S (length r) = length l.
Proof.
  induction l as [|a l IH]; intros Hin; [by apply elem_of_nil in Hin|].
  simpl. destruct (decide (c = a)) as [->|Hne].
  - exists l. split; [done|]. split; [by apply sublist_cons|done].
  - apply elem_of_cons in Hin as [?|Hin]; [done|].
    destruct (IH Hin) as (r & -> & Hsub & Hlen).
    exists (a :: r). split; [done|]. split; [by apply sublist_skip|].
    simpl. by rewrite Hlen.
Qed.

Lemma close_spec (c : conn) (w : world) :
  exists w',
    close c w = Ok tt w' /\
    clients w' = clients w /\ latest_objects w' = latest_objects w /\
    log w' = log w /\
    can_send (sockets w') c = false /\
    forall c', c' <> c -> sockets w' !! c' = sockets w !! c'.
Proof.
  unfold close. destruct (sockets w !! c) as [s|] eqn:Hs.
  - eexists. split; [done|]. simpl. repeat split.
    + unfold can_send. rewrite lookup_insert_eq. simpl. apply andb_false_r.
    + intros c' Hne. by rewrite lookup_insert_ne.
  - exists w. split; [done|]. repeat split. unfold can_send. by rewrite Hs.
Qed.

Lemma reader_finally_run (c : conn) (w : world) :
  exists cs' w',
    client_reader_thread_finally c w = Ok tt w' /\
    (c ∈ clients w -> list_remove c (clients w) = Some cs') /\
    (c ∉ clients w -> cs' = clients w) /\
    clients w' = cs' /\
    latest_objects w' = latest_objects w /\
    log w' = log w ++ [Info_client_disconnected c] /\
    can_send (sockets w') c = false /\
    forall c', c' <> c -> sockets w' !! c' = sockets w !! c'.
Proof.
  unfold client_reader_thread_finally, bind, get_world, when.
  destruct (bool_decide (c ∈ clients w)) eqn:Hb.
  - apply bool_decide_eq_true in Hb.
    destruct (list_remove_elem c (clients w) Hb) as (r & Hr & _ & _).
    unfold clients_remove. rewrite Hr.
    destruct (close_spec c (set_clients r w)) as (w1 & -> & Hc & Hl & Hg & Hcan & Hoth).
    exists r. eexists. split; [reflexivity|]. simpl.
    repeat split; try done; try congruence; by rewrite ?Hg, ?Hc, ?Hl.
  - apply bool_decide_eq_false in Hb. unfold ret.
    destruct (close_spec c w) as (w1 & -> & Hc & Hl & Hg & Hcan & Hoth).
    exists (clients w). eexists. split; [reflexivity|]. simpl.
    repeat split; try done; try congruence; by rewrite ?Hg, ?Hc, ?Hl.
Qed.

Lemma reader_finally_closes (c : conn) (w w' : world) :
  client_reader_thread_finally c w = Ok tt w' ->
  sockets w' !! c = closed <$> sockets w !! c /\
  log w' = log w ++ [Info_client_disconnected c].
Proof.
  unfold client_reader_thread_finally, bind, get_world, when, close, logger, modify.
  destruct (bool_decide (c ∈ clients w)).
  - unfold clients_remove. destruct (list_remove c (clients w)); [|done]. simpl.
    destruct (sockets w !! c) as [s|] eqn:Hs; intros [= <-]; simpl.
    + by rewrite lookup_insert_eq.
    + by rewrite Hs.
  - unfold ret. destruct (sockets w !! c) as [s|] eqn:Hs; intros [= <-]; simpl.
    + by rewrite lookup_insert_eq.
    + by rewrite Hs.
Qed.

(** The [finally] block of a reader whose connection is not in [clients]
    (a [broadcast] already removed it): nothing is raised, [clients] is left
    as it is, the socket of the connection is closed (its [closed] flag is
    set, whatever it was, and the lines it was sent are kept), the
    disconnection is logged and the other sockets are not touched. *)
Theorem reader_finally_absent (c : conn) (w : world) :
  c ∉ clients w ->
  exists w',
    client_reader_thread_finally c w = Ok tt w' /\
    clients w' = clients w /\
    sockets w' !! c = closed <$> sockets w !! c /\
    log w' = log w ++ [Info_client_disconnected c] /\
    latest_objects w' = latest_objects w /\
    forall c', c' <> c -> sockets w' !! c' = sockets w !! c'.
Proof.
  intros Habs.
  destruct (reader_finally_run c w)
    as (cs' & w' & Hrun & _ & Hcs & Hcl & Hreg & _ & Hcan & Hoth).
  destruct (reader_finally_closes c w w' Hrun) as [Hclosed Hlog].
  exists w'. split_and!; try done. rewrite Hcl. by apply Hcs.
Qed.

Lemma reader_finally_absent_witness :
  exists w',
    client_reader_thread_finally 1%nat (set_clients [0%nat; 2%nat] hub3) = Ok tt w' /\
    clients w' = [0%nat; 2%nat] /\
    sockets w' !! 1%nat = Some (mkSocket false true []) /\
    log w' = [Info_client_disconnected 1%nat] /\
    latest_objects w' = [] /\
    forall c', c' <> 1%nat -> sockets w' !! c' = sockets hub3 !! c'.
Proof.
  apply (reader_finally_absent 1%nat (set_clients [0%nat; 2%nat] hub3)).
  by apply (bool_decide_unpack _).
Defined.

(** Once the reader of a connection has ended, the next [broadcast] sends
    nothing to that connection and leaves it out of [clients], whatever the
    state was and however often the connection was registered; the sockets of
    the other connections are not touched by the ending. *)
Theorem reader_finally_silences (c : conn) (obj : json) (w : world) :
  exists w1 w2,
    client_reader_thread_finally c w = Ok tt w1 /\
    broadcast obj w1 = Ok tt w2 /\
    sockets w2 !! c = sockets w1 !! c /\
    (c ∉ clients w2) /\
    forall c', c' <> c -> sockets w1 !! c' = sockets w !! c'.
Proof.
  destruct (reader_finally_run c w)
    as (cs' & w1 & Hrun & _ & _ & _ & _ & _ & Hcan & Hoth).
  exists w1. eexists. split; [done|]. split; [apply Hub.broadcast_spec|].
  simpl. split; [by apply Hub.deliver_cannot|]. split; [|done].
  intros [Hc _]%list_elem_of_filter. congruence.
Qed.

End HubFacts.

(** ** The Selection Engine, rule by rule *)

Section EngineFacts.

Variable hypot : Float64.float -> Float64.float -> res Float64.float.

Lemma medication_symbol_range sid name :
  dict_lookup sid MEDICATION_SYMBOLS = Some name -> 2 <= sid <= 11.
Proof.
  unfold MEDICATION_SYMBOLS. simpl.
  repeat (case_decide; [intros _; lia|]). done.
Qed.

Lemma not_medication_symbol sid :
  dict_lookup sid MEDICATION_SYMBOLS = None ->
  bool_decide (is_Some (dict_lookup sid MEDICATION_SYMBOLS)) = false.
Proof. intros ->. apply bool_decide_eq_false. by intros [? ?]. Qed.

(** Direct pick: on the [add] of a medication token the clients are sent the
    raw message and then [medication_selected] with the name the catalog
    gives the symbol, and nothing after it. *)
Theorem process_logic_direct_pick (rec : record) (name : string) (w : world) :
  r_event rec = Add ->
  dict_lookup (r_symbol_id rec) MEDICATION_SYMBOLS = Some name ->
  process_logic_and_broadcast hypot rec w =
    (broadcast (msg_tuio_obj rec) ;;;
     logger (Info_direct name (r_symbol_id rec)) ;;;
     broadcast (msg_medication_selected name (r_symbol_id rec))) w.
Proof.
  intros Hevt Hmed. pose proof (medication_symbol_range _ _ Hmed) as Hr.
  unfold process_logic_and_broadcast. rewrite Hevt, Hmed.
  rewrite bool_decide_eq_true_2 by eauto.
  destruct (Z.eqb_spec (r_symbol_id rec) ROTATE_SYMBOL) as [E|_];
    [unfold ROTATE_SYMBOL in E; lia|].
  destruct (Z.eqb_spec (r_symbol_id rec) BACK_SYMBOL) as [E|_];
    [unfold BACK_SYMBOL in E; lia|].
  cbn [andb is_add when lift].
  unfold bind, ret, logger, modify.
  repeat (rewrite ?Hub.broadcast_spec; cbv beta iota). reflexivity.
Qed.

(** Back: on the [add] of the back token the clients are sent the raw
    message and then [back_pressed], and nothing after it. *)
Theorem process_logic_back (rec : record) (w : world) :
  r_symbol_id rec = BACK_SYMBOL ->
  r_event rec = Add ->
  process_logic_and_broadcast hypot rec w =
    (broadcast (msg_tuio_obj rec) ;;;
     logger Info_back ;;;
     broadcast msg_back_pressed) w.
Proof.
  intros Hsid Hevt. unfold process_logic_and_broadcast. rewrite Hsid, Hevt.
  change (bool_decide (is_Some (dict_lookup BACK_SYMBOL MEDICATION_SYMBOLS)))
    with false.
  change (BACK_SYMBOL =? ROTATE_SYMBOL) with false.
  change (BACK_SYMBOL =? BACK_SYMBOL) with true.
  cbn [andb is_add when].
  unfold bind, ret, logger, modify.
  repeat (rewrite ?Hub.broadcast_spec; cbv beta iota). reflexivity.
Qed.

(** The raw message is all there is for a [remove] of any token, for an
    [update] of any token but the rotate token, and for an [add] of a token
    that is neither the rotate token, nor the back token, nor in the
    catalog. *)
Theorem process_logic_raw_only (rec : record) (w : world) :
  r_event rec = Remove \/
  (r_event rec = Update /\ r_symbol_id rec <> ROTATE_SYMBOL) \/
  (r_event rec = Add /\ r_symbol_id rec <> ROTATE_SYMBOL /\
   r_symbol_id rec <> BACK_SYMBOL /\
   dict_lookup (r_symbol_id rec) MEDICATION_SYMBOLS = None) ->
  process_logic_and_broadcast hypot rec w = broadcast (msg_tuio_obj rec) w.
Proof.
  intros [Hevt|[[Hevt Hrot]|(Hevt & Hrot & Hback & Hmed)]].
  - by apply process_logic_remove.
  - unfold process_logic_and_broadcast. rewrite Hevt.
    destruct (Z.eqb_spec (r_symbol_id rec) ROTATE_SYMBOL) as [|_]; [done|].
    cbn [is_add is_add_or_update]. rewrite !andb_false_r. cbn [andb when].
    unfold bind, ret. by rewrite Hub.broadcast_spec.
  - unfold process_logic_and_broadcast. rewrite Hevt.
    rewrite not_medication_symbol by done.
    destruct (Z.eqb_spec (r_symbol_id rec) ROTATE_SYMBOL) as [|_]; [done|].
    destruct (Z.eqb_spec (r_symbol_id rec) BACK_SYMBOL) as [|_]; [done|].
    cbn [andb when]. unfold bind, ret. by rewrite Hub.broadcast_spec.
Qed.

Lemma sector_in_catalog angle theta sector :
  wheel_sector NUM_WHEEL_SECTORS angle = inr (theta, sector) ->
  exists name,
    py_index (dict_values MEDICATION_SYMBOLS) sector = inr name /\
    dict_values MEDICATION_SYMBOLS !! Z.to_nat sector = Some name.
Proof.
  intros Hsec.
  apply FloatFacts.wheel_sector_range in Hsec; [|by vm_compute].
  change NUM_WHEEL_SECTORS with 10 in Hsec.
  assert (sector = 0 \/ sector = 1 \/ sector = 2 \/ sector = 3 \/ sector = 4 \/
          sector = 5 \/ sector = 6 \/ sector = 7 \/ sector = 8 \/ sector = 9)
    as Hcases by lia.
  repeat (destruct Hcases as [->|Hcases]; [eexists; split; reflexivity|]).
  subst. eexists; split; reflexivity.
Qed.

Lemma proximity_scan_count
    (items : list (option Z * record)) (rec : record) (sector : Z)
    (name : string) : forall w : world,
  py_index (dict_values MEDICATION_SYMBOLS) sector = inr name ->
  Forall (fun e => r_symbol_id e.2 = SELECT_SYMBOL ->
                   exists b, near hypot rec e.2 = inr b) items ->
  proximity_scan hypot items rec sector w =
    repeatM (length (near_selects hypot rec items)) (confirm sector name) w.
Proof.
  intros w Hname Hall. revert w.
  induction items as [|[k srec] items IH]; intros w; [done|].
  apply Forall_cons in Hall as [Hhd Htl]. specialize (IH Htl).
  unfold near_selects. rewrite filter_cons. fold (near_selects hypot rec items).
  cbn [proximity_scan]. unfold is_near_select. cbn [snd] in *.
  destruct (Z.eqb_spec (r_symbol_id srec) SELECT_SYMBOL) as [Hsel|_].
  - destruct (Hhd Hsel) as [b Hb]. rewrite Hb. cbn [andb when].
    assert (exists dx dy dist,
              py_sub (r_x srec) (r_x rec) = inr dx /\
              py_sub (r_y srec) (r_y rec) = inr dy /\
              math_hypot hypot dx dy = inr dist /\
              Float64.ltb dist PROXIMITY_THRESHOLD = b)
      as (dx & dy & dist & Hdx & Hdy & Hd & Hlt).
    { unfold near, res_bind in Hb.
      destruct (py_sub (r_x srec) (r_x rec)) as [|dx]; [done|].
      destruct (py_sub (r_y srec) (r_y rec)) as [|dy]; [done|].
      destruct (math_hypot hypot dx dy) as [|dist] eqn:Hd; [done|].
      injection Hb as Hb. by exists dx, dy, dist. }
    unfold bind, lift, ret. rewrite Hdx. cbv beta iota. rewrite Hdy.
    cbv beta iota. rewrite Hd. cbv beta iota. rewrite Hlt, Hname.
    destruct b.
    + rewrite decide_True by done. cbn [length repeatM when].
      unfold confirm, bind, logger, modify.
      repeat (rewrite ?Hub.broadcast_spec; cbv beta iota). apply IH.
    + rewrite decide_False by done. cbn [when]. unfold ret. apply IH.
  - cbn [andb when]. rewrite decide_False by done. unfold bind, ret. apply IH.
Qed.

(** A rotate token that is added or updated: the raw message, [wheel_open]
    on an [add], [wheel_hover] with the catalog entry of the sector, then one
    confirmation for each select token of the registry within the threshold;
    with none of them in reach, no confirmation at all. *)
Theorem process_logic_rotate_emits
    (rec : record) (theta : Float64.float) (sector : Z) (w : world) :
  r_symbol_id rec = ROTATE_SYMBOL ->
  is_add_or_update (r_event rec) = true ->
  wheel_sector NUM_WHEEL_SECTORS (r_angle rec) = inr (theta, sector) ->
  Forall (fun e => r_symbol_id e.2 = SELECT_SYMBOL ->
                   exists b, near hypot rec e.2 = inr b) (latest_objects w) ->
  exists name,
    dict_values MEDICATION_SYMBOLS !! Z.to_nat sector = Some name /\
    process_logic_and_broadcast hypot rec w =
      (broadcast (msg_tuio_obj rec) ;;;
       when (is_add (r_event rec))
         (logger Info_wheel_open ;;; broadcast (msg_wheel_open rec)) ;;;
       logger (Info_rotate theta sector name) ;;;
       broadcast (msg_wheel_hover sector theta rec name) ;;;
       repeatM (length (near_selects hypot rec (latest_objects w)))
               (confirm sector name)) w.
Proof.
  intros Hsid Hevt Hsec Hall.
  destruct (sector_in_catalog _ _ _ Hsec) as (name & Hname & Hnth).
  exists name. split; [done|].
  unfold process_logic_and_broadcast. rewrite Hsid, Hsec.
  change (bool_decide (is_Some (dict_lookup ROTATE_SYMBOL MEDICATION_SYMBOLS)))
    with false.
  change (ROTATE_SYMBOL =? ROTATE_SYMBOL) with true.
  change (ROTATE_SYMBOL =? BACK_SYMBOL) with false.
  rewrite Hevt. cbn [andb when lift].
  destruct (is_add (r_event rec)); cbn [when];
    unfold bind, ret, logger, modify, get_world, lift;
    repeat (rewrite ?Hub.broadcast_spec; cbv beta iota; cbn [fst snd];
            rewrite ?Hname; unfold ret);
    cbn [latest_objects set_clients set_sockets add_log];
    rewrite (proximity_scan_count _ _ _ name) by done;
    match goal with
    | |- context [repeatM ?n ?c ?W] => by destruct (repeatM n c W) as [[] ?|? ?]
    end.
Qed.

(** A sector of the program's wheel names an entry of the catalog: the
    index into [list(MEDICATION_SYMBOLS.values())] is always in range. *)
Theorem sector_names_medication
    (angle : pyval) (theta : Float64.float) (sector : Z) :
  wheel_sector NUM_WHEEL_SECTORS angle = inr (theta, sector) ->
  exists name,
    py_index (dict_values MEDICATION_SYMBOLS) sector = inr name /\
    dict_values MEDICATION_SYMBOLS !! Z.to_nat sector = Some name.
Proof. apply sector_in_catalog. Qed.

(** The scan of the registry sends one confirmation for each select token
    within the threshold, duplicates included, and nothing else, provided the
    distance of every select token can be computed. *)
Theorem proximity_scan_confirms
    (items : list (option Z * record)) (rec : record) (sector : Z)
    (name : string) (w : world) :
  py_index (dict_values MEDICATION_SYMBOLS) sector = inr name ->
  Forall (fun e => r_symbol_id e.2 = SELECT_SYMBOL ->
                   exists b, near hypot rec e.2 = inr b) items ->
  proximity_scan hypot items rec sector w =
    repeatM (length (near_selects hypot rec items)) (confirm sector name) w.
Proof. apply proximity_scan_count. Qed.

End EngineFacts.

Lemma process_logic_direct_pick_witness :
  process_logic_and_broadcast sqrt_sum_squares
    (mkRecord Add 4 (Some 1002) half half (PInt 0)) hub3 =
    (broadcast (msg_tuio_obj (mkRecord Add 4 (Some 1002) half half (PInt 0))) ;;;
     logger (Info_direct "Aspirin"%string 4) ;;;
     broadcast (msg_medication_selected "Aspirin"%string 4)) hub3.
Proof.
  apply (process_logic_direct_pick sqrt_sum_squares
           (mkRecord Add 4 (Some 1002) half half (PInt 0)) "Aspirin"%string hub3);
    reflexivity.
Defined.


Lemma process_logic_back_witness :
  process_logic_and_broadcast sqrt_sum_squares
    (mkRecord Add BACK_SYMBOL (Some 7) half half (PInt 0)) hub3 =
    (broadcast (msg_tuio_obj (mkRecord Add BACK_SYMBOL (Some 7) half half (PInt 0))) ;;;
     logger Info_back ;;;
     broadcast msg_back_pressed) hub3.
Proof.
  apply (process_logic_back sqrt_sum_squares
           (mkRecord Add BACK_SYMBOL (Some 7) half half (PInt 0)) hub3);
    reflexivity.
Defined.

Lemma process_logic_raw_only_witness :
  process_logic_and_broadcast sqrt_sum_squares (rec_select Add) world_rotating
    = broadcast (msg_tuio_obj (rec_select Add)) world_rotating.
Proof.
  apply (process_logic_raw_only sqrt_sum_squares (rec_select Add) world_rotating).
  right. right. repeat split; [discriminate | discriminate].
Defined.

Lemma proximity_scan_confirms_witness :
  proximity_scan sqrt_sum_squares
    [(Some 1001, rec_select Add); (Some 1003, rec_select Add)]
    (rec_rotate Update (PInt 0)) 0 hub3 =
  repeatM 2 (confirm 0 "Paracetamol"%string) hub3.
Proof.
  apply (proximity_scan_confirms sqrt_sum_squares
           [(Some 1001, rec_select Add); (Some 1003, rec_select Add)]
           (rec_rotate Update (PInt 0)) 0 "Paracetamol"%string hub3).
  - reflexivity.
  - repeat constructor; intros _; eexists; vm_compute; reflexivity.
Defined.

Lemma process_logic_rotate_emits_witness :
  exists name,
    dict_values MEDICATION_SYMBOLS !! Z.to_nat 0 = Some name /\
    process_logic_and_broadcast sqrt_sum_squares (rec_rotate Add (PInt 0)) world1 =
      (broadcast (msg_tuio_obj (rec_rotate Add (PInt 0))) ;;;
       when (is_add Add)
         (logger Info_wheel_open ;;; broadcast (msg_wheel_open (rec_rotate Add (PInt 0)))) ;;;
       logger (Info_rotate Float64.zero 0 name) ;;;
       broadcast (msg_wheel_hover 0 Float64.zero (rec_rotate Add (PInt 0)) name) ;;;
       repeatM 0 (confirm 0 name)) world1.
Proof.
  apply (process_logic_rotate_emits sqrt_sum_squares (rec_rotate Add (PInt 0))
           Float64.zero 0 world1); try reflexivity.
  constructor.
Defined.

Lemma sector_names_medication_witness :
  exists name,
    py_index (dict_values MEDICATION_SYMBOLS) 5 = inr name /\
    dict_values MEDICATION_SYMBOLS !! Z.to_nat 5 = Some name.
Proof.
  apply (sector_names_medication (PFloat (Float64.decimal (-314) 100))
           (S754_finite false 7077824089085201 (-51)) 5).
  vm_compute. reflexivity.
Defined.

(** ** The registry under the Ingestion Adapter *)

Section DictFacts.
Context {K V : Type} `{EqDecision K}.
Implicit Types (k : K) (v : V) (d : list (K * V)).

Lemma dict_lookup_None k d : dict_lookup k d = None <-> k ∉ map fst d.
Proof.
  induction d as [|[k' v'] d IH]; simpl.
  - split; [intros _; apply not_elem_of_nil|done].
  - rewrite not_elem_of_cons. destruct (decide (k = k')) as [->|Hne].
    + split; [done|]. by intros [? _].
    + rewrite IH. tauto.
Qed.

Lemma dict_lookup_pop_ne k k' d :
  k <> k' -> dict_lookup k' (dict_pop k d) = dict_lookup k' d.
Proof.
  intros Hne. induction d as [|[k0 v0] d IH]; simpl; [done|].
  destruct (decide (k = k0)) as [->|Hk]; simpl.
  - by rewrite decide_False by congruence.
  - destruct (decide (k' = k0)); done.
Qed.

Lemma dict_pop_set_absent k v d :
  dict_lookup k d = None -> dict_pop k (dict_set k v d) = d.
Proof.
  induction d as [|[k0 v0] d IH]; simpl.
  - by rewrite decide_True.
  - destruct (decide (k = k0)) as [->|Hne]; [done|]. intros Hd. simpl.
    rewrite decide_False by done. by rewrite IH.
Qed.

Lemma dict_set_keys k v d :
  map fst (dict_set k v d) =
    match dict_lookup k d with
    | Some _ => map fst d
    | None => map fst d ++ [k]
    end.
Proof.
  induction d as [|[k0 v0] d IH]; simpl; [done|].
  destruct (decide (k = k0)) as [->|Hne]; simpl; [done|].
  rewrite IH. by destruct (dict_lookup k d).
Qed.

Lemma dict_pop_keys k d :
  map fst (dict_pop k d) = filter (fun k' => k' <> k) (map fst d).
Proof.
  induction d as [|[k0 v0] d IH]; simpl; [done|].
  rewrite filter_cons. destruct (decide (k = k0)) as [->|Hne].
  - by rewrite decide_False by tauto.
  - rewrite decide_True by congruence. simpl. by rewrite IH.
Qed.

Lemma dict_set_NoDup k v d : NoDup (map fst d) -> NoDup (map fst (dict_set k v d)).
Proof.
  intros Hnd. rewrite dict_set_keys.
  destruct (dict_lookup k d) eqn:Hk; [done|].
  apply NoDup_app. split; [done|]. split; [|apply NoDup_singleton].
  intros k' Hin ->%list_elem_of_singleton. by apply dict_lookup_None in Hk.
Qed.

Lemma dict_pop_NoDup k d : NoDup (map fst d) -> NoDup (map fst (dict_pop k d)).
Proof. intros Hnd. rewrite dict_pop_keys. by apply NoDup_filter. Qed.

Lemma dict_set_Forall (P : K * V -> Prop) k v d :
  Forall P d -> P (k, v) -> Forall P (dict_set k v d).
Proof.
  intros Hd Hkv. induction d as [|[k0 v0] d IH]; simpl.
  - by constructor.
  - apply Forall_cons in Hd as [H0 Hd].
    destruct (decide (k = k0)); constructor; auto.
Qed.

Lemma dict_pop_Forall (P : K * V -> Prop) k d :
  Forall P d -> Forall P (dict_pop k d).
Proof.
  intros Hd. induction d as [|[k0 v0] d IH]; simpl; [done|].
  apply Forall_cons in Hd as [H0 Hd].
  destruct (decide (k = k0)); [auto|constructor; auto].
Qed.

End DictFacts.

Section IngestionFacts.

Variable hypot : Float64.float -> Float64.float -> res Float64.float.

(** What [_handle_obj] leaves in the registry: what was there, or the cache
    update of the record it built. *)
Lemma handle_obj_registry_cases evt obj w w' :
  _handle_obj hypot evt obj w = Ok tt w' ->
  latest_objects w' = latest_objects w \/
  exists rec,
    build_record evt obj = inr (Some rec) /\ loggable rec = true /\
    latest_objects w' = latest_objects (update_cache rec w).
Proof.
  intros Hrun.
  destruct (build_record evt obj) as [e|[rec|]] eqn:Hb.
  - left. apply handle_obj_final in Hrun as [-> _].
    unfold _handle_obj_body. by rewrite Hb.
  - destruct (loggable rec) eqn:Hl.
    + right. exists rec. repeat split; [done|].
      by eapply handle_obj_registry.
    + left. apply handle_obj_final in Hrun as [-> _].
      by destruct (handle_obj_body_unloggable hypot evt obj rec w Hb Hl) as [e ->].
  - left. apply handle_obj_final in Hrun as [-> _].
    unfold _handle_obj_body. by rewrite Hb.
Qed.

(** The registry stays a dictionary of live objects: whatever the event and
    the object, [_handle_obj] keeps one entry per session id, each filed
    under the session id of its record, each from an [add] or an [update],
    each with numbers for position and angle. *)
Theorem handle_obj_keeps_registry_wf
    (evt : event_type) (obj : TuioObject.t) (w w' : world) :
  registry_wf (latest_objects w) ->
  _handle_obj hypot evt obj w = Ok tt w' ->
  registry_wf (latest_objects w').
Proof.
  intros [Hnd Hall] Hrun.
  destruct (handle_obj_registry_cases evt obj w w' Hrun)
    as [->|(rec & Hb & Hl & ->)]; [done|].
  pose proof (build_record_event evt obj rec Hb) as Hevt.
  unfold update_cache. destruct (is_add_or_update (r_event rec)) eqn:Hau; simpl.
  - split; [by apply dict_set_NoDup|]. by apply dict_set_Forall.
  - split; [by apply dict_pop_NoDup|]. by apply dict_pop_Forall.
Qed.

(** An [add] or an [update] files the record under its session id without
    moving the others: a session that is already in the registry keeps its
    place in the iteration order, a new one goes last. *)
Theorem add_or_update_keeps_order
    (evt : event_type) (obj : TuioObject.t) (rec : record) (w w' : world) :
  is_add_or_update evt = true ->
  build_record evt obj = inr (Some rec) ->
  loggable rec = true ->
  _handle_obj hypot evt obj w = Ok tt w' ->
  dict_lookup (r_session_id rec) (latest_objects w') = Some rec /\
  map fst (latest_objects w') =
    match dict_lookup (r_session_id rec) (latest_objects w) with
    | Some _ => map fst (latest_objects w)
    | None => map fst (latest_objects w) ++ [r_session_id rec]
    end.
Proof.
  intros Hau Hb Hl Hrun.
  rewrite (handle_obj_registry hypot evt obj rec w w') by done.
  unfold update_cache. rewrite (build_record_event evt obj rec Hb), Hau. simpl.
  split; [apply dict_lookup_set_eq|apply dict_set_keys].
Qed.

(** An event touches the entry of its own session only: whatever the event
    and the object, the entry of any other session id is as before. *)
Theorem other_sessions_untouched
    (evt : event_type) (obj : TuioObject.t) (w w' : world) (k : option Z) :
  (forall rec, build_record evt obj = inr (Some rec) -> r_session_id rec <> k) ->
  _handle_obj hypot evt obj w = Ok tt w' ->
  dict_lookup k (latest_objects w') = dict_lookup k (latest_objects w).
Proof.
  intros Hk Hrun.
  destruct (handle_obj_registry_cases evt obj w w' Hrun)
    as [->|(rec & Hb & Hl & ->)]; [done|].
  specialize (Hk rec Hb). unfold update_cache.
  destruct (is_add_or_update (r_event rec)); simpl.
  - by apply dict_lookup_set_ne.
  - by apply dict_lookup_pop_ne.
Qed.

Lemma build_record_other_event evt evt' obj rec :
  build_record evt obj = inr (Some rec) ->
  build_record evt' obj =
    inr (Some (mkRecord evt' (r_symbol_id rec) (r_session_id rec)
                        (r_x rec) (r_y rec) (r_angle rec))).
Proof.
  unfold build_record, res_bind.
  destruct (probe_ids _) as [|[sid|]]; try done.
  destruct (getattr_default (TuioObject.session_id obj) None); try done.
  destruct (getattr3 _ _ _ _); try done.
  destruct (getattr3 _ _ _ _); try done.
  destruct (getattr_default (TuioObject.angle obj) _); try done.
  by intros [= <-].
Qed.

(** Adding an object whose session is not in the registry and then removing
    it gives the registry back as it was. *)
Theorem add_then_remove_restores (obj : TuioObject.t) (rec : record) (w : world) :
  build_record Add obj = inr (Some rec) ->
  loggable rec = true ->
  dict_lookup (r_session_id rec) (latest_objects w) = None ->
  exists w1 w2,
    _handle_obj hypot Add obj w = Ok tt w1 /\
    _handle_obj hypot Remove obj w1 = Ok tt w2 /\
    dict_lookup (r_session_id rec) (latest_objects w1) = Some rec /\
    latest_objects w2 = latest_objects w.
Proof.
  intros Hb Hl Habs.
  destruct (handle_obj_outcome hypot Add obj w) as [w1 [Hw1 _]].
  destruct (handle_obj_outcome hypot Remove obj w1) as [w2 [Hw2 _]].
  exists w1, w2. split; [done|]. split; [done|].
  pose proof (build_record_other_event Add Remove obj rec Hb) as Hb'.
  pose proof (build_record_event Add obj rec Hb) as Hevt.
  rewrite (handle_obj_registry hypot Remove obj _ w1 w2 Hb') by done.
  unfold update_cache at 1. cbn [r_event is_add_or_update latest_objects
                                 set_latest_objects r_session_id].
  rewrite (handle_obj_registry hypot Add obj rec w w1) by done.
  unfold update_cache. rewrite Hevt. simpl.
  split; [apply dict_lookup_set_eq|by apply dict_pop_set_absent].
Qed.

(** The cache is written before the Selection Engine runs and is not taken
    back when the engine raises: once the record is built and logged, the
    registry after [_handle_obj] is the updated one. *)
Theorem cache_write_survives_exception
    (evt : event_type) (obj : TuioObject.t) (rec : record) (w : world) :
  build_record evt obj = inr (Some rec) ->
  loggable rec = true ->
  exists w',
    _handle_obj hypot evt obj w = Ok tt w' /\
    latest_objects w' = latest_objects (update_cache rec w).
Proof.
  intros Hb Hl. destruct (handle_obj_outcome hypot evt obj w) as [w' [Hw' _]].
  exists w'. split; [done|]. by eapply handle_obj_registry.
Qed.

(** The first of [fiducial_id], [symbol_id], [class_id], [pattern_id] the
    object has gives the marker id, whatever the later ones hold; when its
    value is [None] the event is dropped with the warning, even if a later
    attribute carries an id. *)
Theorem first_id_attribute_decides
    (evt : event_type) (obj : TuioObject.t) (w : world)
    (pre post : list (attr (option Z))) (v : option Z) :
  possible_id_attrs obj = pre ++ Has v :: post ->
  Forall (fun a => a = Missing) pre ->
  probe_ids (possible_id_attrs obj) = inr v /\
  (v = None -> _handle_obj hypot evt obj w = Ok tt (add_log Warn_no_marker_id w)).
Proof.
  intros Hattrs Hpre.
  assert (probe_ids (possible_id_attrs obj) = inr v) as Hprobe.
  { rewrite Hattrs. clear Hattrs. induction pre as [|a pre IH]; simpl; [done|].
    apply Forall_cons in Hpre as [-> Hpre]. simpl. by apply IH. }
  split; [done|]. intros ->.
  unfold _handle_obj, try_except, _handle_obj_body, build_record.
  by rewrite Hprobe.
Qed.

Lemma only_grows_proximity_scan items rec sector :
  only_grows (proximity_scan hypot items rec sector).
Proof.
  induction items as [|[session_id srec] items IH]; simpl;
    [apply HubFacts.only_grows_ret|].
  apply HubFacts.only_grows_bind; [|done].
  apply HubFacts.only_grows_when.
  repeat (apply HubFacts.only_grows_bind; [apply HubFacts.only_grows_lift|intros ?]).
  apply HubFacts.only_grows_when.
  apply HubFacts.only_grows_bind; [apply HubFacts.only_grows_lift|intros ?].
  apply HubFacts.only_grows_bind; [apply HubFacts.only_grows_logger|intros ?].
  apply HubFacts.only_grows_broadcast.
Qed.

(** [process_logic_and_broadcast] is the raw [broadcast] followed by
    statements under which the hub only grows. *)
Lemma process_logic_split rec :
  exists rest : M unit,
    only_grows rest /\
    forall w, process_logic_and_broadcast hypot rec w =
              bind (broadcast (msg_tuio_obj rec)) (fun _ => rest) w.
Proof.
  eexists. split; [|intros w; unfold process_logic_and_broadcast; reflexivity].
  apply HubFacts.only_grows_bind; [|intros _].
  { apply HubFacts.only_grows_when.
    apply HubFacts.only_grows_bind; [apply HubFacts.only_grows_lift|intros ?].
    apply HubFacts.only_grows_bind; [apply HubFacts.only_grows_logger|intros _].
    apply HubFacts.only_grows_broadcast. }
  apply HubFacts.only_grows_bind; [|intros _].
  { apply HubFacts.only_grows_when.
    apply HubFacts.only_grows_bind; [apply HubFacts.only_grows_logger|intros _].
    apply HubFacts.only_grows_broadcast. }
  apply HubFacts.only_grows_bind; [|intros _].
  { apply HubFacts.only_grows_when.
    apply HubFacts.only_grows_bind; [apply HubFacts.only_grows_lift|intros ?].
    apply HubFacts.only_grows_bind; [apply HubFacts.only_grows_lift|intros ?].
    apply HubFacts.only_grows_bind; [apply HubFacts.only_grows_logger|intros _].
    apply HubFacts.only_grows_bind; [apply HubFacts.only_grows_broadcast|intros _].
    apply HubFacts.only_grows_bind; [apply HubFacts.only_grows_get_world|intros ?].
    apply only_grows_proximity_scan. }
  apply HubFacts.only_grows_when.
  apply HubFacts.only_grows_bind; [apply HubFacts.only_grows_logger|intros _].
  apply HubFacts.only_grows_broadcast.
Qed.

Lemma only_grows_process_logic rec :
  only_grows (process_logic_and_broadcast hypot rec).
Proof.
  destruct (process_logic_split rec) as (rest & Hrest & Heq).
  intros w. rewrite Heq.
  by apply (HubFacts.only_grows_bind _ _ (HubFacts.only_grows_broadcast _)).
Qed.

Lemma only_grows_update_cache rec : only_grows (modify (update_cache rec)).
Proof.
  apply HubFacts.only_grows_modify_registry. intros w. unfold update_cache.
  by destruct (is_add_or_update (r_event rec)).
Qed.

Lemma only_grows_handle_obj_body evt obj :
  only_grows (_handle_obj_body hypot evt obj).
Proof.
  unfold _handle_obj_body.
  apply HubFacts.only_grows_bind; [apply HubFacts.only_grows_lift|intros [rec|]];
    [|apply HubFacts.only_grows_logger].
  repeat (apply HubFacts.only_grows_bind; [apply HubFacts.only_grows_lift|intros ?]).
  apply HubFacts.only_grows_bind; [apply HubFacts.only_grows_logger|intros _].
  apply HubFacts.only_grows_bind; [apply only_grows_update_cache|intros _].
  apply only_grows_process_logic.
Qed.

Lemma only_grows_handle_obj evt obj : only_grows (_handle_obj hypot evt obj).
Proof.
  intros w. unfold _handle_obj, try_except.
  pose proof (only_grows_handle_obj_body evt obj w) as Hbody.
  destruct (_handle_obj_body hypot evt obj w) as [[] w1|e w1]; simpl in *; [done|].
  eapply HubFacts.hub_grows_trans; [exact Hbody|].
  apply (HubFacts.only_grows_logger (Error_handling e) w1).
Qed.

(** The ingestion path never closes a socket, never takes back or rewrites
    a line that was sent, and never adds a client: after [_handle_obj], on
    any event and any object, [clients] is a sublist of what it was and every
    socket has its flags and, as a prefix, the lines it had. *)
Theorem handle_obj_only_grows (evt : event_type) (obj : TuioObject.t) (w : world) :
  exists w',
    _handle_obj hypot evt obj w = Ok tt w' /\
    clients w' `sublist_of` clients w /\
    forall c,
      match sockets w !! c with
      | Some s =>
          exists s',
            sockets w' !! c = Some s' /\
            sock_healthy s' = sock_healthy s /\
            sock_closed s' = sock_closed s /\
            sock_sent s `prefix_of` sock_sent s'
      | None => sockets w' !! c = None
      end.
Proof.
  destruct (handle_obj_outcome hypot evt obj w) as [w' [Hw' _]].
  exists w'. split; [done|].
  pose proof (only_grows_handle_obj evt obj w) as Hg. rewrite Hw' in Hg.
  exact Hg.
Qed.

Lemma deliver_first data cs : forall ss c s,
  c ∈ cs -> ss !! c = Some s -> can_send ss c = true ->
  exists s' more,
    deliver data cs ss !! c = Some s' /\
    sock_sent s' = sock_sent s ++ data :: more.
Proof.
  induction cs as [|c0 cs IH]; intros ss c s Hin Hs Hc;
    [by apply elem_of_nil in Hin|].
  simpl. destruct (decide (c0 = c)) as [->|Hne].
  - assert (deliver1 data ss c !! c = Some (pushed data s)) as Hp.
    { unfold deliver1. rewrite Hs, Hc. by rewrite lookup_insert_eq. }
    destruct (HubFacts.deliver_flags data cs _ _ _ Hp) as (s' & Hs' & _ & _ & [k Hk]).
    exists s', k. split; [done|]. rewrite Hk. simpl. by rewrite <- app_assoc.
  - apply elem_of_cons in Hin as [->|Hin]; [done|].
    apply IH; [done| |by rewrite Hub.can_send_deliver1].
    unfold deliver1. destruct (ss !! c0); [|done].
    destruct (can_send ss c0); [|done]. by rewrite lookup_insert_ne.
Qed.

(** Every event whose record is built and logged reaches every client that
    can be sent to, as the raw [tuio_obj] message, before anything else the
    event produces and even when the Selection Engine raises afterwards. *)
Theorem raw_message_first
    (evt : event_type) (obj : TuioObject.t) (rec : record) (w : world)
    (c : conn) (s : socket) :
  build_record evt obj = inr (Some rec) ->
  loggable rec = true ->
  c ∈ clients w ->
  sockets w !! c = Some s ->
  can_send (sockets w) c = true ->
  exists w' s' more,
    _handle_obj hypot evt obj w = Ok tt w' /\
    sockets w' !! c = Some s' /\
    sock_sent s' = sock_sent s ++ msg_tuio_obj rec :: more.
Proof.
  intros Hb Hl Hin Hs Hc.
  destruct (handle_obj_outcome hypot evt obj w) as [w' [Hw' _]].
  destruct (handle_obj_final hypot evt obj w w' Hw') as (_ & _ & Hsock).
  destruct (handle_obj_body_built hypot evt obj rec w Hb Hl)
    as (fx & fy & fa & _ & _ & _ & Hrun).
  destruct (process_logic_split rec) as (rest & Hrest & Heq).
  rewrite Hrun, Heq in Hsock. unfold bind in Hsock.
  rewrite Hub.broadcast_spec in Hsock.
  set (w1 := update_cache rec _) in *.
  assert (clients w1 = clients w /\ sockets w1 = sockets w) as [Hc1 Hs1].
  { unfold w1, update_cache. by destruct (is_add_or_update (r_event rec)). }
  set (w2 := set_clients _ (set_sockets _ w1)) in *.
  destruct (deliver_first (msg_tuio_obj rec) (clients w1) (sockets w1) c s)
    as (s2 & more & Hs2 & Hsent2); [by rewrite Hc1|by rewrite Hs1|by rewrite Hs1|].
  pose proof (Hrest w2) as [_ Hg]. specialize (Hg c).
  replace (sockets w2 !! c) with (Some s2) in Hg by done.
  destruct Hg as (s' & Hs' & _ & _ & [k Hk]).
  exists w', s', (more ++ k). split; [done|]. split; [by rewrite Hsock|].
  rewrite Hk, Hsent2. by rewrite <- app_assoc.
Qed.

End IngestionFacts.

(** ** The theorems of the registry at the objects of the examples *)

Lemma world_rotating_wf : registry_wf (latest_objects world_rotating).
Proof.
  split; [by apply (bool_decide_unpack _)|]. by repeat constructor.
Qed.

Lemma handle_obj_keeps_registry_wf_witness :
  registry_wf (latest_objects world_rotating) /\
  exists w',
    _handle_obj sqrt_sum_squares Add sim_select world_rotating = Ok tt w' /\
    registry_wf (latest_objects w').
Proof.
  split; [exact world_rotating_wf|].
  eexists. split; [vm_compute; reflexivity|].
  eapply (handle_obj_keeps_registry_wf sqrt_sum_squares Add sim_select world_rotating);
    [exact world_rotating_wf|vm_compute; reflexivity].
Defined.

Lemma add_or_update_keeps_order_witness :
  exists w',
    _handle_obj sqrt_sum_squares Update (sim_rotate (PInt 0)) world_rotating = Ok tt w' /\
    dict_lookup (Some 1000) (latest_objects w') = Some (rec_rotate Update (PInt 0)) /\
    map fst (latest_objects w') = [Some 1000].
Proof.
  eexists. split; [vm_compute; reflexivity|].
  apply (add_or_update_keeps_order sqrt_sum_squares Update (sim_rotate (PInt 0))
           (rec_rotate Update (PInt 0)) world_rotating);
    [reflexivity|reflexivity|reflexivity|vm_compute; reflexivity].
Defined.

Lemma other_sessions_untouched_witness :
  exists w',
    _handle_obj sqrt_sum_squares Remove sim_select world_rotating = Ok tt w' /\
    dict_lookup (Some 1000) (latest_objects w')
      = dict_lookup (Some 1000) (latest_objects world_rotating).
Proof.
  eexists. split; [vm_compute; reflexivity|].
  apply (other_sessions_untouched sqrt_sum_squares Remove sim_select world_rotating).
  - intros rec [= <-]. discriminate.
  - vm_compute. reflexivity.
Defined.

Lemma add_then_remove_restores_witness :
  exists w1 w2,
    _handle_obj sqrt_sum_squares Add sim_select world_rotating = Ok tt w1 /\
    _handle_obj sqrt_sum_squares Remove sim_select w1 = Ok tt w2 /\
    dict_lookup (Some 1001) (latest_objects w1) = Some (rec_select Add) /\
    latest_objects w2 = latest_objects world_rotating.
Proof.
  apply (add_then_remove_restores sqrt_sum_squares sim_select (rec_select Add)
           world_rotating); reflexivity.
Defined.

Lemma cache_write_survives_exception_witness :
  (exists w1,
     _handle_obj_body sqrt_sum_squares Add
       (sim_rotate (PFloat (S754_infinity false))) world1 = Raise ValueError w1) /\
  exists w',
    _handle_obj sqrt_sum_squares Add
      (sim_rotate (PFloat (S754_infinity false))) world1 = Ok tt w' /\
    latest_objects w'
      = [(Some 1000, rec_rotate Add (PFloat (S754_infinity false)))].
Proof.
  split; [eexists; vm_compute; reflexivity|].
  apply (cache_write_survives_exception sqrt_sum_squares Add
           (sim_rotate (PFloat (S754_infinity false)))
           (rec_rotate Add (PFloat (S754_infinity false))) world1); reflexivity.
Defined.

Lemma first_id_attribute_decides_witness :
  probe_ids (possible_id_attrs
               (TuioObject.mk (Has None) (Has (Some 4)) Missing Missing
                  (Has (Some 7)) (Has half) Missing Missing (Has half)
                  Missing Missing (Has (PInt 0)))) = inr None /\
  _handle_obj sqrt_sum_squares Add
    (TuioObject.mk (Has None) (Has (Some 4)) Missing Missing
       (Has (Some 7)) (Has half) Missing Missing (Has half)
       Missing Missing (Has (PInt 0))) world1
  = Ok tt (add_log Warn_no_marker_id world1).
Proof.
  destruct (first_id_attribute_decides sqrt_sum_squares Add
              (TuioObject.mk (Has None) (Has (Some 4)) Missing Missing
                 (Has (Some 7)) (Has half) Missing Missing (Has half)
                 Missing Missing (Has (PInt 0))) world1
              [] [Has (Some 4); Missing; Missing] None eq_refl (Forall_nil_2 _))
    as [Hprobe Hdrop].
  split; [exact Hprobe | exact (Hdrop eq_refl)].
Defined.

Lemma raw_message_first_witness :
  exists w' s' more,
    _handle_obj sqrt_sum_squares Add (sim_rotate (PInt 0)) world1 = Ok tt w' /\
    sockets w' !! 0%nat = Some s' /\
    sock_sent s' = [] ++ msg_tuio_obj (rec_rotate Add (PInt 0)) :: more.
Proof.
  apply (raw_message_first sqrt_sum_squares Add (sim_rotate (PInt 0))
           (rec_rotate Add (PInt 0)) world1 0%nat fresh_socket);
    try reflexivity.
  by apply (bool_decide_unpack _).
Defined.

(** * The threads, the simulation and the reported angle *)

(** ** The threads *)

Module ThreadFacts.

Lemma close_lookup (c : conn) (w : world) :
  exists w',
    close c w = Ok tt w' /\
    clients w' = clients w /\ latest_objects w' = latest_objects w /\
    log w' = log w /\
    forall c', sockets w' !! c' =
               if decide (c' = c) then closed <$> sockets w !! c'
               else sockets w !! c'.
Proof.
  unfold close. destruct (sockets w !! c) as [s|] eqn:Hs.
  - eexists. split; [done|]. simpl. repeat split. intros c'.
    destruct (decide (c' = c)) as [->|Hne].
    + by rewrite lookup_insert_eq, Hs.
    + by rewrite lookup_insert_ne.
  - exists w. split; [done|]. repeat split. intros c'.
    destruct (decide (c' = c)) as [->|Hne]; [by rewrite Hs|done].
Qed.

Lemma close_all_spec (cs : list conn) : forall w,
  exists w',
    close_all cs w = Ok tt w' /\
    clients w' = clients w /\ latest_objects w' = latest_objects w /\
    log w' = log w /\
    forall c, sockets w' !! c =
              if decide (c ∈ cs) then closed <$> sockets w !! c
              else sockets w !! c.
Proof.
  induction cs as [|c0 cs IH]; intros w.
  - exists w. by split_and!.
  - destruct (close_lookup c0 w) as (w1 & Hrun1 & Hc1 & Hr1 & Hl1 & Hs1).
    destruct (IH w1) as (w' & Hrun & Hc & Hr & Hl & Hs).
    exists w'. split.
    { simpl. unfold bind. by rewrite Hrun1. }
    split; [congruence|]. split; [congruence|]. split; [congruence|].
    intros c. rewrite Hs, Hs1.
    destruct (decide (c ∈ cs)) as [Hin|Hnin];
      destruct (decide (c = c0)) as [->|Hne];
      destruct (decide (_ ∈ c0 :: cs)) as [Hin'|Hnin']; try done.
    + destruct (sockets w !! c0); done.
    + exfalso. apply Hnin'. by apply elem_of_cons; right.
    + exfalso. apply Hnin'. by apply elem_of_cons; right.
    + exfalso. apply Hnin'. by apply elem_of_cons; left.
    + apply elem_of_cons in Hin' as [?|?]; done.
Qed.

Lemma can_send_closed (ss : gmap conn socket) (c : conn) (o : option socket) :
  ss !! c = closed <$> o -> can_send ss c = false.
Proof.
  unfold can_send. intros ->. destruct o as [s|]; [|done]. simpl.
  apply andb_false_r.
Qed.

(** [shutdown] always ends in [sys.exit(0)], with [running] cleared and
    [clients] empty; every socket that was registered is closed, with the
    lines it was sent, and the others are as they were; the registry is
    kept; and a [broadcast] that an ingestion thread still makes afterwards
    changes nothing any more. *)
Theorem shutdown_closes_everyone (p : process) :
  exists p',
    shutdown p = SystemExit 0 p' /\
    running p' = false /\
    clients (p_world p') = [] /\
    latest_objects (p_world p') = latest_objects (p_world p) /\
    (forall c, sockets (p_world p') !! c =
               if decide (c ∈ clients (p_world p))
               then closed <$> sockets (p_world p) !! c
               else sockets (p_world p) !! c) /\
    (forall c, c ∈ clients (p_world p) ->
               can_send (sockets (p_world p')) c = false) /\
    forall obj, broadcast obj (p_world p') = Ok tt (p_world p').
Proof.
  unfold shutdown, tbind, say, in_world, bind, get_world, modify. simpl.
  destruct (close_all_spec (clients (p_world p)) (p_world p))
    as (w' & -> & Hc & Hr & Hl & Hs).
  eexists. split; [done|]. simpl. split; [done|]. split; [done|].
  split; [done|]. split; [done|]. split.
  - intros c Hin. eapply can_send_closed. rewrite Hs. by rewrite decide_True.
  - intros obj. rewrite Hub.broadcast_spec. simpl. rewrite filter_nil.
    unfold set_clients, set_sockets. simpl. done.
Qed.

Lemma reader_loop_done (c : conn) (recvs : list recv_outcome) (p : process) :
  reader_loop c recvs p = Done tt p.
Proof.
  induction recvs as [|[] recvs IH]; simpl; destruct (running p); done.
Qed.

Lemma list_remove_None (c : conn) (l : list conn) :
  c ∉ l -> list_remove c l = None.
Proof.
  induction l as [|a l IH]; [done|]. intros Hnin. simpl.
  rewrite decide_False; [|intros ->; apply Hnin; by apply elem_of_cons; left].
  rewrite IH; [done|]. intros Hin. apply Hnin. by apply elem_of_cons; right.
Qed.

(** A reader thread ends the same way whatever its client sends and however
    its [recv] calls end: it returns, with the first registration of its
    connection taken out of [clients], its socket unusable, and the other
    sockets, the registry and [running] as they were.  A [settimeout] that
    fails on a socket already closed is logged and changes none of this. *)
Theorem reader_thread_ends_clean (c : conn) (recvs : list recv_outcome)
    (p : process) :
  client_reader_thread c recvs p = client_reader_thread c [] p /\
  exists p',
    client_reader_thread c recvs p = Done tt p' /\
    running p' = running p /\
    clients (p_world p') =
      default (clients (p_world p)) (list_remove c (clients (p_world p))) /\
    latest_objects (p_world p') = latest_objects (p_world p) /\
    can_send (sockets (p_world p')) c = false /\
    (forall c', c' <> c ->
                sockets (p_world p') !! c' = sockets (p_world p) !! c') /\
    p_lines p' =
      p_lines p ++ Info_client_connected c ::
        match sockets (p_world p) !! c with
        | Some s => if sock_closed s then [Error_client_thread OSError] else []
        | None => [Error_client_thread OSError]
        end.
Proof.
  assert (Hsame : forall r, client_reader_thread c r p = client_reader_thread c [] p).
  { intros r. unfold client_reader_thread, tbind, try_finally, ttry_except, say.
    destruct (in_world (settimeout c) (add_line (Info_client_connected c) p));
      [|done].
    by rewrite !reader_loop_done. }
  split; [apply Hsame|]. rewrite Hsame.
  unfold client_reader_thread, tbind, try_finally, ttry_except, say, tret.
  destruct (HubFacts.reader_finally_run c (p_world p))
    as (cs' & w' & Hrun & Hin & Hnin & Hc & Hr & Hl & Hcan & Hoth).
  assert (Hcs : cs' = default (clients (p_world p))
                        (list_remove c (clients (p_world p)))).
  { destruct (decide (c ∈ clients (p_world p))) as [Hi|Hn].
    - by rewrite (Hin Hi).
    - rewrite (list_remove_None _ _ Hn). by apply Hnin. }
  unfold in_world, settimeout. simpl.
  destruct (sockets (p_world p) !! c) as [s|] eqn:Hs;
    [destruct (sock_closed s)|]; simpl;
    try destruct (running p) eqn:Hflag; unfold tbind; simpl; rewrite Hrun; simpl;
    (eexists; split; [done|]; simpl; split_and!; try done; try congruence;
     by rewrite <- app_assoc).
Qed.

Lemma acceptor_loop_spec (accepts : list accept_outcome) : forall p,
  running p = true ->
  exists w',
    acceptor_loop accepts p = Done tt (set_world w' p) /\
    clients w' = clients (p_world p) ++ (accepted accepts).*1 /\
    sockets w' = with_sockets (sockets (p_world p)) (accepted accepts) /\
    latest_objects w' = latest_objects (p_world p) /\
    log w' = log (p_world p).
Proof.
  induction accepts as [|[| |c s] accepts IH]; intros p Hrun.
  - exists (p_world p). simpl. rewrite Hrun. split; [by destruct p|].
    by rewrite app_nil_r.
  - simpl. rewrite Hrun. by apply IH.
  - exists (p_world p). simpl. rewrite Hrun. split; [by destruct p|].
    by rewrite app_nil_r.
  - simpl. rewrite Hrun. unfold tbind, in_world, modify, tcp_acceptor_register.
    simpl.
    match goal with |- context [acceptor_loop accepts ?q] =>
      destruct (IH q) as (w' & Hloop & Hc & Hs & Hr & Hl); [done|] end.
    exists w'. rewrite Hloop. split; [done|]. simpl in *.
    rewrite Hc, Hs, Hr, Hl. split; [by rewrite <- app_assoc|done].
Qed.

(** An acceptor whose port is free returns with the listening socket
    closed; if [running] is set, the connections it accepted before the
    first [OSError] follow the earlier clients in [clients], in the order
    they came, each with its socket object; if not, nobody is accepted.  No
    socket is sent anything and the registry is not touched.  An acceptor
    whose port is taken raises [OSError] after its first log line, and
    registers nobody. *)
Theorem acceptor_registers_in_order (accepts : list accept_outcome)
    (p : process) :
  (exists p',
     tcp_acceptor true accepts p = Done tt p' /\
     p_listening p' = false /\
     running p' = running p /\
     clients (p_world p') =
       clients (p_world p) ++
         (if running p then (accepted accepts).*1 else []) /\
     sockets (p_world p') =
       (if running p then with_sockets (sockets (p_world p)) (accepted accepts)
        else sockets (p_world p)) /\
     latest_objects (p_world p') = latest_objects (p_world p)) /\
  tcp_acceptor false accepts p = Failed OSError (add_line Info_tcp_starting p).
Proof.
  split; [|done].
  unfold tcp_acceptor, tbind, say, try_finally, tret.
  destruct (running p) eqn:Hrun.
  - destruct (acceptor_loop_spec accepts
                (set_listening true (add_line Info_tcp_starting p)))
      as (w' & -> & Hc & Hs & Hr & Hl); [done|].
    eexists. split; [done|]. simpl in *. by rewrite Hrun.
  - assert (acceptor_loop accepts
              (set_listening true (add_line Info_tcp_starting p))
            = Done tt (set_listening true (add_line Info_tcp_starting p))) as ->.
    { destruct accepts; simpl; by rewrite Hrun. }
    eexists. split; [done|]. simpl. rewrite Hrun. by rewrite app_nil_r.
Qed.

End ThreadFacts.

(** ** The simulation *)

Section DictPop.
Context {K V : Type} `{EqDecision K}.
Implicit Types (k : K) (v : V) (d : list (K * V)).

Lemma dict_pop_set_eq k v d : dict_pop k (dict_set k v d) = dict_pop k d.
Proof.
  induction d as [|[k0 v0] d IH]; simpl.
  - by rewrite decide_True.
  - destruct (decide (k = k0)) as [->|Hne]; simpl.
    + by rewrite decide_True.
    + rewrite decide_False by done. by rewrite IH.
Qed.

Lemma dict_pop_set_ne k k' v d :
  k <> k' -> dict_pop k (dict_set k' v d) = dict_set k' v (dict_pop k d).
Proof.
  intros Hne. induction d as [|[k0 v0] d IH]; simpl.
  - by rewrite decide_False.
  - destruct (decide (k' = k0)) as [->|Hne']; simpl.
    + destruct (decide (k = k0)); [done|]. simpl. by rewrite decide_True.
    + destruct (decide (k = k0)) as [->|Hne'']; [done|].
      simpl. rewrite decide_False by done. by rewrite IH.
Qed.
End DictPop.

Section SimulationFacts.

Variable hypot : Float64.float -> Float64.float -> res Float64.float.

Lemma runs_ret : runs_with (fun d => d) (tret tt).
Proof.
  intros p. exists p. split_and!; try done. apply HubFacts.hub_grows_refl.
Qed.

Lemma runs_say (m : thread_msg) : runs_with (fun d => d) (say m).
Proof.
  intros p. eexists. split; [done|]. simpl. split_and!; try done.
  apply HubFacts.hub_grows_refl.
Qed.

Lemma runs_bind R1 R2 (c1 c2 : T unit) :
  runs_with R1 c1 -> runs_with R2 c2 ->
  runs_with (fun d => R2 (R1 d)) (c1 >>> c2).
Proof.
  intros H1 H2 p. destruct (H1 p) as (p1 & Hrun1 & Hf1 & Hr1 & Hg1).
  destruct (H2 p1) as (p2 & Hrun2 & Hf2 & Hr2 & Hg2).
  exists p2. unfold tbind. rewrite Hrun1. split; [done|].
  split; [congruence|]. split; [congruence|].
  by eapply HubFacts.hub_grows_trans.
Qed.

Lemma runs_handle (evt : event_type) (sid sess : Z) (x y a : pyval) :
  loggable (mkRecord evt sid (Some sess) x y a) = true ->
  runs_with
    (fun d => if is_add_or_update evt
              then dict_set (Some sess) (mkRecord evt sid (Some sess) x y a) d
              else dict_pop (Some sess) d)
    (in_world (_handle_obj hypot evt (SimulatedTuioObject sid sess x y a))).
Proof.
  intros Hl p.
  destruct (handle_obj_outcome hypot evt (SimulatedTuioObject sid sess x y a)
              (p_world p)) as (w' & Hrun & _).
  unfold in_world. rewrite Hrun. eexists. split; [done|]. simpl.
  split; [done|]. split.
  - rewrite (handle_obj_registry hypot evt (SimulatedTuioObject sid sess x y a)
               (mkRecord evt sid (Some sess) x y a) (p_world p) w' eq_refl Hl Hrun).
    unfold update_cache. simpl. by destruct evt.
  - pose proof (only_grows_handle_obj hypot evt
                  (SimulatedTuioObject sid sess x y a) (p_world p)) as Hg.
    by rewrite Hrun in Hg.
Qed.

Ltac runs :=
  lazymatch goal with
  | |- runs_with _ (tbind _ _) => eapply runs_bind; [runs | runs]
  | |- runs_with _ (say _) => apply runs_say
  | |- runs_with _ (tret tt) => apply runs_ret
  | |- runs_with _ (in_world _) => eapply runs_handle; vm_compute; reflexivity
  end.

Lemma run_simulation_runs :
  exists R,
    runs_with R (_run_simulation hypot) /\
    forall d, R d = dict_pop (Some 1002) (dict_pop (Some 1001)
                      (dict_pop (Some 1000) d)).
Proof.
  eexists. split.
  - unfold _run_simulation, sim_angles, add_tuio_object, update_tuio_object,
      remove_tuio_object.
    cbv zeta. cbn [simulate_angles].
    unfold add_tuio_object, update_tuio_object, remove_tuio_object.
    runs.
  - intros d. cbv beta iota delta [is_add_or_update].
    change (1000 + 1) with 1001. change (1000 + 2) with 1002.
    rewrite !dict_set_set.
    rewrite dict_pop_set_eq.
    rewrite (dict_pop_set_ne (Some 1000) (Some 1001)) by done.
    rewrite dict_pop_set_eq.
    by rewrite dict_pop_set_eq.
Qed.

(** The simulation cleans up after itself, whatever [math.hypot] gives and
    whatever state it starts in: it returns, and the registry is the one it
    found without the sessions 1000, 1001 and 1002 that it uses; no client
    is added, no socket closed, no line taken back, and [running] is as it
    was. *)
Theorem simulation_cleans_up (p : process) :
  exists p',
    _run_simulation hypot p = Done tt p' /\
    running p' = running p /\
    latest_objects (p_world p') =
      dict_pop (Some 1002) (dict_pop (Some 1001)
        (dict_pop (Some 1000) (latest_objects (p_world p)))) /\
    hub_grows (p_world p) (p_world p').
Proof.
  destruct run_simulation_runs as (R & Hruns & HR).
  destruct (Hruns p) as (p' & Hrun & Hf & Hr & Hg).
  exists p'. by rewrite <- HR.
Qed.

End SimulationFacts.

(** ** The angle of [wheel_hover] *)

Module ThetaFacts.

Import Float64.

Lemma binary_round_aux_sign m e l :
  ltb (binary_round_aux prec emax false m e l) zero = false.
Proof.
  unfold binary_round_aux.
  destruct (shr_fexp prec emax m e l) as [mrs1 e1].
  destruct (shr_fexp prec emax _ e1 loc_Exact) as [mrs2 e2].
  destruct (shr_m mrs2); [done| |done].
  by destruct (e2 <=? emax - prec).
Qed.

Lemma binary_round_sign p e : ltb (binary_round prec emax false p e) zero = false.
Proof.
  unfold binary_round.
  destruct (shl_align p e (fexp prec emax (Zpos (digits2_pos p) + e))) as [mz ez].
  apply binary_round_aux_sign.
Qed.

Lemma binary_round_aux_canonical s m e :
  fexp prec emax (Zpos (digits2_pos m) + e) = e -> e <= 971 ->
  binary_round_aux prec emax s (Zpos m) e loc_Exact = S754_finite s m e.
Proof.
  intros Hc He.
  assert (Hn : fexp prec emax (Zdigits2 (Zpos m) + e) - e = 0) by (simpl; lia).
  unfold binary_round_aux, shr_fexp. rewrite Hn. cbn [shr shr_record_of_loc].
  cbn [shr_m loc_of_shr_record round_nearest_even]. rewrite Hn. cbn [shr shr_m].
  change (emax - prec) with 971.
  destruct (Z.leb_spec e 971); [done|lia].
Qed.

(** A number of at most 53 digits above the smallest exponent is a double:
    rounding it only shifts it into place. *)
Lemma binary_round_exact s p e :
  Zpos (digits2_pos p) <= 53 -> -1074 <= e -> Zpos (digits2_pos p) + e <= 1024 ->
  exists mz ez,
    binary_round prec emax s p e = S754_finite s mz ez /\
    ez <= e /\ Zpos mz = Zpos p * 2 ^ (e - ez).
Proof.
  intros Hd He Hmag. unfold binary_round.
  destruct (FloatFacts.shl_align_spec p e (fexp prec emax (Zpos (digits2_pos p) + e)))
    as (mz & ez & -> & Hez & Hmz).
  rewrite FloatFacts.fexp_eq in Hez.
  exists mz, ez. split; [|split; [lia|done]].
  apply binary_round_aux_canonical; [|lia].
  pose proof (FloatFacts.Zdigits2_mul_pow2_eq (Zpos p) (e - ez) ltac:(lia) ltac:(lia))
    as Hdig.
  rewrite <- Hmz in Hdig. simpl in Hdig. rewrite Hdig, FloatFacts.fexp_eq. lia.
Qed.

Lemma valid_finite s m e :
  valid (S754_finite s m e) = true ->
  Zpos (digits2_pos m) <= 53 /\ -1074 <= e <= 971.
Proof.
  unfold valid, valid_binary, bounded, canonical_mantissa.
  intros [Hc He]%andb_true_iff.
  apply Z.eqb_eq in Hc. rewrite FloatFacts.fexp_eq in Hc.
  apply Z.leb_le in He. change (emax - prec) with 971 in He. lia.
Qed.

(** The remainder of a double by [2 * math.pi] is a zero of its sign, or a
    double of its sign whose magnitude is below [2 * math.pi]. *)
Lemma fmod_two_pi_exact sx mx ex :
  valid (S754_finite sx mx ex) = true ->
  fmod (S754_finite sx mx ex) two_pi = S754_zero sx \/
  exists mz ez,
    fmod (S754_finite sx mx ex) two_pi = S754_finite sx mz ez /\
    ez <= -50 /\ Zpos mz < 7074237752028440 * 2 ^ (-50 - ez).
Proof.
  intros [Hd He]%valid_finite. rewrite FloatFacts.two_pi_bits. cbn [fmod].
  set (e := Z.min ex (-50)).
  set (X := Zpos mx * 2 ^ (ex - e)).
  set (Y := 7074237752028440 * 2 ^ (-50 - e)).
  assert (0 < 2 ^ (-50 - e)) as Hp by (apply Z.pow_pos_nonneg; lia).
  assert (0 < Y) as HY by (unfold Y; lia).
  pose proof (Z.mod_pos_bound X Y HY) as HR.
  destruct (X mod Y) as [|r|r] eqn:Hr; [|clear HR|lia].
  { left. by destruct sx. }
  right.
  assert (Zpos r < Y) as HrY by (pose proof (Z.mod_pos_bound X Y HY); lia).
  assert (Zpos (digits2_pos r) <= 53) as Hdr.
  { change (Zpos (digits2_pos r)) with (Zdigits2 (Zpos r)).
    destruct (Z.le_gt_cases (-50) ex) as [Hle|Hgt].
    - assert (e = -50) as He50 by lia.
      unfold Y in HrY. rewrite He50 in HrY. change (2 ^ (-50 - -50)) with 1 in HrY.
      apply FloatFacts.Zdigits2_le; lia.
    - assert (e = ex) as Heex by lia.
      assert (X = Zpos mx) as HX by (unfold X; rewrite Heex, Z.sub_diag; simpl; lia).
      assert (Zpos r <= Zpos mx).
      { rewrite <- Hr, <- HX. apply Z.mod_le; lia. }
      pose proof (FloatFacts.Zdigits2_mono (Zpos r) (Zpos mx) ltac:(lia)) as Hm.
      simpl in Hm. simpl. lia. }
  assert (binary_normalize prec emax (cond_Zopp sx (Zpos r)) e sx
          = binary_round prec emax sx r e) as -> by (by destruct sx).
  destruct (binary_round_exact sx r e Hdr ltac:(lia) ltac:(lia))
    as (mz & ez & -> & Hez & Hmz).
  exists mz, ez. split; [done|]. split; [lia|].
  rewrite Hmz.
  replace (-50 - ez) with ((-50 - e) + (e - ez)) by lia.
  rewrite Z.pow_add_r by lia.
  assert (0 < 2 ^ (e - ez)) by (apply Z.pow_pos_nonneg; lia).
  unfold Y in HrY. nia.
Qed.

Lemma add_two_pi_sign mz ez :
  ez <= -50 -> Zpos mz < 7074237752028440 * 2 ^ (-50 - ez) ->
  ltb (add (S754_finite true mz ez) two_pi) zero = false.
Proof.
  intros Hez Hlt. rewrite FloatFacts.two_pi_bits. unfold add, SFadd.
  replace (Z.min ez (-50)) with ez by lia.
  destruct (FloatFacts.shl_align_spec mz ez ez) as (m1 & e1 & -> & He1 & Hm1).
  destruct (FloatFacts.shl_align_spec 7074237752028440 (-50) ez)
    as (m2 & e2 & -> & He2 & Hm2).
  cbn [fst cond_Zopp].
  assert (e1 = ez) as -> by lia. assert (e2 = ez) as -> by lia.
  rewrite Z.sub_diag in Hm1. change (2 ^ 0) with 1 in Hm1.
  destruct (Z.opp (Zpos m1) + Zpos m2) as [|q|q] eqn:Hq; [done| |lia].
  cbn [binary_normalize]. apply binary_round_sign.
Qed.

Lemma SFltb_same_exponent m1 m2 e :
  Zpos m1 < Zpos m2 ->
  SFltb (S754_finite false m1 e) (S754_finite false m2 e) = true.
Proof.
  intros Hlt. unfold SFltb, SFcompare. rewrite Z.compare_refl.
  change (Pos.compare m1 m2 = Lt) in Hlt. unfold Pos.compare in Hlt.
  rewrite Hlt. reflexivity.
Qed.

Lemma SFltb_lower_exponent m1 m2 e1 e2 :
  e1 < e2 ->
  SFltb (S754_finite false m1 e1) (S754_finite false m2 e2) = true.
Proof.
  intros Hlt. unfold SFltb, SFcompare.
  apply Z.compare_lt_iff in Hlt. rewrite Hlt. reflexivity.
Qed.

Lemma float_rem_two_pi_sign f :
  valid f = true -> is_finite f = true ->
  exists theta,
    float_rem f two_pi = inr theta /\
    ltb theta zero = false /\
    (ltb f zero = false -> ltb theta two_pi = true).
Proof.
  intros Hv Hf. unfold float_rem.
  destruct f as [s| | |sx mx ex]; [|discriminate Hf|discriminate Hf|].
  - rewrite FloatFacts.two_pi_bits. exists zero. by destruct s.
  - pose proof (fmod_two_pi_exact sx mx ex Hv) as Hmd.
    pose proof (add_two_pi_sign) as Hadd.
    rewrite FloatFacts.two_pi_bits in *.
    set (tp := S754_finite false 7074237752028440 (-50)) in *.
    change (eqb tp zero) with false. cbv iota.
    change (ltb tp zero) with false. cbn [xorb].
    destruct Hmd as [->|(mz & ez & -> & Hez & Hlt)].
    + exists zero. by destruct sx.
    + destruct sx.
      * change (eqb (S754_finite true mz ez) zero) with false. cbn [negb].
        change (ltb (S754_finite true mz ez) zero) with true. cbv iota.
        eexists. split; [reflexivity|]. split; [by apply Hadd|discriminate].
      * change (eqb (S754_finite false mz ez) zero) with false. cbn [negb].
        change (ltb (S754_finite false mz ez) zero) with false. cbv iota.
        eexists. split; [reflexivity|]. split; [reflexivity|]. intros _.
        unfold tp, ltb.
        destruct (Z_lt_le_dec ez (-50)) as [Hlow|Hhigh].
        { by apply SFltb_lower_exponent. }
        assert (ez = -50) as Heq by lia.
        rewrite Heq, Z.sub_diag, Z.pow_0_r, Z.mul_1_r in Hlt. rewrite Heq.
        by apply SFltb_same_exponent.
Qed.

End ThetaFacts.

(** The angle that [wheel_hover] reports is within one turn: for every
    angle that is a finite double, the wheel's [theta] is a finite double
    that is not negative; and if the angle is not negative, [theta] is
    below [2 * math.pi]. *)
Theorem hover_angle_within_turn (n : Z) (f : Float64.float) :
  1 <= n < 2 ^ 53 ->
  Float64.valid f = true -> Float64.is_finite f = true ->
  exists theta sector,
    wheel_sector n (PFloat f) = inr (theta, sector) /\
    Float64.is_finite theta = true /\
    Float64.ltb theta Float64.zero = false /\
    (Float64.ltb f Float64.zero = false ->
     Float64.ltb theta Float64.two_pi = true).
Proof.
  intros Hn Hv Hf.
  destruct (FloatFacts.wheel_sector_total n (PFloat f) f Hn eq_refl Hf)
    as (theta & sector & Hw & _).
  exists theta, sector. split; [done|].
  destruct (FloatFacts.float_rem_two_pi_mag f Hf) as (th1 & Hth1 & Hmag).
  destruct (ThetaFacts.float_rem_two_pi_sign f Hv Hf) as (th2 & Hth2 & Hs & Hb).
  assert (th2 = th1) as -> by congruence.
  assert (theta = th1) as ->.
  { unfold wheel_sector, py_mod_float in Hw. cbn [to_float res_bind] in Hw.
    rewrite Hth1 in Hw. cbn [res_bind] in Hw.
    destruct (Float64.of_int n); [done|]. cbn [res_bind] in Hw.
    destruct (Float64.trunc _); [done|]. cbn [res_bind] in Hw.
    destruct (n =? 0); congruence. }
  split; [by eapply FloatFacts.mag_le_finite|done].
Qed.

Lemma hover_angle_within_turn_witness :
  exists theta sector,
    wheel_sector 10 (PFloat (Float64.decimal 314 100)) = inr (theta, sector) /\
    Float64.is_finite theta = true /\
    Float64.ltb theta Float64.zero = false /\
    (Float64.ltb (Float64.decimal 314 100) Float64.zero = false ->
     Float64.ltb theta Float64.two_pi = true).
Proof.
  apply (hover_angle_within_turn 10 (Float64.decimal 314 100)).
  - lia.
  - vm_compute. reflexivity.
  - vm_compute. reflexivity.
Defined.

(** * Exceptions that leave the callback *)

Section RaisesOnly.

Variable P : exn -> Prop.

Lemma raises_only_ret {A} (a : A) : raises_only P (ret a).
Proof. by intros w e w'. Qed.

Lemma raises_only_lift {A} (r : res A) :
  (forall e, r = inl e -> P e) -> raises_only P (lift r).
Proof.
  intros Hr w e w'. destruct r as [e0|a]; simpl; [|done].
  unfold raise. intros [= <- _]. by apply Hr.
Qed.

Lemma raises_only_bind {A B} (c : M A) (k : A -> M B) :
  raises_only P c -> (forall a, raises_only P (k a)) -> raises_only P (bind c k).
Proof.
  intros Hc Hk w e w'. unfold bind.
  destruct (c w) as [a w1|e1 w1] eqn:Hcw.
  - apply Hk.
  - intros [= <- _]. by eapply Hc.
Qed.

Lemma raises_only_when (b : bool) (c : M unit) :
  raises_only P c -> raises_only P (when b c).
Proof. destruct b; [done|]. intros _. apply raises_only_ret. Qed.

Lemma raises_only_modify (f : world -> world) : raises_only P (modify f).
Proof. by intros w e w'. Qed.

Lemma raises_only_logger (m : log_msg) : raises_only P (logger m).
Proof. apply raises_only_modify. Qed.

Lemma raises_only_get_world : raises_only P get_world.
Proof. by intros w e w'. Qed.

Lemma raises_only_broadcast (obj : json) : raises_only P (broadcast obj).
Proof. intros w e w'. by rewrite Hub.broadcast_spec. Qed.

End RaisesOnly.

(** ** The operations of the program raise exceptions of the interpreter *)

Lemma of_int_builtin z e : Float64.of_int z = inl e -> builtin e = true.
Proof. unfold Float64.of_int. destruct (Float64.of_Z z); by intros [= <-]. Qed.

Lemma to_float_builtin v e : to_float v = inl e -> builtin e = true.
Proof.
  destruct v as [|z|f]; simpl; [by intros [= <-]|apply of_int_builtin|done].
Qed.

Lemma float_rem_builtin a b e : Float64.float_rem a b = inl e -> builtin e = true.
Proof.
  unfold Float64.float_rem. destruct (Float64.eqb b Float64.zero); [by intros [= <-]|].
  destruct (negb _); [|done]. by destruct (xorb _ _).
Qed.

Lemma trunc_builtin f e : Float64.trunc f = inl e -> builtin e = true.
Proof. destruct f; simpl; try done; by intros [= <-]. Qed.

Lemma py_sub_builtin a b e : py_sub a b = inl e -> builtin e = true.
Proof.
  destruct a as [|za|fa], b as [|zb|fb]; simpl; try done; try (by intros [= <-]).
  - unfold res_bind. destruct (Float64.of_int za) eqn:Ha; [|done].
    intros [= <-]. by eapply of_int_builtin.
  - unfold res_bind. destruct (Float64.of_int zb) eqn:Hb; [|done].
    intros [= <-]. by eapply of_int_builtin.
Qed.

Lemma py_index_builtin {A} (l : list A) i e : py_index l i = inl e -> builtin e = true.
Proof.
  unfold py_index. destruct (_ && _); [|by intros [= <-]].
  destruct (l !! _); [done|by intros [= <-]].
Qed.

Lemma wheel_sector_builtin n angle e :
  wheel_sector n angle = inl e -> builtin e = true.
Proof.
  unfold wheel_sector, py_mod_float, res_bind.
  destruct (to_float angle) as [e0|f] eqn:Hf.
  { intros [= <-]. by eapply to_float_builtin. }
  destruct (Float64.float_rem f Float64.two_pi) as [e0|theta] eqn:Hrem.
  { intros [= <-]. by eapply float_rem_builtin. }
  destruct (Float64.of_int n) as [e0|nf] eqn:Hn.
  { intros [= <-]. by eapply of_int_builtin. }
  destruct (Float64.trunc _) as [e0|k] eqn:Hk.
  { intros [= <-]. by eapply trunc_builtin. }
  destruct (n =? 0); [by intros [= <-]|done].
Qed.

Section ExceptionFacts.

Variable hypot : Float64.float -> Float64.float -> res Float64.float.
Variable P : exn -> Prop.
Hypothesis builtin_P : forall e, builtin e = true -> P e.
Hypothesis hypot_P : forall a b e, hypot a b = inl e -> P e.

Lemma math_hypot_raises dx dy e : math_hypot hypot dx dy = inl e -> P e.
Proof.
  unfold math_hypot, res_bind.
  destruct (to_float dx) as [e0|fx] eqn:Hx.
  { intros [= <-]. by eapply builtin_P, to_float_builtin. }
  destruct (to_float dy) as [e0|fy] eqn:Hy.
  { intros [= <-]. by eapply builtin_P, to_float_builtin. }
  apply hypot_P.
Qed.

Lemma raises_only_proximity_scan items rec sector :
  raises_only P (proximity_scan hypot items rec sector).
Proof.
  induction items as [|[session_id srec] items IH]; simpl;
    [apply raises_only_ret|].
  apply raises_only_bind; [|done].
  apply raises_only_when.
  apply raises_only_bind;
    [apply raises_only_lift; intros e He; by eapply builtin_P, py_sub_builtin|intros dx].
  apply raises_only_bind;
    [apply raises_only_lift; intros e He; by eapply builtin_P, py_sub_builtin|intros dy].
  apply raises_only_bind;
    [apply raises_only_lift; intros e He; by eapply math_hypot_raises|intros dist].
  apply raises_only_when.
  apply raises_only_bind;
    [apply raises_only_lift; intros e He; by eapply builtin_P, py_index_builtin|intros ?].
  apply raises_only_bind; [apply raises_only_logger|intros _].
  apply raises_only_broadcast.
Qed.

Lemma raises_only_process_logic rec :
  raises_only P (process_logic_and_broadcast hypot rec).
Proof.
  unfold process_logic_and_broadcast.
  apply raises_only_bind; [apply raises_only_broadcast|intros _].
  apply raises_only_bind; [|intros _].
  { apply raises_only_when.
    apply raises_only_bind; [|intros ?].
    { apply raises_only_lift. intros e.
      destruct (dict_lookup _ _); [done|]. intros [= <-]. by apply builtin_P. }
    apply raises_only_bind; [apply raises_only_logger|intros _].
    apply raises_only_broadcast. }
  apply raises_only_bind; [|intros _].
  { apply raises_only_when.
    apply raises_only_bind; [apply raises_only_logger|intros _].
    apply raises_only_broadcast. }
  apply raises_only_bind; [|intros _].
  { apply raises_only_when.
    apply raises_only_bind;
      [apply raises_only_lift; intros e He; by eapply builtin_P, wheel_sector_builtin
      |intros ?].
    apply raises_only_bind;
      [apply raises_only_lift; intros e He; by eapply builtin_P, py_index_builtin
      |intros ?].
    apply raises_only_bind; [apply raises_only_logger|intros _].
    apply raises_only_bind; [apply raises_only_broadcast|intros _].
    apply raises_only_bind; [apply raises_only_get_world|intros ?].
    apply raises_only_proximity_scan. }
  apply raises_only_when.
  apply raises_only_bind; [apply raises_only_logger|intros _].
  apply raises_only_broadcast.
Qed.

Lemma hasattr_raises {A} (a : attr A) e :
  attr_raises P a -> hasattr a = inl e -> P e.
Proof. destruct a; simpl; try done. by intros ? [= <-]. Qed.

Lemma getattr_raises {A} (a : attr A) e :
  attr_raises P a -> getattr a = inl e -> P e.
Proof.
  destruct a; simpl; try done.
  - intros _ [= <-]. by apply builtin_P.
  - by intros ? [= <-].
Qed.

Lemma getattr_default_raises {A} (a : attr A) (d : A) e :
  attr_raises P a -> getattr_default a d = inl e -> P e.
Proof. destruct a; simpl; try done. by intros ? [= <-]. Qed.

Lemma getattr3_raises (a b c : attr pyval) (d : pyval) e :
  attr_raises P a -> attr_raises P b -> attr_raises P c ->
  getattr3 a b c d = inl e -> P e.
Proof.
  intros Ha Hb Hc. unfold getattr3, res_bind.
  destruct (getattr_default c d) as [e0|dc] eqn:H1.
  { intros [= <-]. eapply getattr_default_raises; last done; done. }
  destruct (getattr_default b dc) as [e0|db] eqn:H2.
  { intros [= <-]. eapply getattr_default_raises; last done; done. }
  by apply getattr_default_raises.
Qed.

Lemma probe_ids_raises (attrs : list (attr (option Z))) e :
  Forall (attr_raises P) attrs -> probe_ids attrs = inl e -> P e.
Proof.
  induction 1 as [|a attrs Ha _ IH]; simpl; [done|].
  unfold res_bind. destruct (hasattr a) as [e0|[]] eqn:Hh.
  - intros [= <-]. eapply hasattr_raises; last done; done.
  - by apply getattr_raises.
  - done.
Qed.

Lemma build_record_raises evt obj e :
  object_raises P obj -> build_record evt obj = inl e -> P e.
Proof.
  intros (H1 & H2 & H3 & H4 & H5 & H6 & H7 & H8 & H9 & H10 & H11 & H12).
  unfold build_record, res_bind.
  destruct (probe_ids _) as [e0|[symbol_id|]] eqn:Hid.
  - intros [= <-]. eapply probe_ids_raises; [|done].
    unfold possible_id_attrs. by repeat constructor.
  - destruct (getattr_default (TuioObject.session_id obj) None) as [e0|sess] eqn:Hs.
    { intros [= <-]. eapply getattr_default_raises; last done; done. }
    destruct (getattr3 (TuioObject.x obj) _ _ _) as [e0|x] eqn:Hx.
    { intros [= <-]. eapply getattr3_raises; last done; done. }
    destruct (getattr3 (TuioObject.y obj) _ _ _) as [e0|y] eqn:Hy.
    { intros [= <-]. eapply getattr3_raises; last done; done. }
    destruct (getattr_default (TuioObject.angle obj) (PInt 0)) as [e0|a] eqn:Ha.
    { intros [= <-]. eapply getattr_default_raises; last done; done. }
    done.
  - done.
Qed.

Lemma raises_only_handle_obj_body evt obj :
  object_raises P obj ->
  raises_only P (_handle_obj_body hypot evt obj).
Proof.
  intros Hobj. unfold _handle_obj_body.
  apply raises_only_bind;
    [apply raises_only_lift; intros e He; by eapply build_record_raises|].
  intros [rec|]; [|apply raises_only_logger].
  do 3 (apply raises_only_bind;
    [apply raises_only_lift; intros e He; by eapply builtin_P, to_float_builtin
    |intros ?]).
  apply raises_only_bind; [apply raises_only_logger|intros _].
  apply raises_only_bind; [apply raises_only_modify|intros _].
  apply raises_only_process_logic.
Qed.

End ExceptionFacts.

Lemma builtin_printable class_of_tag e :
  builtin e = true -> printable class_of_tag e.
Proof. by destruct e. Qed.

(** With every class printable, the callback is the one of the statements
    above. *)
Lemma handle_obj_all_printable hypot evt obj w :
  AnyException._handle_obj (fun _ => Printable) hypot evt obj w
  = _handle_obj hypot evt obj w.
Proof.
  unfold AnyException._handle_obj, AnyException.try_except_Exception,
    _handle_obj, try_except.
  destruct (_handle_obj_body hypot evt obj w) as [a w1|e w1]; [done|].
  by destruct e.
Qed.



